(** * seoscan: the streaming job engine and the sitemap crawler of server.js

    A shallow embedding of [server.js]: the per-URL check ([checkUrl]), the
    worker pool ([runStreaming]), the job object with its event log and its
    attached responses ([createJob], [pushJobEvent]), the three job endpoints
    ([/api/check-job], [/api/check-events], [/api/check-cancel]) and the
    sitemap crawl ([/api/sitemap-stream]); then [run] with [/api/check], and
    of [check-h1.js] the reports ([csvEscape], [writeCsvReportFiltered],
    [escapeHtml]) and the URL file ([readUrlsFromFile]).

    Node runs every handler and every continuation of an [await] to its next
    suspension point without interruption, so one such run is one step of
    the model; the order of the steps is left open. *)

From Stdlib Require Import Ascii String ZArith Lia.
From stdpp Require Import gmap strings list pretty.

Local Open Scope string_scope.
Local Open Scope list_scope.
Local Open Scope nat_scope.
Local Open Scope stdpp_scope.

(* ===================================================================== *)
(** ** JavaScript strings *)
(* ===================================================================== *)

(** A string of the model is a string of ASCII characters, each of them one
    code unit of the JavaScript string: [String.length] is then [.length],
    and the white space of [trim] is the ASCII part of it. *)

Module Js.

(** [err.name] and [err.message] of a thrown [Error]. *)
Record Error := { name : string; message : string }.

(** ASCII lower-casing, for the [i] flag of a regular expression. *)
Definition lower (c : ascii) : ascii :=
  let n := nat_of_ascii c in
  if (65 <=? n)%nat && (n <=? 90)%nat then ascii_of_nat (n + 32) else c.

Fixpoint lower_string (s : string) : string :=
  match s with
  | EmptyString => EmptyString
  | String c r => String (lower c) (lower_string r)
  end.

(** [s.startsWith(p)]. *)
Definition startsWith (p s : string) : bool := String.prefix p s.

(** [s.includes(p)]: [p] occurs in [s] at some offset. *)
Fixpoint includes (p s : string) : bool :=
  String.prefix p s ||
  match s with
  | EmptyString => false
  | String _ r => includes p r
  end.

(** White space removed by [String.prototype.trim], on ASCII: tab, line
    feed, vertical tab, form feed, carriage return and space. *)
Definition is_space (c : ascii) : bool :=
  let n := nat_of_ascii c in
  ((9 <=? n)%nat && (n <=? 13)%nat) || (n =? 32)%nat.

Fixpoint trimStart (s : string) : string :=
  match s with
  | EmptyString => EmptyString
  | String c r => if is_space c then trimStart r else s
  end.

Fixpoint rev_string (acc s : string) : string :=
  match s with
  | EmptyString => acc
  | String c r => rev_string (String c acc) r
  end.

Definition trimEnd (s : string) : string :=
  rev_string "" (trimStart (rev_string "" s)).

Definition trim (s : string) : string := trimEnd (trimStart s).

(** Truthiness of a string-or-undefined value: [undefined] and [''] are
    falsy. *)
Definition truthy (o : option string) : option string :=
  match o with
  | Some "" => None
  | _ => o
  end.

(** [a || b] on string-or-undefined values. *)
Definition or_else (a b : option string) : option string :=
  match truthy a with
  | Some s => Some s
  | None => b
  end.

End Js.

(* ===================================================================== *)
(** ** checkUrl *)
(* ===================================================================== *)

(** The object [out] that [checkUrl] fills in and returns. *)
Record CheckResult := mkCheckResult {
  url : string;
  status : option nat;
  ok : bool;
  responseTimeMs : option Z;
  hasH1 : bool;
  h1Count : nat;
  h1Length : nat;
  multipleH1 : bool;
  missingH1 : bool;
  h1 : option string;
  title : option string;
  metaDescription : option string;
  canonical : option string;
  error : option string
}.

(** What the cheerio selectors of [checkUrl] find in a document:
    [$('title').first().text()], the [content] attributes of the two
    description metas, the [href] of the canonical link and the text of
    each [h1]. *)
Record Page := {
  title_text : string;
  meta_description : option string;
  og_description : option string;
  canonical_href : option string;
  h1_texts : list string
}.

(** [await res.text()] followed by [cheerio.load]: it throws or yields a
    document. *)
Inductive Body :=
  | BodyThrows (e : Js.Error)
  | BodyText (p : Page).

(** The response of [fetch]: [res.status], [res.ok],
    [res.headers.get('content-type')] and the body. *)
Record Response := {
  res_status : nat;
  res_ok : bool;
  content_type : option string;
  res_body : Body
}.

(** [await fetchWithTimeout(url)]: the race of [fetch] with the timer. The
    timer rejects with an error named [AbortError]. *)
Inductive Fetched :=
  | FetchThrows (e : Js.Error)
  | FetchReturns (r : Response).

(** Everything the outside world contributes to one call of [checkUrl]:
    the two readings of [Date.now()] and the outcome of the fetch. *)
Record CheckIO := {
  t_start : Z;
  t_end : Z;
  fetched : Fetched
}.

Definition blank (u : string) : CheckResult :=
  {| url := u; status := None; ok := false; responseTimeMs := None;
     hasH1 := false; h1Count := 0; h1Length := 0; multipleH1 := false;
     missingH1 := true; h1 := None; title := None; metaDescription := None;
     canonical := None; error := None |}.

Definition with_response (st : nat) (o : bool) (r : CheckResult) : CheckResult :=
  {| url := url r; status := Some st; ok := o;
     responseTimeMs := responseTimeMs r;
     hasH1 := hasH1 r; h1Count := h1Count r; h1Length := h1Length r;
     multipleH1 := multipleH1 r; missingH1 := missingH1 r; h1 := h1 r;
     title := title r; metaDescription := metaDescription r;
     canonical := canonical r; error := error r |}.

Definition with_error (msg : string) (r : CheckResult) : CheckResult :=
  {| url := url r; status := status r; ok := ok r;
     responseTimeMs := responseTimeMs r;
     hasH1 := hasH1 r; h1Count := h1Count r; h1Length := h1Length r;
     multipleH1 := multipleH1 r; missingH1 := missingH1 r; h1 := h1 r;
     title := title r; metaDescription := metaDescription r;
     canonical := canonical r; error := Some msg |}.

Definition with_time (ms : Z) (r : CheckResult) : CheckResult :=
  {| url := url r; status := status r; ok := ok r;
     responseTimeMs := Some ms;
     hasH1 := hasH1 r; h1Count := h1Count r; h1Length := h1Length r;
     multipleH1 := multipleH1 r; missingH1 := missingH1 r; h1 := h1 r;
     title := title r; metaDescription := metaDescription r;
     canonical := canonical r; error := error r |}.

(** The assignments of the HTML branch, lines 137 to 155. *)
Definition with_page (p : Page) (r : CheckResult) : CheckResult :=
  let titleText := Js.trim (title_text p) in
  let metaDesc := Js.or_else (meta_description p) (og_description p) in
  let n := length (h1_texts p) in
  let first := Js.trim (default "" (head (h1_texts p))) in
  {| url := url r; status := status r; ok := ok r;
     responseTimeMs := responseTimeMs r;
     hasH1 := bool_decide (0 < n);
     h1Count := n;
     h1Length := if bool_decide (0 < n) then String.length first else 0;
     multipleH1 := bool_decide (1 < n);
     missingH1 := bool_decide (n = 0);
     h1 := if bool_decide (0 < n) then Some first else None;
     title := Js.truthy (Some titleText);
     metaDescription := Js.trim <$> Js.truthy metaDesc;
     canonical := Js.trim <$> Js.truthy (canonical_href p);
     error := error r |}.

(** The [catch] clause: [err.name === 'AbortError' ? 'timeout' : err.message]. *)
Definition caught (e : Js.Error) : string :=
  if bool_decide (Js.name e = "AbortError") then "timeout" else Js.message e.

(** [checkUrl(url)]. The [finally] clause runs on every path, the early
    [return out] of the non-HTML branch included. *)
Definition checkUrl (u : string) (io : CheckIO) : CheckResult :=
  let out := blank u in
  let out :=
    match fetched io with
    | FetchThrows e => with_error (caught e) out
    | FetchReturns res =>
        let out := with_response (res_status res) (res_ok res) out in
        let contentType := default "" (Js.truthy (content_type res)) in
        if negb (Js.includes "text/html" contentType) then
          with_error ("non-html content-type: " +:+ contentType) out
        else
          match res_body res with
          | BodyThrows e => with_error (caught e) out
          | BodyText p => with_page p out
          end
    end in
  with_time (t_end io - t_start io) out.

(* ===================================================================== *)
(** ** Jobs, their event log and their attached responses *)
(* ===================================================================== *)

(** An element of the [urls] array of a request body. [URL s] is a string.
    [NoPrimitive] is a JSON object that shadows [toString] with a value
    that is not a function, such as [{"toString": 1}]: converting it to a
    string throws a [TypeError], and [RegExp.prototype.test] converts its
    argument to a string. *)
Inductive UrlItem :=
  | URL (s : string)
  | NoPrimitive.

Definition no_primitive : Js.Error :=
  {| Js.name := "TypeError";
     Js.message := "Cannot convert object to primitive value" |}.

(** [/^https?:\/\//i.test(url)]. *)
Definition has_scheme (s : string) : bool :=
  let l := Js.lower_string s in
  Js.startsWith "http://" l || Js.startsWith "https://" l.

(** [if (!/^https?:\/\//i.test(url)) url = 'http://' + url]. *)
Definition normalize (s : string) : string :=
  if has_scheme s then s else "http://" +:+ s.

(** [{ event, payload }], with the payloads the server builds. *)
Inductive Event :=
  | Start (total : nat)
  | Progress (index : nat) (result : CheckResult) (processed total : nat)
  | Done (processed total : nat)
  | Failed (error : string).

(** [event === 'done' || event === 'failed']. *)
Definition terminal (e : Event) : bool :=
  match e with
  | Done _ _ | Failed _ => true
  | _ => false
  end.

(** What [sendSse] writes to a response: an event of the log, or the
    [ping] of the heartbeat. *)
Inductive Frame :=
  | Sent (e : Event)
  | Ping.

(** One request to [/api/check-events]: what was written to [res], whether
    [res.end()] was called, and whether the [heartbeat] interval is set. *)
Record Conn := {
  written : list Frame;
  ended : bool;
  heartbeat : bool
}.

(** State of the timer held in [job.cleanupTimer]. *)
Inductive Timer :=
  | Unset
  | Pending
  | Fired.

(** The job object of [createJob]. [clients] holds responses; a response is
    named by the position of its connection among the connections of the
    job. *)
Record Job := {
  id : string;
  total : nat;
  processed : nat;
  results : list (option CheckResult);
  events : list Event;
  clients : gset nat;
  done : bool;
  cancelled : bool;
  cleanupTimer : Timer
}.

Definition createJob (uuid : string) (n : nat) : Job :=
  {| id := uuid; total := n; processed := 0; results := replicate n None;
     events := []; clients := ∅; done := false; cancelled := false;
     cleanupTimer := Unset |}.

Definition set_events (l : list Event) (j : Job) : Job :=
  {| id := id j; total := total j; processed := processed j;
     results := results j; events := l; clients := clients j;
     done := done j; cancelled := cancelled j;
     cleanupTimer := cleanupTimer j |}.

Definition set_clients (s : gset nat) (j : Job) : Job :=
  {| id := id j; total := total j; processed := processed j;
     results := results j; events := events j; clients := s;
     done := done j; cancelled := cancelled j;
     cleanupTimer := cleanupTimer j |}.

Definition set_done (j : Job) : Job :=
  {| id := id j; total := total j; processed := processed j;
     results := results j; events := events j; clients := clients j;
     done := true; cancelled := cancelled j;
     cleanupTimer := cleanupTimer j |}.

Definition set_cancelled (j : Job) : Job :=
  {| id := id j; total := total j; processed := processed j;
     results := results j; events := events j; clients := clients j;
     done := done j; cancelled := true;
     cleanupTimer := cleanupTimer j |}.

(** [job.results[index] = result; job.processed += 1]. An assignment past
    the end would extend a JavaScript array. *)
Definition store (index : nat) (r : CheckResult) (j : Job) : Job :=
  {| id := id j; total := total j; processed := S (processed j);
     results :=
       if bool_decide (index < length (results j))
       then <[index := Some r]> (results j)
       else results j ++ replicate (index - length (results j)) None ++ [Some r];
     events := events j; clients := clients j;
     done := done j; cancelled := cancelled j;
     cleanupTimer := cleanupTimer j |}.

(** [cleanupJob]: a timer that is set is cleared and a new one is set. *)
Definition cleanupJob (j : Job) : Job :=
  {| id := id j; total := total j; processed := processed j;
     results := results j; events := events j; clients := clients j;
     done := done j; cancelled := cancelled j;
     cleanupTimer := Pending |}.

(** [res.write] of a frame. Nothing is written to a response that was
    ended. *)
Definition sendSse (f : Frame) (c : Conn) : Conn :=
  if ended c then c
  else {| written := written c ++ [f]; ended := false;
          heartbeat := heartbeat c |}.

(** [res.end()]. *)
Definition end_response (c : Conn) : Conn :=
  {| written := written c; ended := true; heartbeat := heartbeat c |}.

(** The loop of [pushJobEvent] over [job.clients]. *)
Definition fan_out (e : Event) (cl : gset nat) (cs : list Conn) : list Conn :=
  imap (λ k c,
    if bool_decide (k ∈ cl) then
      let c := sendSse (Sent e) c in
      if terminal e then end_response c else c
    else c) cs.

(** [pushJobEvent(job, event, payload)]. *)
Definition pushJobEvent (e : Event) (jc : Job * list Conn) : Job * list Conn :=
  let j := set_events (events jc.1 ++ [e]) jc.1 in
  let cs := fan_out e (clients j) jc.2 in
  (if terminal e then set_clients ∅ j else j, cs).

(* ===================================================================== *)
(** ** runStreaming and the three job endpoints *)
(* ===================================================================== *)

(** Where one [worker()] of [runStreaming] stands. *)
Inductive Worker :=
  | Looping                               (* about to run the loop head *)
  | Awaiting (idx : nat) (u : string)     (* suspended in [await checkUrl(u)] *)
  | Returned                              (* left the loop by [break] *)
  | Rejected (e : Js.Error).              (* an exception left the function *)

(** The closure of one call of [runStreaming]: [urls], the cursor [i], the
    workers, the first rejection among them (the reason with which
    [Promise.all] rejects), and whether the reaction registered on the
    returned promise by [.then(...).catch(...)] has run. *)
Record Pool := {
  urls : list UrlItem;
  i : nat;
  workers : list Worker;
  rejection : option Js.Error;
  settled : bool
}.

(** A job object, the pool working for it, and every connection that
    [/api/check-events] opened on it, in order of arrival. *)
Record Cell := {
  job : Job;
  pool : Pool;
  conns : list Conn
}.

(** [Math.max(1, Math.min(concurrency, urls.length))]. *)
Definition worker_count (concurrency : Z) (n : nat) : nat :=
  Z.to_nat (Z.max 1 (Z.min concurrency (Z.of_nat n))).

(** The handler of [/api/check-job] once [urls] is accepted: [createJob],
    the [start] event, and the call of [runStreaming]. *)
Definition new_cell (uuid : string) (us : list UrlItem) (concurrency : Z) : Cell :=
  let jc := pushJobEvent (Start (length us)) (createJob uuid (length us), []) in
  {| job := jc.1;
     pool := {| urls := us; i := 0;
                workers := replicate (worker_count concurrency (length us)) Looping;
                rejection := None; settled := false |};
     conns := jc.2 |}.

(** The callback [onResult] passed by [/api/check-job]. *)
Definition onResult (index : nat) (r : CheckResult) (jc : Job * list Conn)
  : Job * list Conn :=
  if cancelled jc.1 then jc
  else
    let j := store index r jc.1 in
    pushJobEvent (Progress index r (processed j) (total j)) (j, jc.2).

(** The callback of [.then]. *)
Definition on_fulfilled (jc : Job * list Conn) : Job * list Conn :=
  if done jc.1 then jc
  else
    let jc' :=
      if cancelled jc.1
      then pushJobEvent (Failed "cancelled") (set_done jc.1, jc.2)
      else
        let j := set_done jc.1 in
        pushJobEvent (Done (processed j) (total j)) (j, jc.2) in
    (cleanupJob jc'.1, jc'.2).

(** The callback of [.catch]. *)
Definition on_rejected (e : Js.Error) (jc : Job * list Conn) : Job * list Conn :=
  if done jc.1 then jc
  else
    let jc' := pushJobEvent (Failed (Js.message e)) (set_done jc.1, jc.2) in
    (cleanupJob jc'.1, jc'.2).

Definition set_worker (w : nat) (st : Worker) (p : Pool) : Pool :=
  {| urls := urls p; i := i p; workers := <[w := st]> (workers p);
     rejection := rejection p; settled := settled p |}.

(** [i++]. *)
Definition bump (p : Pool) : Pool :=
  {| urls := urls p; i := S (i p); workers := workers p;
     rejection := rejection p; settled := settled p |}.

(** The promise of a worker rejects; [Promise.all] keeps the first reason. *)
Definition reject (w : nat) (e : Js.Error) (p : Pool) : Pool :=
  {| urls := urls p; i := i p; workers := <[w := Rejected e]> (workers p);
     rejection := Some (default e (rejection p)); settled := settled p |}.

Definition settle (p : Pool) : Pool :=
  {| urls := urls p; i := i p; workers := workers p;
     rejection := rejection p; settled := true |}.

(** What can happen to a cell. *)
Inductive Op :=
  | Resume (w : nat)                  (* worker [w] runs from the loop head *)
  | Checked (w : nat) (io : CheckIO)  (* [await checkUrl(url)] of worker [w] completes *)
  | Settle                            (* the reaction on the promise of [runStreaming] runs *)
  | Attach                            (* [/api/check-events] finds the job *)
  | Cancel                            (* [/api/check-cancel] finds the job *)
  | Close (k : nat)                   (* ['close'] on the request of connection [k] *)
  | Beat (k : nat)                    (* the heartbeat of connection [k] fires *)
  | Expire.                           (* the timer of [cleanupJob] fires *)

(** From the loop head to the next suspension: lines 206 to 213. *)
Definition resume (w : nat) (c : Cell) : option Cell :=
  match workers (pool c) !! w with
  | Some Looping =>
      if cancelled (job c) then
        Some {| job := job c; pool := set_worker w Returned (pool c); conns := conns c |}
      else
        let idx := i (pool c) in
        let p := bump (pool c) in
        match urls p !! idx with
        | None => (* [idx >= urls.length] *)
            Some {| job := job c; pool := set_worker w Returned p; conns := conns c |}
        | Some (URL s) =>
            Some {| job := job c; pool := set_worker w (Awaiting idx (normalize s)) p;
                    conns := conns c |}
        | Some NoPrimitive =>
            Some {| job := job c; pool := reject w no_primitive p; conns := conns c |}
        end
  | _ => None
  end.

(** From the completion of [checkUrl] to the loop head: lines 213 to 233.
    [checkUrl] catches whatever its body throws, so the [catch] around the
    call has nothing to catch. *)
Definition checked (w : nat) (io : CheckIO) (c : Cell) : option Cell :=
  match workers (pool c) !! w with
  | Some (Awaiting idx u) =>
      let result := checkUrl u io in
      if cancelled (job c) then
        Some {| job := job c; pool := set_worker w Returned (pool c); conns := conns c |}
      else
        let jc := onResult idx result (job c, conns c) in
        Some {| job := jc.1; pool := set_worker w Looping (pool c); conns := jc.2 |}
  | _ => None
  end.

(** [Promise.all(workers)] is fulfilled when every worker returned and
    rejected as soon as one worker is. *)
Definition all_returned (p : Pool) : bool :=
  forallb (λ st, match st with Returned => true | _ => false end) (workers p).

Definition settle_pool (c : Cell) : option Cell :=
  if settled (pool c) then None
  else
    match rejection (pool c) with
    | Some e =>
        let jc := on_rejected e (job c, conns c) in
        Some {| job := jc.1; pool := settle (pool c); conns := jc.2 |}
    | None =>
        if all_returned (pool c) then
          let jc := on_fulfilled (job c, conns c) in
          Some {| job := jc.1; pool := settle (pool c); conns := jc.2 |}
        else None
    end.

(** The handler of [/api/check-events] after the lookup: the replay of the
    log, then either [res.end()] or [job.clients.add(res)]. *)
Definition attach (c : Cell) : Cell :=
  let k := length (conns c) in
  let replay := Sent <$> events (job c) in
  if done (job c) then
    {| job := job c; pool := pool c;
       conns := conns c ++ [{| written := replay; ended := true; heartbeat := false |}] |}
  else
    {| job := set_clients (clients (job c) ∪ {[k]}) (job c); pool := pool c;
       conns := conns c ++ [{| written := replay; ended := false; heartbeat := true |}] |}.

(** The handler of [/api/check-cancel] after the lookup. *)
Definition cancel (c : Cell) : Cell :=
  let j := set_cancelled (job c) in
  if done j then {| job := j; pool := pool c; conns := conns c |}
  else
    let jc := pushJobEvent (Failed "cancelled") (set_done j, conns c) in
    {| job := cleanupJob jc.1; pool := pool c; conns := jc.2 |}.

(** The listener of ['close']: [clearInterval(heartbeat)] and
    [job.clients.delete(res)]. *)
Definition close (k : nat) (c : Cell) : option Cell :=
  match conns c !! k with
  | Some cn =>
      Some {| job := set_clients (clients (job c) ∖ {[k]}) (job c); pool := pool c;
              conns := <[k := {| written := written cn; ended := ended cn;
                                 heartbeat := false |}]> (conns c) |}
  | None => None
  end.

(** The callback of [setInterval]. *)
Definition beat (k : nat) (c : Cell) : option Cell :=
  match conns c !! k with
  | Some cn =>
      if heartbeat cn then
        Some {| job := job c; pool := pool c;
                conns := <[k := sendSse Ping cn]> (conns c) |}
      else None
  | None => None
  end.

(** The timer of [cleanupJob] fires; the deletion from [jobs] that its
    callback performs is part of the registry, below. *)
Definition expire (c : Cell) : option Cell :=
  match cleanupTimer (job c) with
  | Pending =>
      Some {| job :=
                {| id := id (job c); total := total (job c);
                   processed := processed (job c); results := results (job c);
                   events := events (job c); clients := clients (job c);
                   done := done (job c); cancelled := cancelled (job c);
                   cleanupTimer := Fired |};
              pool := pool c; conns := conns c |}
  | _ => None
  end.

Definition step (o : Op) (c : Cell) : option Cell :=
  match o with
  | Resume w => resume w c
  | Checked w io => checked w io c
  | Settle => settle_pool c
  | Attach => Some (attach c)
  | Cancel => Some (cancel c)
  | Close k => close k c
  | Beat k => beat k c
  | Expire => expire c
  end.

(** A sequence of operations, from left to right. *)
Fixpoint run (ops : list Op) (c : Cell) : option Cell :=
  match ops with
  | [] => Some c
  | o :: ops => match step o c with Some c' => run ops c' | None => None end
  end.

(* ===================================================================== *)
(** ** Invariants of a cell *)
(* ===================================================================== *)

(** The events a connection received, heartbeats left out. *)
Definition heard (cn : Conn) : list Event :=
  omap (λ f, match f with Sent e => Some e | Ping => None end) (written cn).

(** The log up to and including its first terminal event. *)
Fixpoint upto_terminal (l : list Event) : list Event :=
  match l with
  | [] => []
  | e :: l => if terminal e then [e] else e :: upto_terminal l
  end.

Definition is_progress (e : Event) : bool :=
  match e with Progress _ _ _ _ => true | _ => false end.

Definition is_start (e : Event) : bool :=
  match e with Start _ => true | _ => false end.

(** Number of terminal events of a log. *)
Definition terminals (l : list Event) : nat := length (filter (λ e, terminal e = true) l).

(** Number of [progress] events of a log. *)
Definition progresses (l : list Event) : nat :=
  length (filter (λ e, is_progress e = true) l).

(** Number of written slots. *)
Fixpoint filled {A} (l : list (option A)) : nat :=
  match l with
  | [] => 0
  | Some _ :: l => S (filled l)
  | None :: l => filled l
  end.

(** A cell reached from a fresh one by a sequence of operations. *)
Definition reachable (c : Cell) : Prop :=
  ∃ uuid us concurrency ops, run ops (new_cell uuid us concurrency) = Some c.

(** Lifecycle: the flags of a job, its log and its attached responses
    agree. *)
Record lifecycle (jc : Job * list Conn) : Prop := {
  lc_cancelled : cancelled jc.1 = true → done jc.1 = true;
  lc_terminals : terminals (events jc.1) = if done jc.1 then 1 else 0;
  lc_detached : done jc.1 = true → clients jc.1 = ∅;
  lc_start : ∃ tl, events jc.1 = Start (total jc.1) :: tl
                   ∧ Forall (λ e, is_start e = false) tl
                   ∧ progresses tl = processed jc.1;
  lc_clients : ∀ k, k ∈ clients jc.1 →
     ∃ cn, jc.2 !! k = Some cn ∧ ended cn = false ∧ heard cn = events jc.1
}.


Global Arguments fan_out : simpl never.
Global Arguments terminals : simpl never.
Global Arguments heard : simpl never.
Global Arguments progresses : simpl never.

(** Case analysis on an enabled step. *)
Ltac step_inv H :=
  unfold step, resume, checked, settle_pool, close, beat, expire in H;
  repeat match type of H with
         | context [match ?x with _ => _ end] => destruct x eqn:?
         end;
  simplify_eq.


(** The data of a job that only [onResult] changes. *)
Definition same_slots (j j' : Job) : Prop :=
  results j' = results j ∧ processed j' = processed j ∧ total j' = total j.


(** Positional storage: which slot a worker may write, and what a written
    slot holds. *)
Record slots (c : Cell) : Prop := {
  sl_results : length (results (job c)) = total (job c);
  sl_urls : length (urls (pool c)) = total (job c);
  sl_processed : processed (job c) = filled (results (job c));
  sl_awaiting : ∀ w idx u, workers (pool c) !! w = Some (Awaiting idx u) →
      idx < i (pool c) ∧ results (job c) !! idx = Some None
      ∧ ∃ s, urls (pool c) !! idx = Some (URL s) ∧ u = normalize s;
  sl_distinct : ∀ w1 w2 idx u1 u2,
      workers (pool c) !! w1 = Some (Awaiting idx u1) →
      workers (pool c) !! w2 = Some (Awaiting idx u2) → w1 = w2;
  sl_ahead : ∀ idx, i (pool c) ≤ idx → idx < total (job c) →
      results (job c) !! idx = Some None;
  sl_positional : ∀ idx r, results (job c) !! idx = Some (Some r) →
      ∃ s, urls (pool c) !! idx = Some (URL s) ∧ url r = normalize s
}.


(** What is known of a job whose pool runs without a rejection, and of a
    job that emitted [done]. *)
Record completion (c : Cell) : Prop := {
  cp_workers : 0 < length (workers (pool c));
  cp_claimed : cancelled (job c) = false → rejection (pool c) = None →
      ∀ idx, idx < i (pool c) → idx < total (job c) →
        (∃ r, results (job c) !! idx = Some (Some r))
        ∨ ∃ w u, workers (pool c) !! w = Some (Awaiting idx u);
  cp_returned : cancelled (job c) = false →
      ∀ w, workers (pool c) !! w = Some Returned → total (job c) ≤ i (pool c);
  cp_done : ∀ p t, Done p t ∈ events (job c) →
      all_returned (pool c) = true ∧ p = total (job c) ∧ t = total (job c)
      ∧ processed (job c) = total (job c)
      ∧ ∀ idx, idx < total (job c) → ∃ r, results (job c) !! idx = Some (Some r);
  cp_quiet : done (job c) = true → rejection (pool c) = None →
      (cancelled (job c) = true ∨ all_returned (pool c) = true)
      ∧ ∃ l e, events (job c) = l ++ [e] ∧ terminal e = true
}.


(** *** The invariant of a reachable cell *)

Record invariant (c : Cell) : Prop := {
  inv_lifecycle : lifecycle (job c, conns c);
  inv_slots : slots c;
  inv_completion : completion c
}.


(** Connection [k] is in tune with the log: it has received the log up to
    its first terminal event, and it is attached exactly as long as there is
    no such event. *)
Definition tuned (k : nat) (jc : Job * list Conn) : Prop :=
  ∃ cn, jc.2 !! k = Some cn ∧ heard cn = upto_terminal (events jc.1)
    ∧ ((k ∈ clients jc.1 ∧ ended cn = false ∧ terminals (events jc.1) = 0)
       ∨ ((k ∉ clients jc.1) ∧ ended cn = true ∧ 0 < terminals (events jc.1))).

(* ===================================================================== *)
(** ** The registry [jobs] and the requests *)
(* ===================================================================== *)

(** The job objects ever created, with their pools and connections, and
    the map [jobs] from ids to job objects. A job object is named by its
    rank of creation; deleting an id from [jobs] leaves the object, which
    its pool still holds, in place. *)
Record Server := {
  heap : list Cell;
  jobs : gmap string nat
}.

Definition empty_server : Server := {| heap := []; jobs := ∅ |}.

(** What a handler answers. *)
Inductive Reply :=
  | Json_error (code : nat) (error : string)  (* [res.status(code).json({ error })] *)
  | Json_job (jobId : string) (total : nat)   (* [res.json({ jobId, total })] *)
  | Json_ok (ok : bool)                       (* [res.json({ ok })] *)
  | Event_stream.                             (* [initSse(res)] *)

(** [jobs.get(jobId)]. *)
Definition jobs_get (jobId : string) (σ : Server) : option (nat * Cell) :=
  a ← jobs σ !! jobId; c ← heap σ !! a; Some (a, c).

Definition put (a : nat) (c : Cell) (σ : Server) : Server :=
  {| heap := <[a := c]> (heap σ); jobs := jobs σ |}.

(** [POST /api/check-job]; [uuid] is the value of [randomUUID()], and
    [concurrency] the value of [Number(concurrency) || defaultConcurrency]. *)
Definition post_check_job (uuid : string) (us : list UrlItem) (concurrency : Z)
    (σ : Server) : Server * Reply :=
  match us with
  | [] => (σ, Json_error 400 "urls must be a non-empty array")
  | _ =>
      ({| heap := heap σ ++ [new_cell uuid us concurrency];
          jobs := <[uuid := length (heap σ)]> (jobs σ) |},
       Json_job uuid (length us))
  end.

(** [GET /api/check-events?jobId=...]. *)
Definition get_check_events (query : string) (σ : Server) : Server * Reply :=
  match jobs_get (Js.trim query) σ with
  | None => (σ, Json_error 404 "job not found")
  | Some (a, c) => (put a (attach c) σ, Event_stream)
  end.

(** [POST /api/check-cancel]. *)
Definition post_check_cancel (jobId : string) (σ : Server) : Server * Reply :=
  match jobs_get jobId σ with
  | None => (σ, Json_ok false)
  | Some (a, c) => (put a (cancel c) σ, Json_ok true)
  end.

(** What the server reacts to: the three requests, and what continues for
    the job object [a]: its pool, its connections, its cleanup timer. *)
Inductive Input :=
  | PostCheckJob (uuid : string) (us : list UrlItem) (concurrency : Z)
  | GetCheckEvents (query : string)
  | PostCheckCancel (jobId : string)
  | Continue (a : nat) (o : Op).

(** The callback of the cleanup timer runs [jobs.delete(job.id)]. *)
Definition after (o : Op) (c : Cell) (m : gmap string nat) : gmap string nat :=
  match o with
  | Expire => delete (id (job c)) m
  | _ => m
  end.

Definition handle (inp : Input) (σ : Server) : option Server :=
  match inp with
  | PostCheckJob uuid us n => Some (post_check_job uuid us n σ).1
  | GetCheckEvents q => Some (get_check_events q σ).1
  | PostCheckCancel jobId => Some (post_check_cancel jobId σ).1
  | Continue a Attach | Continue a Cancel => None
  | Continue a o =>
      c ← heap σ !! a; c' ← step o c;
      Some {| heap := <[a := c']> (heap σ); jobs := after o c (jobs σ) |}
  end.

Fixpoint serve (inputs : list Input) (σ : Server) : option Server :=
  match inputs with
  | [] => Some σ
  | inp :: inputs =>
      match handle inp σ with Some σ' => serve inputs σ' | None => None end
  end.

(** A server state reached from the start of the process. *)
Definition serving (σ : Server) : Prop :=
  ∃ inputs, serve inputs empty_server = Some σ.

(** Every id of [jobs] names a job object whose cell is reachable. *)
Definition registry_ok (σ : Server) : Prop :=
  (∀ jobId a, jobs σ !! jobId = Some a → a < length (heap σ))
  ∧ (∀ a c, heap σ !! a = Some c → reachable c).

(* ===================================================================== *)
(** ** The sitemap crawl of [/api/sitemap-stream] *)
(* ===================================================================== *)

Module Sitemap.

(** What [send] writes. *)
Inductive Event :=
  | Batch (urls : list string) (total : nat)
  | Done (total : nat)
  | Failed (error : string).

(** The result of [new URL(rawUrl)]: [parsed.protocol] and
    [parsed.toString()]. *)
Record Url := {
  protocol : string;
  href : string
}.

(** The text of every [urlset > url > loc] and of every
    [sitemapindex > sitemap > loc] element of a document, as cheerio
    returns them. *)
Record Document := {
  url_locs : list string;
  sitemap_locs : list string
}.

(** [await resXml.text()] followed by [cheerio.load]: [text()] throws, or
    the parser throws, or there is a document. *)
Inductive Body :=
  | TextThrows (e : Js.Error)
  | ParseThrows (e : Js.Error)
  | Xml (d : Document).

(** [await fetchWithTimeout(url)] for a sitemap document. *)
Inductive Fetched :=
  | FetchThrows (e : Js.Error)
  | Response (ok : bool) (status : nat) (body : Body).

(** Where the handler stands: suspended in the fetch of a document, or
    returned. *)
Inductive Pc :=
  | Fetching (url : string) (depth : nat)
  | Returned.

(** The variables of the handler, what it wrote to the response, and the
    URLs it passed to [fetchWithTimeout], in order. *)
Record Crawl := {
  visitedSitemaps : gset string;
  seenUrls : gset string;
  queue : list (string * nat);
  maxDepth : nat;
  total : nat;
  closed : bool;
  sent : list Event;
  ended : bool;
  fetches : list string;
  pc : Pc
}.

(** [parseSitemapXml]: every text is trimmed and kept when not empty. *)
Definition locs (texts : list string) : list string :=
  filter (λ loc, loc ≠ "") (Js.trim <$> texts).

Definition parseSitemapXml (d : Document) : list string * list string :=
  (locs (url_locs d), locs (sitemap_locs d)).

(** Lines 453 to 455: the nested sitemaps that are pushed on the queue. *)
Definition nested (visited : gset string) (depth : nat) (sitemapLocs : list string)
  : list (string * nat) :=
  (λ loc, (loc, S depth)) <$> filter (λ loc, loc ∉ visited) sitemapLocs.

(** Lines 458 to 463: [newUrls] and the set [seenUrls] after the loop. *)
Fixpoint fresh (urlLocs : list string) (seen : gset string)
  : list string * gset string :=
  match urlLocs with
  | [] => ([], seen)
  | loc :: rest =>
      if bool_decide (loc = "") || bool_decide (loc ∈ seen) then fresh rest seen
      else let r := fresh rest ({[loc]} ∪ seen) in (loc :: r.1, r.2)
  end.

(** [newUrls.slice(i, i + chunkSize)] for [i = 0, chunkSize, ...] below
    [newUrls.length]; the first argument bounds the number of rounds. *)
Fixpoint chunks (rounds chunkSize : nat) (newUrls : list string) : list (list string) :=
  match rounds, newUrls with
  | S rounds, _ :: _ =>
      take chunkSize newUrls :: chunks rounds chunkSize (drop chunkSize newUrls)
  | _, _ => []
  end.

(** Lines 466 to 470: [total += batch.length; send('batch', ...)]. *)
Fixpoint emit (batches : list (list string)) (total : nat) : list Event * nat :=
  match batches with
  | [] => ([], total)
  | batch :: rest =>
      let t := total + length batch in
      let r := emit rest t in
      (Batch batch t :: r.1, r.2)
  end.

Definition chunkSize : nat := 200.

(** From the loop head to the next fetch or to the end of the handler:
    entries of the queue already visited are dropped; an empty queue ends
    the crawl with [done]; a closed request ends it silently. *)
Fixpoint loop (q : list (string * nat)) (s : Crawl) : Crawl :=
  if closed s then
    {| visitedSitemaps := visitedSitemaps s; seenUrls := seenUrls s; queue := q;
       maxDepth := maxDepth s; total := total s; closed := closed s;
       sent := sent s; ended := ended s; fetches := fetches s; pc := Returned |}
  else
    match q with
    | [] =>
        {| visitedSitemaps := visitedSitemaps s; seenUrls := seenUrls s; queue := [];
           maxDepth := maxDepth s; total := total s; closed := closed s;
           sent := sent s ++ [Done (total s)]; ended := true;
           fetches := fetches s; pc := Returned |}
    | (u, depth) :: q =>
        if bool_decide (u ∈ visitedSitemaps s) then loop q s
        else
          {| visitedSitemaps := {[u]} ∪ visitedSitemaps s; seenUrls := seenUrls s;
             queue := q; maxDepth := maxDepth s; total := total s;
             closed := closed s; sent := sent s; ended := ended s;
             fetches := fetches s ++ [u]; pc := Fetching u depth |}
    end.

(** [send('failed', { error }); return res.end()]. *)
Definition fail (error : string) (s : Crawl) : Crawl :=
  {| visitedSitemaps := visitedSitemaps s; seenUrls := seenUrls s; queue := queue s;
     maxDepth := maxDepth s; total := total s; closed := closed s;
     sent := sent s ++ [Failed error]; ended := true;
     fetches := fetches s; pc := Returned |}.

(** The outer [catch]: nothing is sent on a closed request. *)
Definition fail_unless_closed (error : string) (s : Crawl) : Crawl :=
  if closed s then
    {| visitedSitemaps := visitedSitemaps s; seenUrls := seenUrls s; queue := queue s;
       maxDepth := maxDepth s; total := total s; closed := closed s;
       sent := sent s; ended := ended s; fetches := fetches s; pc := Returned |}
  else fail error s.

(** Lines 451 to 470, then the loop head. *)
Definition digest (depth : nat) (d : Document) (s : Crawl) : Crawl :=
  let '(urlLocs, sitemapLocs) := parseSitemapXml d in
  let q :=
    if bool_decide (depth < maxDepth s)
    then queue s ++ nested (visitedSitemaps s) depth sitemapLocs
    else queue s in
  let new := fresh urlLocs (seenUrls s) in
  let out := emit (chunks (length new.1) chunkSize new.1) (total s) in
  loop q
    {| visitedSitemaps := visitedSitemaps s; seenUrls := new.2; queue := q;
       maxDepth := maxDepth s; total := out.2; closed := closed s;
       sent := sent s ++ out.1; ended := ended s; fetches := fetches s;
       pc := pc s |}.

(** What happens to a crawl: its pending fetch completes, or the request
    closes. *)
Inductive Op :=
  | Respond (io : Fetched)
  | Disconnect.

Definition respond (io : Fetched) (s : Crawl) : option Crawl :=
  match pc s with
  | Fetching u depth =>
      match io with
      | FetchThrows e => Some (fail (Js.message e) s)
      | Response false st _ =>
          Some (fail ("sitemap fetch failed: " +:+ pretty st) s)
      | Response true _ (TextThrows e) => Some (fail (Js.message e) s)
      | Response true _ (ParseThrows e) => Some (fail_unless_closed (Js.message e) s)
      | Response true _ (Xml d) => Some (digest depth d s)
      end
  | Returned => None
  end.

(** [req.on('close', () => { closed = true; })]. *)
Definition disconnect (s : Crawl) : Crawl :=
  {| visitedSitemaps := visitedSitemaps s; seenUrls := seenUrls s; queue := queue s;
     maxDepth := maxDepth s; total := total s; closed := true;
     sent := sent s; ended := ended s; fetches := fetches s; pc := pc s |}.

Definition step (o : Op) (s : Crawl) : option Crawl :=
  match o with
  | Respond io => respond io s
  | Disconnect => Some (disconnect s)
  end.

Fixpoint run (ops : list Op) (s : Crawl) : option Crawl :=
  match ops with
  | [] => Some s
  | o :: ops => match step o s with Some s' => run ops s' | None => None end
  end.

(** [/^https?:$/.test(parsed.protocol)]. *)
Definition http_protocol (p : string) : bool :=
  bool_decide (p = "http:") || bool_decide (p = "https:").

Section handler.

(** The constructor [URL] of the platform: [None] when it throws. *)
Variable new_URL : string → option Url.

(** The handler up to its first suspension. [query] is [req.query.url] and
    [depth] is [sitemapMaxDepth]. *)
Definition start (query : option string) (depth : nat) : Crawl :=
  let blank :=
    {| visitedSitemaps := ∅; seenUrls := ∅; queue := []; maxDepth := depth;
       total := 0; closed := false; sent := []; ended := false; fetches := [];
       pc := Returned |} in
  let rawUrl := Js.trim (default "" query) in
  if bool_decide (rawUrl = "") then fail "sitemap url required" blank
  else
    match new_URL rawUrl with
    | None => fail "invalid sitemap url" blank
    | Some parsed =>
        if http_protocol (protocol parsed)
        then loop [(href parsed, 0)] blank
        else fail "invalid sitemap url" blank
    end.

(** A state of the handler for some request. *)
Definition reachable (s : Crawl) : Prop :=
  ∃ query depth ops, run ops (start query depth) = Some s.

End handler.

(** The page URLs of the batches of a stream, in order. *)
Definition emitted (l : list Event) : list string :=
  l ≫= λ e, match e with Batch urls _ => urls | _ => [] end.

Definition is_batch (e : Event) : bool :=
  match e with Batch _ _ => true | _ => false end.

Definition is_failed (e : Event) : bool :=
  match e with Failed _ => true | _ => false end.

Definition is_done (e : Event) : bool :=
  match e with Done _ => true | _ => false end.

(** The invariant of a crawl. *)
Record invariant (s : Crawl) : Prop := {
  inv_fetches : NoDup (fetches s);
  inv_visited : ∀ u, u ∈ fetches s ↔ u ∈ visitedSitemaps s;
  inv_emitted : NoDup (emitted (sent s));
  inv_seen : ∀ u, u ∈ emitted (sent s) ↔ u ∈ seenUrls s;
  inv_total : total s = length (emitted (sent s));
  inv_running : ∀ u depth, pc s = Fetching u depth →
      Forall (λ e, is_batch e = true) (sent s) ∧ ended s = false;
  inv_done : ∀ t, Done t ∈ sent s →
      t = length (emitted (sent s)) ∧ queue s = [] ∧ pc s = Returned
}.

End Sitemap.

(* ===================================================================== *)
(** ** Sample inputs *)
(* ===================================================================== *)

(** Outcomes of a fetch: an HTML page, a PDF, a timeout and a refused
    connection. *)
Definition html_page : CheckIO :=
  {| t_start := 1000; t_end := 1042;
     fetched := FetchReturns
       {| res_status := 200; res_ok := true;
          content_type := Some "text/html; charset=utf-8";
          res_body := BodyText
            {| title_text := " Example Domain "; meta_description := None;
               og_description := None; canonical_href := None;
               h1_texts := ["Example Domain"] |} |} |}.

Definition pdf_file : CheckIO :=
  {| t_start := 2000; t_end := 2300;
     fetched := FetchReturns
       {| res_status := 200; res_ok := true;
          content_type := Some "application/pdf";
          res_body := BodyThrows {| Js.name := "Error"; Js.message := "unused" |} |} |}.

Definition timed_out : CheckIO :=
  {| t_start := 3000; t_end := 18000;
     fetched := FetchThrows {| Js.name := "AbortError"; Js.message := "timeout" |} |}.

Definition refused : CheckIO :=
  {| t_start := 4000; t_end := 4005;
     fetched := FetchThrows {| Js.name := "TypeError"; Js.message := "fetch failed" |} |}.

(** A job on two URLs with two workers. *)
Definition two_urls : Cell :=
  new_cell "job-1" [URL "example.com"; URL "https://b.org/doc.pdf"] 2.

(** The body [{"urls": ["example.com", {"toString": 1}], "concurrency": 2}]. *)
Definition bad_item : Cell :=
  new_cell "job-2" [URL "example.com"; NoPrimitive] 2.

(** A toy [URL] constructor: it accepts what starts with a scheme that it
    knows, and throws on the rest. *)
Definition toy_URL (s : string) : option Sitemap.Url :=
  if Js.startsWith "https://" s then
    Some {| Sitemap.protocol := "https:"; Sitemap.href := s |}
  else if Js.startsWith "http://" s then
    Some {| Sitemap.protocol := "http:"; Sitemap.href := s |}
  else if Js.startsWith "ftp://" s then
    Some {| Sitemap.protocol := "ftp:"; Sitemap.href := s |}
  else None.

(** A sitemap document served with status 200. *)
Definition served (pages sitemaps : list string) : Sitemap.Op :=
  Sitemap.Respond
    (Sitemap.Response true 200
       (Sitemap.Xml {| Sitemap.url_locs := pages; Sitemap.sitemap_locs := sitemaps |})).

(* ===================================================================== *)
(** ** run and [/api/check] *)
(* ===================================================================== *)

Module Batch.

(** What [/api/check] answers. A slot of [results] that was never written
    is a hole of the array. *)
Inductive Reply :=
  | Bad_request (error : string)                       (* status 400 *)
  | Results (results : list (option CheckResult))      (* [res.json({ results })] *)
  | Server_error (error : string).                     (* status 500 *)

(** The closure of one call of [run], with the workers and the first
    rejection among them as for [runStreaming], and the answer of the
    handler that awaits it. *)
Record Run := {
  urls : list UrlItem;
  i : nat;
  results : list (option CheckResult);
  workers : list Worker;
  rejection : option Js.Error;
  reply : option Reply
}.

(** The call [run(urls, concurrency)], before any worker has run. *)
Definition start (us : list UrlItem) (concurrency : Z) : Run :=
  {| urls := us; i := 0; results := replicate (length us) None;
     workers := replicate (worker_count concurrency (length us)) Looping;
     rejection := None; reply := None |}.


Inductive Op :=
  | Resume (w : nat)                  (* worker [w] runs from the loop head *)
  | Checked (w : nat) (io : CheckIO)  (* [await checkUrl(url)] of worker [w] completes *)
  | Settle.                           (* [await run(...)] of the handler completes *)

(** Lines 169 to 174, up to the suspension. *)
Definition resume (w : nat) (r : Run) : option Run :=
  match workers r !! w with
  | Some Looping =>
      let idx := i r in
      match urls r !! idx with
      | None =>
          Some {| urls := urls r; i := S (i r); results := results r;
                  workers := <[w := Returned]> (workers r);
                  rejection := rejection r; reply := reply r |}
      | Some (URL s) =>
          Some {| urls := urls r; i := S (i r); results := results r;
                  workers := <[w := Awaiting idx (normalize s)]> (workers r);
                  rejection := rejection r; reply := reply r |}
      | Some NoPrimitive =>
          Some {| urls := urls r; i := S (i r); results := results r;
                  workers := <[w := Rejected no_primitive]> (workers r);
                  rejection := Some (default no_primitive (rejection r));
                  reply := reply r |}
      end
  | _ => None
  end.

(** Line 174: [results[idx] = await checkUrl(url)], then the loop head. An
    assignment past the end would extend the array. *)
Definition checked (w : nat) (io : CheckIO) (r : Run) : option Run :=
  match workers r !! w with
  | Some (Awaiting idx u) =>
      Some {| urls := urls r; i := i r;
              results :=
                if bool_decide (idx < length (results r))
                then <[idx := Some (checkUrl u io)]> (results r)
                else results r ++ replicate (idx - length (results r)) None
                       ++ [Some (checkUrl u io)];
              workers := <[w := Looping]> (workers r);
              rejection := rejection r; reply := reply r |}
  | _ => None
  end.

(** Lines 261 to 264: the answer, once [Promise.all] is settled. *)
Definition settle (r : Run) : option Run :=
  match reply r with
  | Some _ => None
  | None =>
      match rejection r with
      | Some e =>
          Some {| urls := urls r; i := i r; results := results r;
                  workers := workers r; rejection := rejection r;
                  reply := Some (Server_error (Js.message e)) |}
      | None =>
          if forallb (λ st, match st with Returned => true | _ => false end) (workers r)
          then Some {| urls := urls r; i := i r; results := results r;
                       workers := workers r; rejection := rejection r;
                       reply := Some (Results (results r)) |}
          else None
      end
  end.

Definition step (o : Op) (r : Run) : option Run :=
  match o with
  | Resume w => resume w r
  | Checked w io => checked w io r
  | Settle => settle r
  end.


(** The invariant of a call of [run]. *)
Record invariant (r : Run) : Prop := {
  inv_results : length (results r) = length (urls r);
  inv_workers : 0 < length (workers r);
  inv_awaiting : ∀ w idx u, workers r !! w = Some (Awaiting idx u) →
      idx < i r ∧ results r !! idx = Some None
      ∧ ∃ s, urls r !! idx = Some (URL s) ∧ u = normalize s;
  inv_distinct : ∀ w1 w2 idx u1 u2,
      workers r !! w1 = Some (Awaiting idx u1) →
      workers r !! w2 = Some (Awaiting idx u2) → w1 = w2;
  inv_ahead : ∀ idx, i r ≤ idx → idx < length (urls r) → results r !! idx = Some None;
  inv_positional : ∀ idx x, results r !! idx = Some (Some x) →
      ∃ s io, urls r !! idx = Some (URL s) ∧ x = checkUrl (normalize s) io;
  inv_claimed : rejection r = None → ∀ idx, idx < i r → idx < length (urls r) →
      (∃ x, results r !! idx = Some (Some x))
      ∨ ∃ w u, workers r !! w = Some (Awaiting idx u);
  inv_returned : ∀ w, workers r !! w = Some Returned → length (urls r) ≤ i r;
  inv_rejected : ∀ w e, workers r !! w = Some (Rejected e) → is_Some (rejection r);
  inv_rejection : ∀ e, rejection r = Some e → e = no_primitive ∧ NoPrimitive ∈ urls r;
  inv_reply : ∀ rp, reply r = Some rp →
      match rp with
      | Results rs =>
          rs = results r ∧ rejection r = None
          ∧ ∀ w st, workers r !! w = Some st → st = Returned
      | Server_error msg => msg = Js.message no_primitive ∧ NoPrimitive ∈ urls r
      | Bad_request _ => False
      end
}.

End Batch.

(* ===================================================================== *)
(** ** Further notions about jobs *)
(* ===================================================================== *)

(** The [processed] payloads of the [progress] events of a log, in order. *)
Definition progress_numbers (l : list Event) : list nat :=
  omap (λ e, match e with Progress _ _ p _ => Some p | _ => None end) l.

(** The [index] payloads of the [progress] events of a log, in order. *)
Definition progress_indexes (l : list Event) : list nat :=
  omap (λ e, match e with Progress idx _ _ _ => Some idx | _ => None end) l.

(** The log and the slots tell the same story. *)
Record log_matches_slots (c : Cell) : Prop := {
  lm_numbers : progress_numbers (events (job c)) = seq 1 (processed (job c));
  lm_logged : ∀ idx r p t, Progress idx r p t ∈ events (job c) →
      t = total (job c) ∧ results (job c) !! idx = Some (Some r);
  lm_stored : ∀ idx r, results (job c) !! idx = Some (Some r) →
      ∃ p, Progress idx r p (total (job c)) ∈ events (job c);
  lm_indexes : NoDup (progress_indexes (events (job c)))
}.

(** Every connection has received a prefix of the log. *)
Definition conns_follow_log (c : Cell) : Prop :=
  ∀ k cn, conns c !! k = Some cn → heard cn `prefix_of` events (job c).


(** The operations of the pool, as opposed to those of the requests and
    timers. *)
Definition pool_op (o : Op) : bool :=
  match o with Resume _ | Checked _ _ | Settle => true | _ => false end.

(** What a worker may still cost: a worker at its loop head runs once more,
    a suspended worker completes and then runs once more. *)
Definition weight (st : Worker) : nat :=
  match st with Looping => 1 | Awaiting _ _ => 2 | _ => 0 end.

(** A bound on the pool operations that a cell can still perform: two for
    every index not yet claimed, the weights of the workers, and one for the
    reaction on the promise. *)
Definition effort (c : Cell) : nat :=
  2 * (length (urls (pool c)) - i (pool c))
  + sum_list (weight <$> workers (pool c))
  + (if settled (pool c) then 0 else 1).

(** The pool and the flags agree: a rejected worker left its reason, a
    settled pool made the job terminal, and the cleanup timer is set exactly
    on terminal jobs. *)
Record pool_settles (c : Cell) : Prop := {
  ps_rejection : ∀ w e, workers (pool c) !! w = Some (Rejected e) →
      is_Some (rejection (pool c));
  ps_settled : settled (pool c) = true → done (job c) = true;
  ps_timer : cleanupTimer (job c) = Unset ↔ done (job c) = false
}.

(* ===================================================================== *)
(** ** Further notions about the sitemap crawl *)
(* ===================================================================== *)


(** Every batch has between one and [chunkSize] URLs and carries the
    number of page URLs sent so far, its own included. *)
Definition batches_counted (l : list Sitemap.Event) : Prop :=
  ∀ k b t, l !! k = Some (Sitemap.Batch b t) →
    1 ≤ length b ∧ length b ≤ Sitemap.chunkSize
    ∧ t = length (Sitemap.emitted (take (S k) l)).

(** The stream is made of batches, followed by one [done] or [failed] when
    the response is ended; and a handler that returned without ending the
    response has a closed request. *)
Record stream_shape (s : Sitemap.Crawl) : Prop := {
  ss_open : Sitemap.ended s = false →
      Forall (λ e, Sitemap.is_batch e = true) (Sitemap.sent s);
  ss_ended : Sitemap.ended s = true →
      Sitemap.pc s = Sitemap.Returned
      ∧ ∃ l e, Sitemap.sent s = l ++ [e]
          ∧ Forall (λ e, Sitemap.is_batch e = true) l
          ∧ (Sitemap.is_done e = true ∨ Sitemap.is_failed e = true);
  ss_silent : Sitemap.pc s = Sitemap.Returned → Sitemap.ended s = false →
      Sitemap.closed s = true
}.

Definition is_respond (o : Sitemap.Op) : bool :=
  match o with Sitemap.Respond _ => true | Sitemap.Disconnect => false end.

(* ===================================================================== *)
(** ** check-h1.js: the reports and the URL file of the command line *)
(* ===================================================================== *)

Module Cli.

Definition quote : ascii := ascii_of_nat 34.
Definition comma : ascii := ","%char.
Definition newline : ascii := ascii_of_nat 10.

(** [s.replace(/c/g, rep)] for a pattern of one character. *)
Fixpoint replace_all (c : ascii) (rep : string) (s : string) : string :=
  match s with
  | EmptyString => EmptyString
  | String d r =>
      (if Ascii.eqb d c then rep else String d EmptyString) +:+ replace_all c rep r
  end.

(** [list.join(sep)] on an array of strings. *)
Fixpoint join (sep : string) (l : list string) : string :=
  match l with
  | [] => ""
  | x :: r =>
      match r with
      | [] => x
      | _ :: _ => x +:+ sep +:+ join sep r
      end
  end.

(** The values that reach [csvEscape]. *)
Inductive Value :=
  | Null
  | Str (s : string)
  | Num (n : nat)
  | Bool (b : bool).

(** [String(v)]. *)
Definition to_String (v : Value) : string :=
  match v with
  | Null => "null"
  | Str s => s
  | Num n => pretty n
  | Bool true => "true"
  | Bool false => "false"
  end.

Definition csvEscape (v : Value) : string :=
  match v with
  | Null => ""
  | _ =>
      let s := to_String v in
      if Js.includes (String comma "") s || Js.includes (String newline "") s
         || Js.includes (String quote "") s
      then String quote "" +:+ replace_all quote (String quote (String quote "")) s
             +:+ String quote ""
      else s
  end.

(** The object [out] of the command line's [checkUrl]. *)
Record Out := {
  url : string;
  status : option nat;
  ok : bool;
  hasH1 : bool;
  h1 : option string;
  error : option string
}.

Definition header : list string := ["url"; "status"; "ok"; "hasH1"; "h1"; "error"].

(** The array [row] of [writeCsvReportFiltered]: [r.status || ''] is the
    empty string for [null] and for [0]. *)
Definition row (r : Out) : list Value :=
  [ Str (url r);
    match status r with
    | Some (S n) => Num (S n)
    | _ => Str ""
    end;
    Bool (ok r);
    Bool (hasH1 r);
    Str (default "" (h1 r));
    Str (default "" (error r)) ].

(** The results that pass [filterFn]; without one, all of them. *)
Definition kept (filterFn : option (Out → bool)) (results : list Out) : list Out :=
  match filterFn with
  | Some f => List.filter f results
  | None => results
  end.

(** The text that [writeCsvReportFiltered] writes to [outPath]. *)
Definition writeCsvReportFiltered (results : list Out) (filterFn : option (Out → bool))
  : string :=
  join (String newline "")
       (join "," header
          :: map (λ r, join "," (map csvEscape (row r))) (kept filterFn results)).

(** The filter of the export of failures: [r => !!(r.error || !r.hasH1)]. *)
Definition failed (r : Out) : bool :=
  match Js.truthy (error r) with
  | Some _ => true
  | None => negb (hasH1 r)
  end.

Definition escapeHtml (s : string) : string :=
  replace_all ">" "&gt;" (replace_all "<" "&lt;" (replace_all "&" "&amp;" s)).




(** A reader of comma-separated values, by which the report is shown to
    be unambiguous: a field in quotes ends at a quote that is not doubled. *)
Inductive Mode := Plain | Quoted | Closing.

Definition snoc (f : string) (c : ascii) : string := f +:+ String c "".

Fixpoint read (m : Mode) (f : string) (r : list string) (s : string)
  : list (list string) :=
  match s with
  | EmptyString => [r ++ [f]]
  | String c s' =>
      match m with
      | Quoted =>
          if Ascii.eqb c quote then read Closing f r s' else read Quoted (snoc f c) r s'
      | _ =>
          if Ascii.eqb c comma then read Plain "" (r ++ [f]) s'
          else if Ascii.eqb c newline then (r ++ [f]) :: read Plain "" [] s'
          else if Ascii.eqb c quote
               then read Quoted (match m with Closing => snoc f c | _ => f end) r s'
               else read Plain (snoc f c) r s'
      end
  end.

(** How [read] goes on at the end of a line or of the text. *)
Definition close (cells : list string) (s : string) : list (list string) :=
  match s with
  | EmptyString => [cells]
  | String _ s' => cells :: read Plain "" [] s'
  end.

(** The character of [escapeHtml] for each character of its argument. *)
Definition entity (c : ascii) : string :=
  if Ascii.eqb c "&" then "&amp;"
  else if Ascii.eqb c "<" then "&lt;"
  else if Ascii.eqb c ">" then "&gt;"
  else String c "".

(** The cells of a row as text. *)
Definition cells (r : Out) : list string := map to_String (row r).

End Cli.

(* ===================================================================== *)
(** * Proofs *)
(* ===================================================================== *)

(** ** Invariants of a cell are kept by every step *)

Lemma terminals_app l e :
  terminals (l ++ [e]) = terminals l + (if terminal e then 1 else 0).
Proof.
  unfold terminals. rewrite filter_app, length_app. f_equal.
  destruct (terminal e) eqn:E.
  - rewrite filter_cons_True by done. done.
  - rewrite filter_cons_False by (rewrite E; done). done.
Qed.

Lemma progresses_app l e :
  progresses (l ++ [e]) = progresses l + (if is_progress e then 1 else 0).
Proof.
  unfold progresses. rewrite filter_app, length_app. f_equal.
  destruct (is_progress e) eqn:E.
  - rewrite filter_cons_True by done. done.
  - rewrite filter_cons_False by (rewrite E; done). done.
Qed.

Lemma heard_sendSse f cn :
  ended cn = false →
  heard (sendSse f cn) = heard cn ++ match f with Sent e => [e] | Ping => [] end.
Proof.
  intros E. unfold sendSse, heard. rewrite E. simpl.
  rewrite omap_app. by destruct f.
Qed.

Lemma fan_out_lookup e cl cs k :
  fan_out e cl cs !! k =
  (λ c, if bool_decide (k ∈ cl)
        then (if terminal e then end_response (sendSse (Sent e) c) else sendSse (Sent e) c)
        else c) <$> cs !! k.
Proof. unfold fan_out. by rewrite list_lookup_imap. Qed.

Lemma fan_out_length e cl cs : length (fan_out e cl cs) = length cs.
Proof. unfold fan_out. by rewrite length_imap. Qed.

Lemma lifecycle_new uuid us concurrency :
  lifecycle (job (new_cell uuid us concurrency), conns (new_cell uuid us concurrency)).
Proof.
  split; cbn; try done.
  exists []. split_and!; by try constructor.
Qed.

Lemma push_clients (j : Job) cs e :
  (∀ k, k ∈ clients j → ∃ cn, cs !! k = Some cn ∧ ended cn = false ∧ heard cn = events j) →
  ∀ k, k ∈ clients (pushJobEvent e (j, cs)).1 →
    ∃ cn, (pushJobEvent e (j, cs)).2 !! k = Some cn ∧ ended cn = false
          ∧ heard cn = events (pushJobEvent e (j, cs)).1.
Proof.
  intros H k. unfold pushJobEvent. cbn.
  destruct (terminal e) eqn:E; cbn; [set_solver|].
  intros Hk. destruct (H k Hk) as (cn & Hcn & He & Hh).
  rewrite fan_out_lookup, Hcn. cbn. rewrite bool_decide_eq_true_2, E by done.
  eexists; split; [done|]. split.
  - unfold sendSse. by rewrite He.
  - rewrite heard_sendSse by done. by rewrite Hh.
Qed.

Lemma lifecycle_onResult idx r jc :
  lifecycle jc → lifecycle (onResult idx r jc).
Proof.
  intros I. unfold onResult.
  destruct (cancelled jc.1) eqn:Ec; [done|].
  destruct I as [I1 I2 I3 I4 I5]. destruct jc as [j cs]. split.
  - cbn in *. done.
  - cbn in *. rewrite terminals_app. cbn. lia.
  - cbn in *. done.
  - cbn in *. destruct I4 as (tl & -> & Hs & Hp).
    eexists. split; [done|]. split.
    + apply Forall_app. split; [done|]. by repeat constructor.
    + rewrite progresses_app, Hp. cbn. lia.
  - apply push_clients. cbn in *. done.
Qed.

Lemma lifecycle_terminal e j cs (b : bool) :
  terminal e = true → is_start e = false → is_progress e = false →
  done j = false →
  lifecycle (j, cs) →
  let j' := if b then set_cancelled j else j in
  lifecycle (cleanupJob (pushJobEvent e (set_done j', cs)).1,
             (pushJobEvent e (set_done j', cs)).2).
Proof.
  intros Ht Hs Hp Hd [I1 I2 I3 I4 I5]. cbn in *. rewrite Hd in I2.
  split; destruct b; cbn; rewrite ?Ht; cbn; try done.
  1,2: rewrite terminals_app, Ht; lia.
  1,2: destruct I4 as (tl & -> & Hs' & Hp');
    (eexists; split; [done|]; split;
     [ apply Forall_app; split; [done|]; by repeat constructor
     | rewrite progresses_app, Hp', Hp; cbn; lia ]).
  all: set_solver.
Qed.

Lemma lifecycle_on_fulfilled jc : lifecycle jc → lifecycle (on_fulfilled jc).
Proof.
  intros I. unfold on_fulfilled. destruct jc as [j cs]. cbn.
  destruct (done j) eqn:Ed; [done|].
  destruct (cancelled j) eqn:Ec.
  - by apply (lifecycle_terminal (Failed "cancelled") j cs false).
  - by apply (lifecycle_terminal (Done _ _) j cs false).
Qed.

Lemma lifecycle_on_rejected e jc : lifecycle jc → lifecycle (on_rejected e jc).
Proof.
  intros I. unfold on_rejected. destruct jc as [j cs]. cbn.
  destruct (done j) eqn:Ed; [done|].
  by apply (lifecycle_terminal (Failed _) j cs false).
Qed.

Lemma lifecycle_cancel c :
  lifecycle (job c, conns c) → lifecycle (job (cancel c), conns (cancel c)).
Proof.
  intros I. unfold cancel. cbn. destruct (done (job c)) eqn:Ed; cbn.
  - destruct I as [I1 I2 I3 I4 I5]. split; cbn in *; rewrite ?Ed in *; done.
  - by apply (lifecycle_terminal (Failed "cancelled") (job c) (conns c) true).
Qed.

Lemma heard_replay (l : list Event) : omap (λ f, match f with Sent e => Some e | Ping => None end) (Sent <$> l) = l.
Proof. induction l; cbn; by f_equal. Qed.

Lemma lifecycle_attach c :
  lifecycle (job c, conns c) → lifecycle (job (attach c), conns (attach c)).
Proof.
  intros [I1 I2 I3 I4 I5]. unfold attach. cbn in *.
  destruct (done (job c)) eqn:Ed; split; cbn; rewrite ?Ed; try done.
  - intros k Hk. destruct (I5 k Hk) as (cn & Hcn & ?).
    exists cn. split; [|done]. by apply lookup_app_l_Some.
  - intros k [Hk| ->%elem_of_singleton]%elem_of_union.
    + destruct (I5 k Hk) as (cn & Hcn & ?).
      exists cn. split; [|done]. by apply lookup_app_l_Some.
    + eexists. split; [apply list_lookup_middle; done|]. split; [done|].
      unfold heard. cbn. apply heard_replay.
Qed.

Lemma lifecycle_close k c c' :
  close k c = Some c' →
  lifecycle (job c, conns c) → lifecycle (job c', conns c').
Proof.
  intros H [I1 I2 I3 I4 I5]. step_inv H. split; cbn in *; try done.
  - intros Hd. rewrite (I3 Hd). clear. set_solver.
  - intros k' [Hk Hne]%elem_of_difference.
    destruct (I5 k' Hk) as (cn & Hcn & ?). exists cn. split; [|done].
    rewrite list_lookup_insert_ne; [done|]. set_solver.
Qed.

Lemma lifecycle_beat k c c' :
  beat k c = Some c' →
  lifecycle (job c, conns c) → lifecycle (job c', conns c').
Proof.
  intros H [I1 I2 I3 I4 I5]. step_inv H. split; cbn in *; try done.
  intros k' Hk. destruct (I5 k' Hk) as (cn & Hcn & He & Hh).
  destruct (decide (k' = k)) as [->|Hne].
  - rewrite list_lookup_insert_eq by (by eapply lookup_lt_Some).
    eexists. split; [done|]. simplify_eq. split.
    + unfold sendSse. by rewrite He.
    + rewrite heard_sendSse by done. cbn. by rewrite app_nil_r.
  - exists cn. by rewrite list_lookup_insert_ne.
Qed.

Lemma lifecycle_step o c c' :
  step o c = Some c' →
  lifecycle (job c, conns c) → lifecycle (job c', conns c').
Proof.
  intros H I. destruct o.
  - step_inv H; done.
  - step_inv H; cbn; [done|]. rewrite <- surjective_pairing. by apply lifecycle_onResult.
  - step_inv H; cbn; rewrite <- surjective_pairing.
    + by apply lifecycle_on_rejected.
    + by apply lifecycle_on_fulfilled.
  - cbn in H. simplify_eq. by apply lifecycle_attach.
  - cbn in H. simplify_eq. by apply lifecycle_cancel.
  - by eapply lifecycle_close.
  - by eapply lifecycle_beat.
  - step_inv H. by destruct I.
Qed.

Lemma lifecycle_run ops c c' :
  run ops c = Some c' →
  lifecycle (job c, conns c) → lifecycle (job c', conns c').
Proof.
  revert c. induction ops as [|o ops IH]; intros c H I; cbn in H.
  - by simplify_eq.
  - destruct (step o c) as [c1|] eqn:E; [|done].
    eapply IH; [done|]. by eapply lifecycle_step.
Qed.

Lemma lifecycle_reachable c : reachable c → lifecycle (job c, conns c).
Proof.
  intros (uuid & us & n & ops & H).
  eapply lifecycle_run; [done|]. apply lifecycle_new.
Qed.

(** *** Result slots *)

Lemma checkUrl_url u io : url (checkUrl u io) = u.
Proof.
  unfold checkUrl. destruct (fetched io) as [e|res]; cbn; [done|].
  destruct (negb _); cbn; [done|]. by destruct (res_body res).
Qed.

Lemma filled_insert {A} (l : list (option A)) idx r :
  l !! idx = Some None → filled (<[idx := Some r]> l) = S (filled l).
Proof.
  revert idx. induction l as [|[x|] l IH]; intros [|idx] H; cbn in *; simplify_eq;
    try done; by rewrite IH.
Qed.

Lemma filled_le {A} (l : list (option A)) : filled l ≤ length l.
Proof. induction l as [|[x|] l IH]; cbn; lia. Qed.

Lemma filled_full {A} (l : list (option A)) :
  (∀ idx, idx < length l → ∃ r, l !! idx = Some (Some r)) → filled l = length l.
Proof.
  induction l as [|[x|] l IH]; intros H; cbn; [done| |].
  - f_equal. apply IH. intros idx Hi. apply (H (S idx)). cbn. lia.
  - destruct (H 0) as [r Hr]; [cbn; lia|]. done.
Qed.

Lemma filled_replicate {A} n : filled (replicate n (@None A)) = 0.
Proof. induction n; cbn; done. Qed.

Lemma same_slots_on_fulfilled jc : same_slots jc.1 (on_fulfilled jc).1.
Proof.
  unfold on_fulfilled, pushJobEvent. destruct jc as [j cs]; cbn.
  destruct (done j); [done|]. by destruct (cancelled j).
Qed.

Lemma same_slots_on_rejected e jc : same_slots jc.1 (on_rejected e jc).1.
Proof.
  unfold on_rejected, pushJobEvent. destruct jc as [j cs]; cbn.
  by destruct (done j).
Qed.

Lemma same_slots_cancel c : same_slots (job c) (job (cancel c)).
Proof. unfold cancel, pushJobEvent. cbn. by destruct (done (job c)). Qed.

Lemma same_slots_attach c : same_slots (job c) (job (attach c)).
Proof. unfold attach. by destruct (done (job c)). Qed.

Lemma slots_new uuid us concurrency : slots (new_cell uuid us concurrency).
Proof.
  split; cbn.
  - by rewrite length_replicate.
  - done.
  - by rewrite filled_replicate.
  - intros w idx u H. apply lookup_replicate in H as [? _]. done.
  - intros w1 w2 idx u1 u2 H. apply lookup_replicate in H as [? _]. done.
  - intros idx _ H. by apply lookup_replicate_2.
  - intros idx r H. apply lookup_replicate in H as [? _]. done.
Qed.

(** A step that leaves the slots, the cursor and the workers alone. *)
Lemma slots_frame c c' :
  same_slots (job c) (job c') →
  urls (pool c') = urls (pool c) → i (pool c') = i (pool c) →
  workers (pool c') = workers (pool c) →
  slots c → slots c'.
Proof.
  intros (Hr & Hp & Ht) Hu Hi Hw [S1 S2 S3 S4 S5 S6 S7].
  split; rewrite ?Hr, ?Hp, ?Ht, ?Hu, ?Hi, ?Hw; done.
Qed.

(** A worker leaves the set of awaiting workers. *)
Lemma slots_retire c c' w st :
  (∀ idx u, st ≠ Awaiting idx u) →
  job c' = job c → urls (pool c') = urls (pool c) → i (pool c') = i (pool c) →
  workers (pool c') = <[w := st]> (workers (pool c)) →
  slots c → slots c'.
Proof.
  intros Hst Hj Hu Hi Hw [S1 S2 S3 S4 S5 S6 S7].
  split; rewrite ?Hj, ?Hu, ?Hi, ?Hw; try done.
  - intros w' idx u [(-> & ? & _)|[_ H]]%list_lookup_insert_Some; [by destruct (Hst idx u)|].
    by eapply S4.
  - intros w1 w2 idx u1 u2 [(-> & ? & _)|[_ H1]]%list_lookup_insert_Some;
      [by destruct (Hst idx u1)|].
    intros [(-> & ? & _)|[_ H2]]%list_lookup_insert_Some; [by destruct (Hst idx u2)|].
    by eapply S5.
Qed.

Lemma slots_bump c :
  slots c →
  slots {| job := job c; pool := bump (pool c); conns := conns c |}.
Proof.
  intros [S1 S2 S3 S4 S5 S6 S7]. split; cbn; try done.
  - intros w idx u H. destruct (S4 w idx u H) as (? & ? & ?). split; [lia|done].
  - intros idx H1 H2. apply S6; lia.
Qed.

Lemma slots_resume w c c' : resume w c = Some c' → slots c → slots c'.
Proof.
  intros H I. step_inv H.
  - by eapply (slots_retire c _ w Returned).
  - match goal with H : urls _ !! _ = Some _ |- _ => cbn in H; rename H into Hu end.
    pose proof I as [S1 S2 S3 S4 S5 S6 S7].
    assert (i (pool c) < total (job c)) as Hlt.
    { rewrite <- S2. by eapply lookup_lt_Some. }
    split; cbn; try done.
    + intros w' idx u [(-> & ? & _)|[_ H]]%list_lookup_insert_Some.
      * simplify_eq. split; [lia|]. split; [by apply S6|]. by exists s.
      * destruct (S4 w' idx u H) as (? & ? & ?). split; [lia|done].
    + intros w1 w2 idx u1 u2 [(-> & ? & _)|[? H1]]%list_lookup_insert_Some
                             [(-> & ? & _)|[? H2]]%list_lookup_insert_Some;
        simplify_eq; try done.
      * destruct (S4 _ _ _ H2). lia.
      * destruct (S4 _ _ _ H1). lia.
      * by eapply S5.
    + intros idx H1 H2. apply S6; lia.
  - eapply (slots_retire {| job := job c; pool := bump (pool c); conns := conns c |}
              _ w (Rejected no_primitive)); [done..|].
    by apply slots_bump.
  - eapply (slots_retire {| job := job c; pool := bump (pool c); conns := conns c |}
              _ w Returned); [done..|].
    by apply slots_bump.
Qed.

Lemma slots_checked w io c c' : checked w io c = Some c' → slots c → slots c'.
Proof.
  intros H I. step_inv H.
  - by eapply (slots_retire c _ w Returned).
  - match goal with H : workers _ !! _ = Some _ |- _ => rename H into Hw end.
    match goal with H : cancelled _ = false |- _ => rename H into Hc end.
    pose proof I as [S1 S2 S3 S4 S5 S6 S7].
    destruct (S4 _ _ _ Hw) as (Hi & Hr & s & Hs & ->).
    assert (idx < length (results (job c))) as Hlen by (by eapply lookup_lt_Some).
    unfold onResult. cbn. rewrite Hc. cbn.
    split; cbn; rewrite ?bool_decide_eq_true_2 by done.
    + by rewrite length_insert.
    + done.
    + rewrite filled_insert by done. by rewrite S3.
    + intros w' idx' u [(-> & ? & _)|[Hne H]]%list_lookup_insert_Some; [done|].
      destruct (S4 w' idx' u H) as (? & ? & ?). split; [done|]. split; [|done].
      rewrite list_lookup_insert_ne; [done|].
      intros ->. apply Hne. by eapply S5.
    + intros w1 w2 idx' u1 u2 [(-> & ? & _)|[_ H1]]%list_lookup_insert_Some; [done|].
      intros [(-> & ? & _)|[_ H2]]%list_lookup_insert_Some; [done|].
      by eapply S5.
    + intros idx' H1 H2. rewrite list_lookup_insert_ne by lia. by apply S6.
    + intros idx' r. destruct (decide (idx' = idx)) as [->|Hne].
      * rewrite list_lookup_insert_eq by done. intros [= <-].
        exists s. by rewrite checkUrl_url.
      * rewrite list_lookup_insert_ne by done. apply S7.
Qed.

Lemma slots_step o c c' : step o c = Some c' → slots c → slots c'.
Proof.
  intros H I. destruct o; cbn in H.
  - by eapply slots_resume.
  - by eapply slots_checked.
  - step_inv H; (eapply slots_frame; [| | | |done]); cbn; try done.
    + apply (same_slots_on_rejected _ (job c, conns c)).
    + apply (same_slots_on_fulfilled (job c, conns c)).
  - simplify_eq. eapply slots_frame; [apply same_slots_attach| | | |done];
      unfold attach; by destruct (done (job c)).
  - simplify_eq. eapply slots_frame; [apply same_slots_cancel| | | |done];
      unfold cancel; cbn; by destruct (done (job c)).
  - step_inv H. by eapply slots_frame; [| | | |done].
  - step_inv H. by eapply slots_frame; [| | | |done].
  - step_inv H. by eapply slots_frame; [| | | |done].
Qed.

(** *** Completion *)

Lemma all_returned_lookup p :
  all_returned p = true ↔ ∀ w st, workers p !! w = Some st → st = Returned.
Proof.
  unfold all_returned. rewrite forallb_forall. split.
  - intros H w st Hw. apply list_elem_of_lookup_2, list_elem_of_In, H in Hw.
    by destruct st.
  - intros H st [w Hw]%list_elem_of_In%list_elem_of_lookup. by rewrite (H w st Hw).
Qed.

Lemma worker_count_pos concurrency n : 0 < worker_count concurrency n.
Proof. unfold worker_count. lia. Qed.

Lemma completion_new uuid us concurrency : completion (new_cell uuid us concurrency).
Proof.
  split; cbn; try done.
  - rewrite length_replicate. apply worker_count_pos.
  - lia.
  - intros _ w H. apply lookup_replicate in H as [? _]. done.
  - intros p t H. apply list_elem_of_singleton in H. done.
Qed.

(** A step that changes neither the slots, the flags, the log nor the
    workers. *)
Lemma completion_frame c c' :
  same_slots (job c) (job c') →
  cancelled (job c') = cancelled (job c) → done (job c') = done (job c) →
  events (job c') = events (job c) →
  workers (pool c') = workers (pool c) → i (pool c') = i (pool c) →
  rejection (pool c') = rejection (pool c) →
  completion c → completion c'.
Proof.
  intros (Hr & Hp & Ht) Hc Hd He Hw Hi Hj [C1 C2 C3 C4 C5].
  assert (all_returned (pool c') = all_returned (pool c)) as Ha
    by (unfold all_returned; by rewrite Hw).
  split; rewrite ?Ha, ?Hr, ?Hp, ?Ht, ?Hc, ?Hd, ?He, ?Hw, ?Hi, ?Hj; done.
Qed.

(** While a worker is inside the loop, the job has not emitted [done], and
    a terminal job without rejection is a cancelled one. *)
Lemma busy_not_done c w st :
  workers (pool c) !! w = Some st → st ≠ Returned →
  completion c →
  (∀ p t, Done p t ∉ events (job c))
  ∧ (done (job c) = true → rejection (pool c) = None → cancelled (job c) = true).
Proof.
  intros Hw Hst [C1 C2 C3 C4 C5]. split.
  - intros p t H. destruct (C4 p t H) as (Ha & _).
    rewrite all_returned_lookup in Ha. by apply Hst, (Ha w).
  - intros Hd Hr. destruct (C5 Hd Hr) as [[?|Ha] _]; [done|].
    rewrite all_returned_lookup in Ha. by destruct Hst; apply (Ha w).
Qed.

Lemma completion_resume w c c' :
  resume w c = Some c' → slots c → completion c → completion c'.
Proof.
  intros H S I. step_inv H.
  all: match goal with H : workers _ !! _ = Some Looping |- _ => rename H into Hw end.
  all: destruct (busy_not_done c w Looping Hw ltac:(done) I) as [Hnd Hq].
  all: pose proof I as [C1 C2 C3 C4 C5].
  all: pose proof S as [S1 S2 S3 S4 S5 S6 S7].
  - split; cbn; rewrite ?length_insert; try done; try congruence.
    + intros p t H. by destruct (Hnd p t).
    + intros Hd Hr. split; [by left|]. by apply C5.
  - match goal with H : urls _ !! _ = Some _ |- _ => cbn in H; rename H into Hu end.
    split; cbn; rewrite ?length_insert; try done.
    + intros Hc Hr idx Hi Ht. destruct (decide (idx = i (pool c))) as [->|Hne].
      * right. exists w, (normalize s). apply list_lookup_insert_eq.
        by eapply lookup_lt_Some.
      * destruct (C2 Hc Hr idx) as [?|(w' & u & Hw')]; [lia|done|by left|].
        right. exists w', u. rewrite list_lookup_insert_ne; [done|]. congruence.
    + intros Hc w' [(-> & ? & _)|[_ H]]%list_lookup_insert_Some; [done|].
      specialize (C3 Hc w' H). lia.
    + intros p t H. by destruct (Hnd p t).
    + intros Hd Hr. specialize (Hq Hd Hr). congruence.
  - split; cbn; rewrite ?length_insert; try done.
    + intros Hc w' [(-> & ? & _)|[_ H]]%list_lookup_insert_Some; [done|].
      specialize (C3 Hc w' H). lia.
    + intros p t H. by destruct (Hnd p t).
  - match goal with H : urls _ !! _ = None |- _ => cbn in H; rename H into Hu end.
    apply lookup_ge_None in Hu.
    split; cbn; rewrite ?length_insert; try done.
    + intros Hc Hr idx Hi Ht.
      destruct (C2 Hc Hr idx) as [?|(w' & u & Hw')]; [lia|done|by left|].
      right. exists w', u. rewrite list_lookup_insert_ne; [done|]. congruence.
    + intros Hc w' _. lia.
    + intros p t H. by destruct (Hnd p t).
    + intros Hd Hr. specialize (Hq Hd Hr). congruence.
Qed.

Lemma completion_checked w io c c' :
  checked w io c = Some c' → slots c → completion c → completion c'.
Proof.
  intros H S I. step_inv H.
  all: match goal with H : workers _ !! _ = Some (Awaiting _ _) |- _ => rename H into Hw end.
  all: destruct (busy_not_done c w _ Hw ltac:(done) I) as [Hnd Hq].
  all: pose proof I as [C1 C2 C3 C4 C5].
  all: pose proof S as [S1 S2 S3 S4 S5 S6 S7].
  - split; cbn; rewrite ?length_insert; try done; try congruence.
    + intros p t H. by destruct (Hnd p t).
    + intros Hd Hr. split; [by left|]. by apply C5.
  - match goal with H : cancelled _ = false |- _ => rename H into Hc end.
    destruct (S4 _ _ _ Hw) as (Hi & Hr & s & Hs & ->).
    assert (idx < length (results (job c))) as Hlen by (by eapply lookup_lt_Some).
    unfold onResult. cbn. rewrite Hc. cbn.
    split; cbn; rewrite ?bool_decide_eq_true_2, ?length_insert by done; try done.
    + intros _ Hrj idx' Hi' Ht. destruct (decide (idx' = idx)) as [->|Hne].
      * left. eexists. by apply list_lookup_insert_eq.
      * rewrite list_lookup_insert_ne by done.
        destruct (C2 Hc Hrj idx') as [?|(w' & u & Hw')]; [done|done|by left|].
        right. exists w', u. rewrite list_lookup_insert_ne; [done|]. congruence.
    + intros _ w' [(-> & ? & _)|[_ H]]%list_lookup_insert_Some; [done|].
      by apply (C3 Hc w').
    + intros p t [H|H%list_elem_of_singleton]%elem_of_app; [|done].
      by destruct (Hnd p t).
    + intros Hd Hrj. specialize (Hq Hd Hrj). congruence.
Qed.

Lemma completion_settle c c' :
  settle_pool c = Some c' → slots c → completion c → completion c'.
Proof.
  intros H S I. step_inv H.
  all: pose proof I as [C1 C2 C3 C4 C5].
  all: pose proof S as [S1 S2 S3 S4 S5 S6 S7].
  - (* rejected *)
    match goal with H : rejection _ = Some _ |- _ => rename H into Hrj end.
    unfold on_rejected. cbn. destruct (done (job c)) eqn:Hd; cbn.
    + split; cbn; rewrite ?Hrj; done.
    + split; cbn; rewrite ?Hrj; try done.
      intros p t [H|H%list_elem_of_singleton]%elem_of_app; [|done]. by apply C4.
  - (* fulfilled *)
    match goal with H : all_returned _ = true |- _ => rename H into Ha end.
    match goal with H : rejection _ = None |- _ => rename H into Hrj end.
    unfold on_fulfilled. cbn. destruct (done (job c)) eqn:Hd; cbn.
    + split; cbn; try done. intros _ _. by apply C5.
    + destruct (cancelled (job c)) eqn:Hc; cbn.
      * split; cbn; rewrite ?Hc; try done.
        -- intros p t [H|H%list_elem_of_singleton]%elem_of_app; [|done]. by apply C4.
        -- intros _ _. split; [by left|]. by eexists _, _.
      * assert (∀ idx, idx < total (job c) →
                  ∃ r, results (job c) !! idx = Some (Some r)) as Hfull.
        { intros idx Hi.
          destruct (lookup_lt_is_Some_2 (workers (pool c)) 0 C1) as [st H0].
          pose proof Ha as Ha'. rewrite all_returned_lookup in Ha'.
          pose proof (Ha' 0 st H0) as ->.
          specialize (C3 eq_refl 0 H0).
          destruct (C2 eq_refl Hrj idx) as [?|(w & u & Hw)]; [lia|done|done|].
          by specialize (Ha' w _ Hw). }
        assert (processed (job c) = total (job c)) as Hp.
        { rewrite S3, <- S1. apply filled_full. by rewrite S1. }
        split; cbn; rewrite ?Hc; try done.
        -- intros p t [H|H%list_elem_of_singleton]%elem_of_app; [by apply C4|].
           by simplify_eq.
        -- intros _ _. split; [by right|]. by eexists _, _.
Qed.

Lemma completion_cancel c : completion c → completion (cancel c).
Proof.
  intros [C1 C2 C3 C4 C5]. unfold cancel. cbn.
  destruct (done (job c)) eqn:Hd; cbn.
  - split; cbn; try done. intros _ Hrj. split; [by left|]. by apply C5.
  - split; cbn; try done.
    + intros p t [H|H%list_elem_of_singleton]%elem_of_app; [|done]. by apply C4.
    + intros _ _. split; [by left|]. by eexists _, _.
Qed.

Lemma completion_step o c c' :
  step o c = Some c' → slots c → completion c → completion c'.
Proof.
  intros H S I. destruct o; cbn in H.
  - by eapply completion_resume.
  - by eapply completion_checked.
  - by eapply completion_settle.
  - simplify_eq. eapply (completion_frame c); [apply same_slots_attach|..|done];
      unfold attach; by destruct (done (job c)) eqn:E.
  - simplify_eq. by apply completion_cancel.
  - step_inv H. by eapply (completion_frame c).
  - step_inv H. by eapply (completion_frame c).
  - step_inv H. by eapply (completion_frame c).
Qed.

Lemma invariant_new uuid us concurrency : invariant (new_cell uuid us concurrency).
Proof.
  split; [apply lifecycle_new|apply slots_new|apply completion_new].
Qed.

Lemma invariant_step o c c' : step o c = Some c' → invariant c → invariant c'.
Proof.
  intros H [I1 I2 I3]. split.
  - by eapply lifecycle_step.
  - by eapply slots_step.
  - by eapply completion_step.
Qed.

Lemma invariant_run ops c c' : run ops c = Some c' → invariant c → invariant c'.
Proof.
  revert c. induction ops as [|o ops IH]; intros c H I; cbn in H.
  - by simplify_eq.
  - destruct (step o c) as [c1|] eqn:E; [|done].
    eapply IH; [done|]. by eapply invariant_step.
Qed.

Lemma invariant_reachable c : reachable c → invariant c.
Proof.
  intros (uuid & us & n & ops & H).
  eapply invariant_run; [done|]. apply invariant_new.
Qed.

Lemma run_app ops1 ops2 c :
  run (ops1 ++ ops2) c = run ops1 c ≫= run ops2.
Proof.
  revert c. induction ops1 as [|o ops1 IH]; intros c; cbn; [done|].
  destruct (step o c); cbn; [apply IH|done].
Qed.

Lemma reachable_run ops c c' : reachable c → run ops c = Some c' → reachable c'.
Proof.
  intros (uuid & us & n & ops0 & H) H'.
  exists uuid, us, n, (ops0 ++ ops). rewrite run_app, H. done.
Qed.

(** ** What a step may change *)

(** The list of URLs and the total never change. *)
Lemma step_constants o c c' :
  step o c = Some c' →
  urls (pool c') = urls (pool c) ∧ total (job c') = total (job c)
  ∧ id (job c') = id (job c).
Proof.
  intros H. destruct o; step_inv H; cbn; try done.
  - unfold onResult. cbn. by destruct (cancelled (job c)).
  - unfold on_rejected. cbn. by destruct (done (job c)).
  - unfold on_fulfilled. cbn. destruct (done (job c)); [done|].
    by destruct (cancelled (job c)).
  - unfold attach. by destruct (done (job c)).
  - unfold cancel. cbn. by destruct (done (job c)).
Qed.

Lemma run_constants ops c c' :
  run ops c = Some c' →
  urls (pool c') = urls (pool c) ∧ total (job c') = total (job c)
  ∧ id (job c') = id (job c).
Proof.
  revert c. induction ops as [|o ops IH]; intros c H; cbn in H.
  - by simplify_eq.
  - destruct (step o c) as [c1|] eqn:E; [|done].
    destruct (IH _ H) as (-> & -> & ->). by apply step_constants in E.
Qed.

(** A written slot is never written again, and [processed] never
    decreases. *)
Lemma same_slots_stable j j' :
  same_slots j j' →
  (∀ idx r, results j !! idx = Some (Some r) → results j' !! idx = Some (Some r))
  ∧ processed j ≤ processed j'.
Proof. intros (-> & -> & _). by split. Qed.

Lemma step_slots_stable o c c' :
  step o c = Some c' → slots c →
  (∀ idx r, results (job c) !! idx = Some (Some r) →
            results (job c') !! idx = Some (Some r))
  ∧ processed (job c) ≤ processed (job c').
Proof.
  intros H S. destruct o; cbn in H.
  - by step_inv H.
  - step_inv H; [done|].
    match goal with H : workers _ !! _ = Some _ |- _ => rename H into Hw end.
    match goal with H : cancelled _ = false |- _ => rename H into Hc end.
    destruct (sl_awaiting c S _ _ _ Hw) as (_ & Hr & _).
    assert (idx < length (results (job c))) as Hlen by (by eapply lookup_lt_Some).
    unfold onResult. cbn. rewrite Hc. cbn.
    rewrite bool_decide_eq_true_2 by done. split; [|lia].
    intros idx' r Hr'. rewrite list_lookup_insert_ne; [done|]. congruence.
  - apply same_slots_stable. step_inv H; cbn.
    + apply (same_slots_on_rejected _ (job c, conns c)).
    + apply (same_slots_on_fulfilled (job c, conns c)).
  - simplify_eq. apply same_slots_stable, same_slots_attach.
  - simplify_eq. apply same_slots_stable, same_slots_cancel.
  - by step_inv H.
  - by step_inv H.
  - by step_inv H.
Qed.

Lemma run_slots_stable ops c c' :
  run ops c = Some c' → invariant c →
  (∀ idx r, results (job c) !! idx = Some (Some r) →
            results (job c') !! idx = Some (Some r))
  ∧ processed (job c) ≤ processed (job c').
Proof.
  revert c. induction ops as [|o ops IH]; intros c H I; cbn in H.
  - by simplify_eq.
  - destruct (step o c) as [c1|] eqn:E; [|done].
    destruct (step_slots_stable _ _ _ E (inv_slots _ I)) as [H1 H2].
    destruct (IH _ H (invariant_step _ _ _ E I)) as [H3 H4].
    split; [|lia]. intros idx r Hr. by apply H3, H1.
Qed.

(** Once the cancellation flag is set on a terminal job, no step changes
    the log, the slots or the counter. *)
Lemma step_frozen o c c' :
  step o c = Some c' →
  cancelled (job c) = true → done (job c) = true →
  cancelled (job c') = true ∧ done (job c') = true
  ∧ events (job c') = events (job c) ∧ results (job c') = results (job c)
  ∧ processed (job c') = processed (job c).
Proof.
  intros H Hc Hd. destruct o; step_inv H; cbn; try done; try congruence.
  - unfold on_rejected. cbn. by rewrite Hd.
  - unfold on_fulfilled. cbn. by rewrite Hd.
  - unfold attach. by rewrite Hd.
  - unfold cancel. cbn. by rewrite Hd.
Qed.

Lemma run_frozen ops c c' :
  run ops c = Some c' →
  cancelled (job c) = true → done (job c) = true →
  cancelled (job c') = true ∧ done (job c') = true
  ∧ events (job c') = events (job c) ∧ results (job c') = results (job c)
  ∧ processed (job c') = processed (job c).
Proof.
  revert c. induction ops as [|o ops IH]; intros c H Hc Hd; cbn in H.
  - by simplify_eq.
  - destruct (step o c) as [c1|] eqn:E; [|done].
    destruct (step_frozen _ _ _ E Hc Hd) as (Hc1 & Hd1 & <- & <- & <-).
    by apply IH.
Qed.

(** ** Replay and live delivery *)

Lemma terminals_cons e l :
  terminals (e :: l) = (if terminal e then 1 else 0) + terminals l.
Proof.
  unfold terminals. destruct (terminal e) eqn:E.
  - rewrite filter_cons_True by done. done.
  - rewrite filter_cons_False by (by rewrite E). done.
Qed.

Lemma upto_terminal_none l : terminals l = 0 → upto_terminal l = l.
Proof.
  induction l as [|e l IH]; [done|]. rewrite terminals_cons. cbn.
  destruct (terminal e); [done|]. intros H. by rewrite IH.
Qed.

Lemma upto_terminal_some l e :
  0 < terminals l → upto_terminal (l ++ [e]) = upto_terminal l.
Proof.
  induction l as [|x l IH]; [unfold terminals; cbn; lia|].
  rewrite terminals_cons. cbn.
  destruct (terminal x); [done|]. intros H. by rewrite IH.
Qed.

Lemma upto_terminal_snoc l e :
  terminals l = 0 → upto_terminal (l ++ [e]) = l ++ [e].
Proof.
  induction l as [|x l IH]; [cbn; by destruct (terminal e)|].
  rewrite terminals_cons. cbn.
  destruct (terminal x); [done|]. intros H. by rewrite IH.
Qed.

Lemma heard_end_response cn : heard (end_response cn) = heard cn.
Proof. done. Qed.

Lemma tuned_push k e j cs :
  tuned k (j, cs) → tuned k (pushJobEvent e (j, cs)).
Proof.
  intros (cn & Hcn & Hh & H). unfold tuned, pushJobEvent. cbn in *.
  rewrite fan_out_lookup, Hcn. cbn. eexists. split; [done|].
  assert (events (if terminal e then set_clients ∅ (set_events (events j ++ [e]) j)
                  else set_events (events j ++ [e]) j) = events j ++ [e]) as ->
    by (by destruct (terminal e)).
  assert (clients (if terminal e then set_clients ∅ (set_events (events j ++ [e]) j)
                   else set_events (events j ++ [e]) j)
          = if terminal e then ∅ else clients j) as ->
    by (by destruct (terminal e)).
  rewrite terminals_app.
  destruct H as [(Hk & He & Ht)|(Hk & He & Ht)].
  - rewrite bool_decide_eq_true_2 by done.
    rewrite upto_terminal_snoc by done.
    destruct (terminal e); cbn.
    + rewrite heard_end_response, heard_sendSse, Hh, upto_terminal_none by done.
      split; [done|]. right. split; [apply not_elem_of_empty|]. split; [done|lia].
    + rewrite heard_sendSse, Hh, upto_terminal_none by done. split; [done|].
      left. split; [done|]. split; [|lia]. unfold sendSse. by rewrite He.
  - rewrite bool_decide_eq_false_2 by done.
    rewrite upto_terminal_some by done. split; [done|]. right.
    split; [|split; [done|lia]].
    destruct (terminal e); [apply not_elem_of_empty|done].
Qed.

(** The parts of a job that [tuned] reads. *)
Lemma tuned_frame k j j' cs :
  events j' = events j → clients j' = clients j →
  tuned k (j, cs) → tuned k (j', cs).
Proof. intros He Hc. unfold tuned. cbn. by rewrite He, Hc. Qed.

Lemma tuned_step k o c c' :
  step o c = Some c' → o ≠ Close k →
  tuned k (job c, conns c) → tuned k (job c', conns c').
Proof.
  intros H Hne T. destruct o; cbn in H.
  - by step_inv H.
  - step_inv H; [done|]. cbn. unfold onResult. cbn.
    match goal with H : cancelled _ = false |- _ => rewrite H end.
    apply tuned_push. by eapply tuned_frame; [..|done].
  - step_inv H; cbn.
    + unfold on_rejected. cbn. destruct (done (job c)); [done|].
      eapply tuned_frame; [| |apply tuned_push]; [done|done|].
      by eapply tuned_frame; [..|done].
    + unfold on_fulfilled. cbn. destruct (done (job c)); [done|].
      destruct (cancelled (job c)).
      * eapply tuned_frame; [| |apply tuned_push]; [done|done|].
        by eapply tuned_frame; [..|done].
      * eapply tuned_frame; [| |apply tuned_push]; [done|done|].
        by eapply tuned_frame; [..|done].
  - simplify_eq. destruct T as (cn & Hcn & Hh & T). cbn in *.
    pose proof (lookup_lt_Some _ _ _ Hcn) as Hlt.
    unfold attach, tuned. destruct (done (job c)); cbn.
    + exists cn. split; [by apply lookup_app_l_Some|done].
    + exists cn. split; [by apply lookup_app_l_Some|]. split; [done|].
      destruct T as [(? & ? & ?)|(? & ? & ?)]; [left|right].
      * split; [|done]. apply elem_of_union. by left.
      * split; [|done]. rewrite elem_of_union, elem_of_singleton. intros [?|?]; [done|lia].
  - simplify_eq. unfold cancel. cbn. destruct (done (job c)); cbn.
    + by eapply tuned_frame; [..|done].
    + eapply tuned_frame; [| |apply tuned_push]; [done|done|].
      by eapply tuned_frame; [..|done].
  - assert (k0 ≠ k) as Hk by congruence. step_inv H.
    destruct T as (cn & Hcn & Hh & T). exists cn. cbn.
    split; [by rewrite list_lookup_insert_ne|]. split; [done|].
    destruct T as [(? & ? & ?)|(? & ? & ?)]; [left|right].
    + split; [|done]. rewrite elem_of_difference, elem_of_singleton. split; [done|congruence].
    + split; [|done]. rewrite elem_of_difference. tauto.
  - destruct T as (cn & Hcn & Hh & T). cbn in *.
    unfold beat in H. destruct (conns c !! k0) as [cn0|] eqn:Hk0; [|done].
    destruct (heartbeat cn0); [|done]. simplify_eq. unfold tuned. cbn.
    destruct (decide (k0 = k)) as [->|Hk].
    + assert (cn0 = cn) as -> by congruence. eexists. split.
      { apply list_lookup_insert_eq. by eapply lookup_lt_Some. }
      unfold sendSse. destruct (ended cn) eqn:He.
      { split; [done|]. by rewrite He. }
      cbn. split; [|done].
      rewrite <- Hh. unfold heard. cbn. rewrite omap_app. cbn. by rewrite app_nil_r.
    + exists cn. by rewrite list_lookup_insert_ne.
  - step_inv H. by eapply tuned_frame; [..|done].
Qed.

Lemma tuned_run k ops c c' :
  run ops c = Some c' → Close k ∉ ops →
  tuned k (job c, conns c) → tuned k (job c', conns c').
Proof.
  revert c. induction ops as [|o ops IH]; intros c H Hk T; cbn in H.
  - by simplify_eq.
  - destruct (step o c) as [c1|] eqn:E; [|done].
    apply not_elem_of_cons in Hk as [Hne Hk].
    eapply IH; [done|done|]. eapply tuned_step; [done| |done]. congruence.
Qed.

(** An attached connection of a reachable cell is in tune. *)
Lemma attached_tuned k c :
  lifecycle (job c, conns c) → k ∈ clients (job c) → tuned k (job c, conns c).
Proof.
  intros [I1 I2 I3 I4 I5] Hk. cbn in *.
  destruct (I5 k Hk) as (cn & Hcn & He & Hh).
  assert (done (job c) = false) as Hd.
  { destruct (done (job c)); [|done]. rewrite I3 in Hk by done.
    by apply not_elem_of_empty in Hk. }
  rewrite Hd in I2. exists cn. split; [done|]. cbn.
  rewrite upto_terminal_none by done. split; [done|]. by left.
Qed.

(** ** The sitemap crawl *)

Lemma sitemap_emitted_app l1 l2 :
  Sitemap.emitted (l1 ++ l2) = Sitemap.emitted l1 ++ Sitemap.emitted l2.
Proof. unfold Sitemap.emitted. apply bind_app. Qed.

Lemma sitemap_fresh_spec urlLocs seen :
  NoDup (Sitemap.fresh urlLocs seen).1
  ∧ (∀ u, u ∈ (Sitemap.fresh urlLocs seen).1 → u ∉ seen)
  ∧ (∀ u, u ∈ (Sitemap.fresh urlLocs seen).2 ↔
          u ∈ (Sitemap.fresh urlLocs seen).1 ∨ u ∈ seen).
Proof.
  revert seen. induction urlLocs as [|loc rest IH]; intros seen; cbn.
  - split; [constructor|]. split; [intros u H; by apply elem_of_nil in H|].
    intros u. rewrite elem_of_nil. tauto.
  - destruct (bool_decide (loc = "") || bool_decide (loc ∈ seen)) eqn:E; [apply IH|].
    apply orb_false_iff in E as [_ E]. apply bool_decide_eq_false in E.
    destruct (IH ({[loc]} ∪ seen)) as (N & F & S). cbn. split; [|split].
    + constructor; [|done]. intros H. apply F in H. set_solver.
    + intros u [->|H]%elem_of_cons; [done|]. apply F in H. set_solver.
    + intros u. rewrite S, elem_of_cons, elem_of_union, elem_of_singleton. tauto.
Qed.

Lemma sitemap_chunks_concat rounds k (l : list string) :
  0 < k → length l ≤ rounds → concat (Sitemap.chunks rounds k l) = l.
Proof.
  intros Hk. revert l. induction rounds as [|r IH]; intros l Hl.
  - destruct l; [done|cbn in Hl; lia].
  - destruct l as [|x l]; [done|].
    change (Sitemap.chunks (S r) k (x :: l))
      with (take k (x :: l) :: Sitemap.chunks r k (drop k (x :: l))).
    cbn [concat]. rewrite IH, take_drop; [done|].
    rewrite length_drop. cbn in *. lia.
Qed.

Lemma sitemap_emit_spec batches t :
  Sitemap.emitted (Sitemap.emit batches t).1 = concat batches
  ∧ (Sitemap.emit batches t).2 = t + length (concat batches)
  ∧ Forall (λ e, Sitemap.is_batch e = true) (Sitemap.emit batches t).1.
Proof.
  revert t. induction batches as [|b rest IH]; intros t; cbn.
  - split; [done|]. split; [lia|constructor].
  - destruct (IH (t + length b)) as (E & T & F). split; [|split].
    + unfold Sitemap.emitted in *. cbn. by rewrite E.
    + rewrite T, length_app. lia.
    + by constructor.
Qed.

Lemma sitemap_emitted_batches l :
  Forall (λ e, Sitemap.is_batch e = true) l →
  ∀ t, Sitemap.Done t ∉ l.
Proof.
  intros F t H. rewrite Forall_forall in F. by apply F in H.
Qed.

Lemma sitemap_loop_closed q s :
  Sitemap.closed s = true →
  Sitemap.loop q s =
  {| Sitemap.visitedSitemaps := Sitemap.visitedSitemaps s;
     Sitemap.seenUrls := Sitemap.seenUrls s; Sitemap.queue := q;
     Sitemap.maxDepth := Sitemap.maxDepth s; Sitemap.total := Sitemap.total s;
     Sitemap.closed := Sitemap.closed s; Sitemap.sent := Sitemap.sent s;
     Sitemap.ended := Sitemap.ended s; Sitemap.fetches := Sitemap.fetches s;
     Sitemap.pc := Sitemap.Returned |}.
Proof. intros H. destruct q; cbn; by rewrite H. Qed.

Lemma sitemap_loop_visited u depth q s :
  Sitemap.closed s = false → u ∈ Sitemap.visitedSitemaps s →
  Sitemap.loop ((u, depth) :: q) s = Sitemap.loop q s.
Proof. intros H Hv. cbn. rewrite H. by rewrite bool_decide_eq_true_2. Qed.

Lemma sitemap_loop_fetch u depth q s :
  Sitemap.closed s = false → u ∉ Sitemap.visitedSitemaps s →
  Sitemap.loop ((u, depth) :: q) s =
  {| Sitemap.visitedSitemaps := {[u]} ∪ Sitemap.visitedSitemaps s;
     Sitemap.seenUrls := Sitemap.seenUrls s; Sitemap.queue := q;
     Sitemap.maxDepth := Sitemap.maxDepth s; Sitemap.total := Sitemap.total s;
     Sitemap.closed := Sitemap.closed s; Sitemap.sent := Sitemap.sent s;
     Sitemap.ended := Sitemap.ended s;
     Sitemap.fetches := Sitemap.fetches s ++ [u];
     Sitemap.pc := Sitemap.Fetching u depth |}.
Proof. intros H Hv. cbn. rewrite H. by rewrite bool_decide_eq_false_2. Qed.

Lemma sitemap_loop_done s :
  Sitemap.closed s = false →
  Sitemap.loop [] s =
  {| Sitemap.visitedSitemaps := Sitemap.visitedSitemaps s;
     Sitemap.seenUrls := Sitemap.seenUrls s; Sitemap.queue := [];
     Sitemap.maxDepth := Sitemap.maxDepth s; Sitemap.total := Sitemap.total s;
     Sitemap.closed := Sitemap.closed s;
     Sitemap.sent := Sitemap.sent s ++ [Sitemap.Done (Sitemap.total s)];
     Sitemap.ended := true; Sitemap.fetches := Sitemap.fetches s;
     Sitemap.pc := Sitemap.Returned |}.
Proof. intros H. cbn. by rewrite H. Qed.

(** The loop head keeps the invariant of a crawl that has sent batches
    only. *)
Lemma sitemap_loop_invariant q s :
  Forall (λ e, Sitemap.is_batch e = true) (Sitemap.sent s) →
  Sitemap.ended s = false →
  Sitemap.invariant s → Sitemap.invariant (Sitemap.loop q s).
Proof.
  intros Hb He [I1 I2 I3 I4 I5 I6 I7].
  destruct (Sitemap.closed s) eqn:Hc.
  { rewrite sitemap_loop_closed by done. split; cbn; try done.
    intros t H. by destruct (sitemap_emitted_batches _ Hb t). }
  induction q as [|[u depth] q IH].
  - rewrite sitemap_loop_done by done. split; cbn; try done.
    + by rewrite sitemap_emitted_app, app_nil_r.
    + intros v. by rewrite sitemap_emitted_app, app_nil_r.
    + by rewrite sitemap_emitted_app, app_nil_r.
    + intros t [H|H%list_elem_of_singleton]%elem_of_app.
      * by destruct (sitemap_emitted_batches _ Hb t).
      * rewrite sitemap_emitted_app, app_nil_r. split; [congruence|done].
  - destruct (decide (u ∈ Sitemap.visitedSitemaps s)) as [Hv|Hv].
    + by rewrite sitemap_loop_visited.
    + rewrite sitemap_loop_fetch by done. split; cbn; try done.
      * apply NoDup_app. split; [done|]. split; [|apply NoDup_singleton].
        intros v Hv1 ->%list_elem_of_singleton. by apply Hv, I2.
      * intros v. rewrite elem_of_app, list_elem_of_singleton, elem_of_union,
          elem_of_singleton, I2. tauto.
      * intros t H. by destruct (sitemap_emitted_batches _ Hb t).
Qed.

Lemma sitemap_fail_invariant msg s :
  Sitemap.invariant s →
  Forall (λ e, Sitemap.is_batch e = true) (Sitemap.sent s) →
  Sitemap.invariant (Sitemap.fail msg s).
Proof.
  intros [I1 I2 I3 I4 I5 I6 I7] Hb. split; cbn; try done.
  - by rewrite sitemap_emitted_app, app_nil_r.
  - intros v. by rewrite sitemap_emitted_app, app_nil_r.
  - by rewrite sitemap_emitted_app, app_nil_r.
  - intros t [H|H%list_elem_of_singleton]%elem_of_app; [|done].
    by destruct (sitemap_emitted_batches _ Hb t).
Qed.

Lemma sitemap_digest_invariant u depth d s :
  Sitemap.pc s = Sitemap.Fetching u depth →
  Sitemap.invariant s → Sitemap.invariant (Sitemap.digest depth d s).
Proof.
  intros Hpc I. pose proof I as [I1 I2 I3 I4 I5 I6 I7].
  destruct (I6 _ _ Hpc) as [Hb He].
  unfold Sitemap.digest. cbn.
  set (new := Sitemap.fresh _ _).
  set (out := Sitemap.emit _ _).
  destruct (sitemap_fresh_spec (Sitemap.locs (Sitemap.url_locs d)) (Sitemap.seenUrls s))
    as (N & F & S). fold new in N, F, S.
  destruct (sitemap_emit_spec
              (Sitemap.chunks (length new.1) Sitemap.chunkSize new.1) (Sitemap.total s))
    as (E & T & B). fold out in E, T, B.
  rewrite sitemap_chunks_concat in E, T by (unfold Sitemap.chunkSize; lia).
  apply sitemap_loop_invariant; cbn.
  - apply Forall_app. done.
  - done.
  - split; cbn; try done.
    + rewrite sitemap_emitted_app, E. apply NoDup_app. split; [done|]. split; [|done].
      intros v Hv1 Hv2. apply F in Hv2. by apply Hv2, I4.
    + intros v. rewrite sitemap_emitted_app, E, elem_of_app, S, I4. tauto.
    + rewrite sitemap_emitted_app, E, length_app, T. lia.
    + intros _ _ _. split; [|done]. by apply Forall_app.
    + intros t [H|H]%elem_of_app.
      * by destruct (sitemap_emitted_batches _ Hb t).
      * by destruct (sitemap_emitted_batches _ B t).
Qed.

Lemma sitemap_step_invariant o s s' :
  Sitemap.step o s = Some s' → Sitemap.invariant s → Sitemap.invariant s'.
Proof.
  intros H I. destruct o as [io|]; cbn in H.
  - unfold Sitemap.respond in H.
    destruct (Sitemap.pc s) as [u depth|] eqn:Hpc; [|done].
    destruct (Sitemap.inv_running s I _ _ Hpc) as [Hb He].
    destruct io as [e|[] st [e|e|d]]; simplify_eq; try by apply sitemap_fail_invariant.
    + unfold Sitemap.fail_unless_closed. destruct (Sitemap.closed s).
      * destruct I. split; cbn; try done.
        intros t H. by destruct (sitemap_emitted_batches _ Hb t).
      * by apply sitemap_fail_invariant.
    + by eapply sitemap_digest_invariant.
  - simplify_eq. destruct I. by split.
Qed.

Lemma sitemap_start_invariant new_URL query depth :
  Sitemap.invariant (Sitemap.start new_URL query depth).
Proof.
  assert (Sitemap.invariant
    {| Sitemap.visitedSitemaps := ∅; Sitemap.seenUrls := ∅; Sitemap.queue := [];
       Sitemap.maxDepth := depth; Sitemap.total := 0; Sitemap.closed := false;
       Sitemap.sent := []; Sitemap.ended := false; Sitemap.fetches := [];
       Sitemap.pc := Sitemap.Returned |}) as I.
  { split; cbn; try done.
    - constructor.
    - intros u. rewrite elem_of_nil. set_solver.
    - constructor.
    - intros u. rewrite elem_of_nil. set_solver.
    - intros t H. by apply elem_of_nil in H. }
  unfold Sitemap.start. case_bool_decide.
  { apply sitemap_fail_invariant; [done|constructor]. }
  destruct (new_URL _) as [parsed|]; [|apply sitemap_fail_invariant; [done|constructor]].
  destruct (Sitemap.http_protocol _); [|apply sitemap_fail_invariant; [done|constructor]].
  apply sitemap_loop_invariant; [constructor|done|done].
Qed.

Lemma sitemap_run_invariant ops s s' :
  Sitemap.run ops s = Some s' → Sitemap.invariant s → Sitemap.invariant s'.
Proof.
  revert s. induction ops as [|o ops IH]; intros s H I; cbn in H.
  - by simplify_eq.
  - destruct (Sitemap.step o s) as [s1|] eqn:E; [|done].
    eapply IH; [done|]. by eapply sitemap_step_invariant.
Qed.

Lemma sitemap_reachable_invariant new_URL s :
  Sitemap.reachable new_URL s → Sitemap.invariant s.
Proof.
  intros (query & depth & ops & H).
  eapply sitemap_run_invariant; [done|]. apply sitemap_start_invariant.
Qed.

(* ===================================================================== *)
(** * The claims *)
(* ===================================================================== *)

Lemma new_cell_constants uuid us concurrency :
  urls (pool (new_cell uuid us concurrency)) = us
  ∧ total (job (new_cell uuid us concurrency)) = length us.
Proof. done. Qed.

(** C3. In every job, for every list of URLs, every concurrency and every
    order in which the workers run and complete: a result slot [idx] that is
    not empty holds a result whose [url] is the normalized form of
    [urls[idx]], and a slot that was written keeps its content in every
    later state, so no slot is written twice. *)
Theorem result_slot_is_positional uuid us concurrency ops c idx r :
  run ops (new_cell uuid us concurrency) = Some c →
  results (job c) !! idx = Some (Some r) →
  (∃ s, us !! idx = Some (URL s) ∧ url r = normalize s)
  ∧ (∀ ops' c', run ops' c = Some c' → results (job c') !! idx = Some (Some r)).
Proof.
  intros Hrun Hr.
  assert (invariant c) as I by (apply invariant_reachable; by exists uuid, us, concurrency, ops).
  split.
  - destruct (sl_positional c (inv_slots c I) idx r Hr) as (s & Hs & Hu).
    exists s. split; [|done].
    destruct (run_constants _ _ _ Hrun) as (Hus & _). by rewrite Hus in Hs.
  - intros ops' c' Hrun'. by apply (run_slots_stable _ _ _ Hrun' I).
Qed.

(** The second URL completes first; its result goes to slot 1. *)
Lemma result_slot_is_positional_witness :
  run [Resume 0; Resume 1; Checked 1 pdf_file] two_urls
    = Some (default two_urls (run [Resume 0; Resume 1; Checked 1 pdf_file] two_urls))
  ∧ results (job (default two_urls (run [Resume 0; Resume 1; Checked 1 pdf_file] two_urls))) !! 1
    = Some (Some (checkUrl "https://b.org/doc.pdf" pdf_file))
  ∧ ((∃ s, [URL "example.com"; URL "https://b.org/doc.pdf"] !! 1 = Some (URL s)
          ∧ url (checkUrl "https://b.org/doc.pdf" pdf_file) = normalize s)
     ∧ (∀ ops' c',
          run ops' (default two_urls (run [Resume 0; Resume 1; Checked 1 pdf_file] two_urls))
            = Some c' →
          results (job c') !! 1 = Some (Some (checkUrl "https://b.org/doc.pdf" pdf_file)))).
Proof.
  split; [vm_compute; reflexivity|]. split; [vm_compute; reflexivity|].
  apply (result_slot_is_positional "job-1" [URL "example.com"; URL "https://b.org/doc.pdf"] 2
           [Resume 0; Resume 1; Checked 1 pdf_file]); vm_compute; reflexivity.
Defined.

(** C4. In every state of every job: [processed] is the number of written
    slots, [results] has [total] slots, [total] is the number of input URLs,
    [processed] lies between 0 and [total] and never decreases; and a job
    that emitted [done] has [processed = total] with every slot written, each
    slot keeping what was written to it. *)
Theorem processed_counts_written_slots uuid us concurrency ops c :
  run ops (new_cell uuid us concurrency) = Some c →
  processed (job c) = filled (results (job c))
  ∧ length (results (job c)) = total (job c)
  ∧ total (job c) = length us
  ∧ processed (job c) ≤ total (job c)
  ∧ (∀ ops' c', run ops' c = Some c' → processed (job c) ≤ processed (job c'))
  ∧ (∀ p t, Done p t ∈ events (job c) →
       p = total (job c) ∧ t = total (job c)
       ∧ processed (job c) = total (job c)
       ∧ (∀ idx, idx < total (job c) → ∃ r, results (job c) !! idx = Some (Some r))
       ∧ (∀ idx r ops' c', results (job c) !! idx = Some (Some r) →
            run ops' c = Some c' → results (job c') !! idx = Some (Some r))).
Proof.
  intros Hrun.
  assert (invariant c) as I by (apply invariant_reachable; by exists uuid, us, concurrency, ops).
  pose proof (inv_slots c I) as [S1 S2 S3 S4 S5 S6 S7].
  split; [done|]. split; [done|]. split.
  { by destruct (run_constants _ _ _ Hrun) as (_ & -> & _). }
  split.
  { rewrite S3, <- S1. apply filled_le. }
  split.
  { intros ops' c' Hrun'. by apply (run_slots_stable _ _ _ Hrun' I). }
  intros p t Hd.
  destruct (cp_done c (inv_completion c I) p t Hd) as (_ & -> & -> & Hp & Hall).
  split; [done|]. split; [done|]. split; [done|]. split; [done|].
  intros idx r ops' c' Hr Hrun'. by apply (run_slots_stable _ _ _ Hrun' I).
Qed.

(** Both URLs are checked, the second one first, and the job completes. *)
Lemma processed_counts_written_slots_witness :
  let ops := [Resume 0; Resume 1; Checked 1 pdf_file; Checked 0 html_page;
              Resume 0; Resume 1; Settle] in
  let c := default two_urls (run ops two_urls) in
  run ops two_urls = Some c
  ∧ Done 2 2 ∈ events (job c)
  ∧ (processed (job c) = filled (results (job c))
     ∧ length (results (job c)) = total (job c)
     ∧ total (job c) = 2
     ∧ processed (job c) ≤ total (job c)
     ∧ (∀ ops' c', run ops' c = Some c' → processed (job c) ≤ processed (job c'))
     ∧ (∀ p t, Done p t ∈ events (job c) →
          p = total (job c) ∧ t = total (job c)
          ∧ processed (job c) = total (job c)
          ∧ (∀ idx, idx < total (job c) → ∃ r, results (job c) !! idx = Some (Some r))
          ∧ (∀ idx r ops' c', results (job c) !! idx = Some (Some r) →
               run ops' c = Some c' → results (job c') !! idx = Some (Some r)))).
Proof.
  intros ops c. split; [vm_compute; reflexivity|]. split.
  { vm_compute. do 3 right. left. }
  apply (processed_counts_written_slots "job-1"
           [URL "example.com"; URL "https://b.org/doc.pdf"] 2 ops). vm_compute; reflexivity.
Defined.

(** C2, at the input [{"urls": ["example.com", {"toString": 1}],
    "concurrency": 2}]. Worker 0 suspends in the check of the first URL;
    worker 1 throws on the second element; the rejection of the pool emits
    [failed]; the check of the first URL then completes and, the job not
    being cancelled, its result is stored and a [progress] event is appended
    to the log after the terminal event. *)
Theorem progress_follows_failed_after_a_fault :
  ∃ c, run [Resume 0; Resume 1; Settle; Checked 0 html_page] bad_item = Some c
    ∧ events (job c) =
        [Start 2;
         Failed "Cannot convert object to primitive value";
         Progress 0 (checkUrl "http://example.com" html_page) 1 2]
    ∧ done (job c) = true ∧ processed (job c) = 1.
Proof. eexists. split; [reflexivity|]. by split. Qed.

(** What does hold of C2 in every run: at most one terminal event is ever
    in the log. *)
Lemma at_most_one_terminal_event c :
  reachable c → terminals (events (job c)) ≤ 1.
Proof.
  intros H. pose proof (lc_terminals _ (lifecycle_reachable c H)) as Ht.
  cbn in Ht. rewrite Ht. by destruct (done (job c)); lia.
Qed.

(** And while no worker has thrown, the terminal event is the last event
    of the log. *)
Lemma terminal_event_is_last_without_fault c :
  reachable c → done (job c) = true → rejection (pool c) = None →
  ∃ l e, events (job c) = l ++ [e] ∧ terminal e = true ∧ terminals l = 0.
Proof.
  intros H Hd Hr. pose proof (invariant_reachable c H) as [I1 I2 I3].
  destruct (cp_quiet c I3 Hd Hr) as (_ & l & e & He & Ht).
  exists l, e. split; [done|]. split; [done|].
  pose proof (lc_terminals _ I1) as Hn. cbn in Hn.
  rewrite Hd, He, terminals_app, Ht in Hn. lia.
Qed.

(** C6. A job that is not terminal when the cancellation arrives ends with
    [failed{error: "cancelled"}], its only terminal event; whatever happens
    afterwards, the log, the slots and [processed] stay as they were, and a
    check that completes afterwards leaves the job untouched and ends its
    worker. *)
Theorem cancellation_discards_late_results uuid us concurrency ops c :
  run ops (new_cell uuid us concurrency) = Some c →
  done (job c) = false →
  events (job (cancel c)) = events (job c) ++ [Failed "cancelled"]
  ∧ terminals (events (job (cancel c))) = 1
  ∧ done (job (cancel c)) = true
  ∧ ∀ ops' c', run ops' (cancel c) = Some c' →
      events (job c') = events (job c) ++ [Failed "cancelled"]
      ∧ results (job c') = results (job c)
      ∧ processed (job c') = processed (job c)
      ∧ ∀ w idx u io, workers (pool c') !! w = Some (Awaiting idx u) →
          ∃ c'', checked w io c' = Some c''
            ∧ job c'' = job c'
            ∧ workers (pool c'') !! w = Some Returned.
Proof.
  intros Hrun Hd.
  assert (reachable c) as R by (by exists uuid, us, concurrency, ops).
  pose proof (lc_terminals _ (lifecycle_reachable c R)) as Ht. cbn in Ht.
  rewrite Hd in Ht.
  assert (events (job (cancel c)) = events (job c) ++ [Failed "cancelled"]) as He.
  { unfold cancel. cbn. by rewrite Hd. }
  assert (results (job (cancel c)) = results (job c)
          ∧ processed (job (cancel c)) = processed (job c)) as [Hres Hp].
  { unfold cancel. cbn. by rewrite Hd. }
  assert (cancelled (job (cancel c)) = true ∧ done (job (cancel c)) = true) as [Hc Hd'].
  { unfold cancel. cbn. by rewrite Hd. }
  split; [done|]. split; [rewrite He, terminals_app, Ht; done|]. split; [done|].
  intros ops' c' Hrun'.
  destruct (run_frozen _ _ _ Hrun' Hc Hd') as (Hc' & Hd'' & -> & -> & ->).
  split; [done|]. split; [done|]. split; [done|].
  intros w idx u io Hw. unfold checked. rewrite Hw, Hc'. eexists. split; [done|].
  split; [done|]. cbn. apply list_lookup_insert_eq. by eapply lookup_lt_Some.
Qed.

(** The job is cancelled while both checks are in flight; both complete
    afterwards. *)
Lemma cancellation_discards_late_results_witness :
  let c := default two_urls (run [Resume 0; Resume 1] two_urls) in
  run [Resume 0; Resume 1] two_urls = Some c
  ∧ done (job c) = false
  ∧ (events (job (cancel c)) = events (job c) ++ [Failed "cancelled"]
     ∧ terminals (events (job (cancel c))) = 1
     ∧ done (job (cancel c)) = true
     ∧ ∀ ops' c', run ops' (cancel c) = Some c' →
         events (job c') = events (job c) ++ [Failed "cancelled"]
         ∧ results (job c') = results (job c)
         ∧ processed (job c') = processed (job c)
         ∧ ∀ w idx u io, workers (pool c') !! w = Some (Awaiting idx u) →
             ∃ c'', checked w io c' = Some c''
               ∧ job c'' = job c'
               ∧ workers (pool c'') !! w = Some Returned).
Proof.
  intros c. split; [vm_compute; reflexivity|]. split; [vm_compute; reflexivity|].
  apply (cancellation_discards_late_results "job-1"
           [URL "example.com"; URL "https://b.org/doc.pdf"] 2 [Resume 0; Resume 1]);
    vm_compute; reflexivity.
Defined.

(** C9. Whatever the outcome of the fetch of a URL: a thrown error is
    recorded in the [error] field of the result ([timeout] for the abort of
    the timer, the message of the error otherwise); a response that is not
    HTML is recorded with both its status code and an error message; the
    result is stored in the slot of the URL, an index that the cursor has
    passed; the worker is back at its loop head, no worker having been
    rejected by it. The cursor then stands at the next unclaimed index: no
    worker holds it or a later one, and its slot and the later ones are
    empty. From there the worker claims that index, if there is one: the
    cursor moves on by one, and no other worker holds the index. *)
Theorem per_url_failure_is_recorded uuid us concurrency ops c w idx u io :
  run ops (new_cell uuid us concurrency) = Some c →
  workers (pool c) !! w = Some (Awaiting idx u) →
  cancelled (job c) = false →
  (∀ e, fetched io = FetchThrows e →
     error (checkUrl u io)
     = Some (if bool_decide (Js.name e = "AbortError") then "timeout" else Js.message e))
  ∧ (∀ res, fetched io = FetchReturns res →
       Js.includes "text/html" (default "" (Js.truthy (content_type res))) = false →
       status (checkUrl u io) = Some (res_status res)
       ∧ error (checkUrl u io)
         = Some ("non-html content-type: " +:+ default "" (Js.truthy (content_type res))))
  ∧ ∃ c', checked w io c = Some c'
      ∧ idx < i (pool c)
      ∧ (∃ s, us !! idx = Some (URL s) ∧ u = normalize s)
      ∧ results (job c') !! idx = Some (Some (checkUrl u io))
      ∧ workers (pool c') !! w = Some Looping
      ∧ rejection (pool c') = rejection (pool c)
      ∧ i (pool c') = i (pool c)
      ∧ (∀ w' idx' u', workers (pool c') !! w' = Some (Awaiting idx' u') →
           idx' < i (pool c))
      ∧ (∀ idx', i (pool c) ≤ idx' → idx' < length us →
           results (job c') !! idx' = Some None)
      ∧ ∃ c'', resume w c' = Some c''
          ∧ i (pool c'') = S (i (pool c))
          ∧ (∀ s, us !! i (pool c) = Some (URL s) →
               workers (pool c'') !! w = Some (Awaiting (i (pool c)) (normalize s)))
          ∧ (length us ≤ i (pool c) → workers (pool c'') !! w = Some Returned)
          ∧ (∀ w' idx' u', workers (pool c'') !! w' = Some (Awaiting idx' u') →
               i (pool c) ≤ idx' → w' = w ∧ idx' = i (pool c))
          ∧ results (job c'') = results (job c').
Proof.
  intros Hrun Hw Hc.
  assert (invariant c) as I by (apply invariant_reachable; by exists uuid, us, concurrency, ops).
  destruct (run_constants _ _ _ Hrun) as (Hus & _). cbn in Hus.
  pose proof (inv_slots c I) as Sl.
  destruct (sl_awaiting c Sl _ _ _ Hw) as (Hidx & Hr & Hurl).
  pose proof (lookup_lt_Some _ _ _ Hw) as Hlw.
  pose proof (lookup_lt_Some _ _ _ Hr) as Hlr.
  assert (total (job c) = length us) as Htot by (by rewrite <- (sl_urls c Sl), Hus).
  assert (∀ w' idx' u', w ≠ w' → workers (pool c) !! w' = Some (Awaiting idx' u') →
            idx' < i (pool c)) as Hothers.
  { intros w' idx' u' _ Hw'. by destruct (sl_awaiting c Sl _ _ _ Hw'). }
  split; [|split].
  - intros e He. unfold checkUrl. rewrite He. done.
  - intros res He Hct. unfold checkUrl. rewrite He. cbn. rewrite Hct. done.
  - unfold checked. rewrite Hw, Hc. eexists. split; [done|].
    split; [done|]. split; [by rewrite <- Hus|].
    unfold onResult. cbn. rewrite Hc. cbn. rewrite bool_decide_eq_true_2 by done.
    split; [by apply list_lookup_insert_eq|].
    split; [by apply list_lookup_insert_eq|]. split; [done|]. split; [done|].
    split.
    { intros w' idx' u' [(_ & ? & _)|[Hne Hw']]%list_lookup_insert_Some; [done|].
      by eapply Hothers. }
    split.
    { intros idx' H1 H2. rewrite list_lookup_insert_ne by lia.
      apply (sl_ahead c Sl); [done|]. by rewrite Htot. }
    unfold resume. cbn. rewrite list_lookup_insert_eq by done. rewrite Hc. cbn.
    rewrite Hus.
    destruct (us !! i (pool c)) as [[s|]|] eqn:Hi.
    + eexists. split; [done|]. cbn. split; [done|]. split; [|split; [|split; [|by rewrite bool_decide_eq_true_2]]].
      * intros s' [= <-]. rewrite list_insert_insert_eq.
        by apply list_lookup_insert_eq.
      * intros Hle. apply lookup_lt_Some in Hi. lia.
      * intros w' idx' u'. rewrite list_insert_insert_eq.
        intros [(-> & [= <- _] & _)|[Hne Hw']]%list_lookup_insert_Some Hle; [done|].
        pose proof (Hothers _ _ _ Hne Hw'). lia.
    + eexists. split; [done|]. cbn. split; [done|]. split; [done|]. split; [|split; [|by rewrite bool_decide_eq_true_2]].
      * intros Hle. apply lookup_lt_Some in Hi. lia.
      * intros w' idx' u'. rewrite list_insert_insert_eq.
        intros [(_ & ? & _)|[Hne Hw']]%list_lookup_insert_Some Hle; [done|].
        pose proof (Hothers _ _ _ Hne Hw'). lia.
    + eexists. split; [done|]. cbn. split; [done|]. split; [done|]. split; [|split; [|by rewrite bool_decide_eq_true_2]].
      * intros _. rewrite list_insert_insert_eq. by apply list_lookup_insert_eq.
      * intros w' idx' u'. rewrite list_insert_insert_eq.
        intros [(_ & ? & _)|[Hne Hw']]%list_lookup_insert_Some Hle; [done|].
        pose proof (Hothers _ _ _ Hne Hw'). lia.
Qed.

(** One worker on two URLs: the first check times out, and the worker goes
    on with the second URL. *)
Lemma per_url_failure_is_recorded_witness :
  let us := [URL "example.com"; URL "https://b.org/doc.pdf"] in
  let c := default two_urls (run [Resume 0] (new_cell "job-1" us 1)) in
  run [Resume 0] (new_cell "job-1" us 1) = Some c
  ∧ workers (pool c) !! 0 = Some (Awaiting 0 "http://example.com")
  ∧ cancelled (job c) = false
  ∧ ((∀ e, fetched timed_out = FetchThrows e →
        error (checkUrl "http://example.com" timed_out)
        = Some (if bool_decide (Js.name e = "AbortError") then "timeout" else Js.message e))
     ∧ (∀ res, fetched timed_out = FetchReturns res →
          Js.includes "text/html" (default "" (Js.truthy (content_type res))) = false →
          status (checkUrl "http://example.com" timed_out) = Some (res_status res)
          ∧ error (checkUrl "http://example.com" timed_out)
            = Some ("non-html content-type: " +:+ default "" (Js.truthy (content_type res))))
     ∧ ∃ c', checked 0 timed_out c = Some c'
         ∧ 0 < i (pool c)
         ∧ (∃ s, us !! 0 = Some (URL s) ∧ "http://example.com" = normalize s)
         ∧ results (job c') !! 0 = Some (Some (checkUrl "http://example.com" timed_out))
         ∧ workers (pool c') !! 0 = Some Looping
         ∧ rejection (pool c') = rejection (pool c)
         ∧ i (pool c') = i (pool c)
         ∧ (∀ w' idx' u', workers (pool c') !! w' = Some (Awaiting idx' u') →
              idx' < i (pool c))
         ∧ (∀ idx', i (pool c) ≤ idx' → idx' < length us →
              results (job c') !! idx' = Some None)
         ∧ ∃ c'', resume 0 c' = Some c''
             ∧ i (pool c'') = S (i (pool c))
             ∧ (∀ s, us !! i (pool c) = Some (URL s) →
                  workers (pool c'') !! 0 = Some (Awaiting (i (pool c)) (normalize s)))
             ∧ (length us ≤ i (pool c) → workers (pool c'') !! 0 = Some Returned)
             ∧ (∀ w' idx' u', workers (pool c'') !! w' = Some (Awaiting idx' u') →
                  i (pool c) ≤ idx' → w' = 0 ∧ idx' = i (pool c))
             ∧ results (job c'') = results (job c')).
Proof.
  intros us c. split; [vm_compute; reflexivity|]. split; [vm_compute; reflexivity|]. split; [vm_compute; reflexivity|].
  apply (per_url_failure_is_recorded "job-1" us 1 [Resume 0]); vm_compute; reflexivity.
Defined.

Lemma running_log_shape tl :
  Forall (λ e, is_start e = false) tl → terminals tl = 0 →
  Forall (λ e, is_progress e = true) tl ∧ progresses tl = length tl.
Proof.
  induction tl as [|e tl IH]; intros Hs Ht; [by split|].
  apply Forall_cons in Hs as [Hs1 Hs2]. rewrite terminals_cons in Ht.
  destruct e; try done; cbn in Ht; try lia.
  destruct (IH Hs2 Ht) as [IH1 IH2]. split; [by constructor|].
  change (Progress index result processed0 total0 :: tl)
    with ([] ++ [Progress index result processed0 total0] ++ tl).
  unfold progresses in *. rewrite !filter_app, !length_app, IH2. done.
Qed.

(** C5. An observer that attaches to a job in any state is replayed the
    whole log in order; it joins [clients] when the job is not terminal, and
    is ended without joining when it is. When it attaches to a running job
    that has [processed = N], the replay is [start] followed by [N]
    [progress] events; from then on, as long as its request stays open, what
    it has received is the log up to the terminal event, and its response is
    ended exactly when the job is terminal; so it has received the same
    events as any observer that was attached before it. *)
Theorem late_observer_catches_up uuid us concurrency ops1 c1 ops2 c3 :
  run ops1 (new_cell uuid us concurrency) = Some c1 →
  run ops2 (attach c1) = Some c3 →
  Close (length (conns c1)) ∉ ops2 →
  (∃ cn, conns (attach c1) !! length (conns c1) = Some cn
       ∧ written cn = Sent <$> events (job c1)
       ∧ ended cn = done (job c1)
       ∧ (length (conns c1) ∈ clients (job (attach c1)) ↔ done (job c1) = false))
  ∧ (done (job c1) = false →
       (∃ ps, events (job c1) = Start (total (job c1)) :: ps
            ∧ Forall (λ e, is_progress e = true) ps
            ∧ length ps = processed (job c1))
       ∧ (∃ cn, conns c3 !! length (conns c1) = Some cn
              ∧ heard cn = upto_terminal (events (job c3))
              ∧ ended cn = done (job c3))
       ∧ ∀ k0, k0 ∈ clients (job c1) → Close k0 ∉ ops2 →
           ∃ cn0 cn, conns c3 !! k0 = Some cn0
             ∧ conns c3 !! length (conns c1) = Some cn
             ∧ heard cn0 = heard cn).
Proof.
  intros Hrun1 Hrun2 Hk.
  assert (reachable c1) as R1 by (by exists uuid, us, concurrency, ops1).
  pose proof (lifecycle_reachable c1 R1) as L1.
  pose proof (lifecycle_attach c1 L1) as La.
  pose proof (lifecycle_run _ _ _ Hrun2 La) as L3.
  split.
  - unfold attach. destruct (done (job c1)) eqn:Hd; cbn.
    + eexists. split; [by apply list_lookup_middle|]. split; [done|]. split; [done|].
      pose proof (lc_detached _ L1 Hd) as Hemp. cbn in Hemp. rewrite Hemp.
      split; [|done].
      intros H. by apply not_elem_of_empty in H.
    + eexists. split; [by apply list_lookup_middle|]. split; [done|]. split; [done|].
      split; [done|]. intros _. apply elem_of_union. right. by apply elem_of_singleton.
  - intros Hd.
    assert (∀ k, k ∈ clients (job (attach c1)) → Close k ∉ ops2 →
              ∃ cn, conns c3 !! k = Some cn
                ∧ heard cn = upto_terminal (events (job c3))
                ∧ ended cn = done (job c3)) as Hlive.
    { intros k Hin Hcl.
      pose proof (tuned_run k _ _ _ Hrun2 Hcl (attached_tuned k _ La Hin))
        as (cn & Hcn & Hh & Ht).
      exists cn. split; [done|]. split; [done|].
      pose proof (lc_terminals _ L3) as Hn. cbn in Hn, Ht.
      destruct Ht as [(_ & -> & Ht)|(_ & -> & Ht)];
        destruct (done (job c3)); try done; lia. }
    assert (clients (job (attach c1)) = clients (job c1) ∪ {[length (conns c1)]}) as Hcl.
    { unfold attach. by rewrite Hd. }
    split; [|split].
    + destruct (lc_start _ L1) as (tl & He & Hs & Hp). cbn in He, Hp.
      pose proof (lc_terminals _ L1) as Ht. cbn in Ht.
      rewrite Hd, He, terminals_cons in Ht. cbn in Ht.
      destruct (running_log_shape tl Hs Ht) as [Hf Hl].
      exists tl. split; [done|]. split; [done|]. congruence.
    + apply Hlive; [|done]. rewrite Hcl, elem_of_union, elem_of_singleton. by right.
    + intros k0 Hk0 Hc0.
      destruct (Hlive k0) as (cn0 & Hcn0 & Hh0 & _); [|done|].
      { rewrite Hcl, elem_of_union. by left. }
      destruct (Hlive (length (conns c1))) as (cn & Hcn & Hh & _); [|done|].
      { rewrite Hcl, elem_of_union, elem_of_singleton. by right. }
      exists cn0, cn. split; [done|]. split; [done|]. congruence.
Qed.

(** Observer 0 attaches at the start; observer 1 attaches after one of the
    two results; the job then runs to its end. *)
Lemma late_observer_catches_up_witness :
  let us := [URL "example.com"; URL "https://b.org/doc.pdf"] in
  let ops1 := [Attach; Resume 0; Resume 1; Checked 1 pdf_file] in
  let ops2 := [Beat 0; Checked 0 html_page; Resume 0; Resume 1; Settle] in
  let c1 := default two_urls (run ops1 two_urls) in
  let c3 := default two_urls (run ops2 (attach c1)) in
  run ops1 (new_cell "job-1" us 2) = Some c1
  ∧ run ops2 (attach c1) = Some c3
  ∧ (Close (length (conns c1)) ∉ ops2)
  ∧ done (job c1) = false
  ∧ 0 ∈ clients (job c1) ∧ (Close 0 ∉ ops2)
  ∧ ((∃ cn, conns (attach c1) !! length (conns c1) = Some cn
          ∧ written cn = Sent <$> events (job c1)
          ∧ ended cn = done (job c1)
          ∧ (length (conns c1) ∈ clients (job (attach c1)) ↔ done (job c1) = false))
     ∧ (done (job c1) = false →
          (∃ ps, events (job c1) = Start (total (job c1)) :: ps
               ∧ Forall (λ e, is_progress e = true) ps
               ∧ length ps = processed (job c1))
          ∧ (∃ cn, conns c3 !! length (conns c1) = Some cn
                 ∧ heard cn = upto_terminal (events (job c3))
                 ∧ ended cn = done (job c3))
          ∧ ∀ k0, k0 ∈ clients (job c1) → Close k0 ∉ ops2 →
              ∃ cn0 cn, conns c3 !! k0 = Some cn0
                ∧ conns c3 !! length (conns c1) = Some cn
                ∧ heard cn0 = heard cn)).
Proof.
  intros us ops1 ops2 c1 c3.
  assert (∀ k, Close k ∉ ops2) as Hno.
  { intros k H. repeat (apply elem_of_cons in H as [H|H]; [discriminate H|]).
    by apply elem_of_nil in H. }
  split; [vm_compute; reflexivity|]. split; [vm_compute; reflexivity|].
  split; [apply Hno|].
  split; [vm_compute; reflexivity|]. split; [vm_compute; reflexivity|].
  split; [apply Hno|].
  apply (late_observer_catches_up "job-1" us 2 ops1 c1 ops2 c3);
    [vm_compute; reflexivity|vm_compute; reflexivity|apply Hno].
Defined.

(** ** The registry *)

Lemma jobs_get_Some jobId σ a c :
  jobs_get jobId σ = Some (a, c) ↔ jobs σ !! jobId = Some a ∧ heap σ !! a = Some c.
Proof.
  unfold jobs_get. destruct (jobs σ !! jobId) as [a'|]; cbn; [|naive_solver].
  destruct (heap σ !! a') as [c'|] eqn:E; cbn; naive_solver.
Qed.

Lemma registry_ok_put a c c' σ :
  heap σ !! a = Some c → reachable c' → registry_ok σ → registry_ok (put a c' σ).
Proof.
  intros Ha R [H1 H2]. split; cbn.
  - intros jobId a' Hj. rewrite length_insert. by eapply H1.
  - intros a' c'' [(-> & <- & _)|[_ H]]%list_lookup_insert_Some; [done|]. by eapply H2.
Qed.

Lemma registry_ok_handle inp σ σ' :
  handle inp σ = Some σ' → registry_ok σ → registry_ok σ'.
Proof.
  intros H I. pose proof I as [H1 H2]. destruct inp as [uuid us n|q|jobId|a o]; cbn in H.
  - simplify_eq. unfold post_check_job. destruct us as [|u us]; [done|]. split; cbn.
    + intros jobId a. rewrite length_app. cbn.
      intros [[_ <-]|[_ Hj]]%lookup_insert_Some; [lia|].
      apply H1 in Hj. lia.
    + intros a c [Hc|[_ Hc]]%lookup_app_Some; [by eapply H2|].
      apply list_lookup_singleton_Some in Hc as [_ <-].
      by exists uuid, (u :: us), n, [].
  - simplify_eq. unfold get_check_events.
    destruct (jobs_get (Js.trim q) σ) as [[a c]|] eqn:E; [|done].
    apply jobs_get_Some in E as [_ Hc]. eapply registry_ok_put; [done| |done].
    apply (reachable_run [Attach] c); [by eapply H2|done].
  - simplify_eq. unfold post_check_cancel.
    destruct (jobs_get jobId σ) as [[a c]|] eqn:E; [|done].
    apply jobs_get_Some in E as [_ Hc]. eapply registry_ok_put; [done| |done].
    apply (reachable_run [Cancel] c); [by eapply H2|done].
  - assert (∃ c c', heap σ !! a = Some c ∧ step o c = Some c'
              ∧ σ' = {| heap := <[a := c']> (heap σ); jobs := after o c (jobs σ) |})
      as (c & c' & Hc & Hs & ->).
    { destruct o; try done; destruct (heap σ !! a) as [c|]; cbn in H; try done;
        match type of H with
        | context [step ?o c] => destruct (step o c) as [c'|] eqn:E
        | context [resume ?w c] => destruct (resume w c) as [c'|] eqn:E
        | context [checked ?w ?io c] => destruct (checked w io c) as [c'|] eqn:E
        | context [settle_pool c] => destruct (settle_pool c) as [c'|] eqn:E
        | context [close ?k c] => destruct (close k c) as [c'|] eqn:E
        | context [beat ?k c] => destruct (beat k c) as [c'|] eqn:E
        | context [expire c] => destruct (expire c) as [c'|] eqn:E
        end; cbn in H; simplify_eq; by eexists _, _. }
    split; cbn.
    + intros jobId a' Hj. rewrite length_insert. apply (H1 jobId).
      destruct o; cbn in Hj; try done. by apply lookup_delete_Some in Hj as [_ ?].
    + intros a' c'' [(-> & <- & _)|[_ H']]%list_lookup_insert_Some; [|by eapply H2].
      apply (reachable_run [o] c); [by eapply H2|]. cbn. by rewrite Hs.
Qed.

Lemma registry_ok_serving σ : serving σ → registry_ok σ.
Proof.
  intros [inputs H].
  assert (registry_ok empty_server) as I.
  { split; cbn; [intros ?? H'; by rewrite lookup_empty in H'|].
    intros ?? H'. by rewrite lookup_nil in H'. }
  revert H I. generalize empty_server.
  induction inputs as [|inp inputs IH]; intros σ0 H I; cbn in H; [by simplify_eq|].
  destruct (handle inp σ0) as [σ1|] eqn:E; [|done].
  eapply IH; [done|]. by eapply registry_ok_handle.
Qed.

(** C1 as stated fails: a job is created and cancelled, which makes it
    terminal; the second cancellation of this known, terminal job answers
    [{ok: true}]. *)
Lemma second_cancel_answers_ok_true :
  let σ := (post_check_cancel "job-1"
              (post_check_job "job-1" [URL "example.com"] 5 empty_server).1).1 in
  serving σ
  ∧ (∃ a c, jobs_get "job-1" σ = Some (a, c) ∧ done (job c) = true
          ∧ events (job c) = [Start 1; Failed "cancelled"])
  ∧ (post_check_cancel "job-1" σ).2 = Json_ok true
  ∧ (post_check_cancel "job-1" σ).2 ≠ Json_ok false.
Proof.
  intros σ. split.
  { exists [PostCheckJob "job-1" [URL "example.com"] 5; PostCheckCancel "job-1"].
    reflexivity. }
  split; [by eexists _, _|]. by split.
Qed.

(** C1, amended. The answer to a cancellation is [{ok: false}] exactly when
    the id is unknown, and then nothing changes; for a known job it is
    [{ok: true}], terminal or not. Cancelling a terminal job raises no error
    and changes neither its log, its slots nor its counter; cancelling a job
    that is not terminal appends [failed{error: "cancelled"}]. *)
Theorem cancel_answers_whether_the_job_is_known σ jobId :
  serving σ →
  (jobs σ !! jobId = None → post_check_cancel jobId σ = (σ, Json_ok false))
  ∧ (∀ a, jobs σ !! jobId = Some a →
       ∃ c, heap σ !! a = Some c
         ∧ (post_check_cancel jobId σ).2 = Json_ok true
         ∧ heap (post_check_cancel jobId σ).1 !! a = Some (cancel c)
         ∧ jobs (post_check_cancel jobId σ).1 = jobs σ
         ∧ done (job (cancel c)) = true
         ∧ (done (job c) = true →
              events (job (cancel c)) = events (job c)
              ∧ results (job (cancel c)) = results (job c)
              ∧ processed (job (cancel c)) = processed (job c))
         ∧ (done (job c) = false →
              events (job (cancel c)) = events (job c) ++ [Failed "cancelled"])).
Proof.
  intros [H1 H2]%registry_ok_serving. split.
  - intros Hj. unfold post_check_cancel, jobs_get. by rewrite Hj.
  - intros a Hj. destruct (lookup_lt_is_Some_2 (heap σ) a (H1 _ _ Hj)) as [c Hc].
    exists c. split; [done|].
    assert (jobs_get jobId σ = Some (a, c)) as Hg by (by apply jobs_get_Some).
    unfold post_check_cancel. rewrite Hg. cbn.
    split; [done|]. split.
    { apply list_lookup_insert_eq. by eapply lookup_lt_Some. }
    split; [done|]. unfold cancel. cbn.
    destruct (done (job c)) eqn:Hd; cbn; by repeat split.
Qed.

(** An unknown id, then the id of a job cancelled before. *)
Lemma cancel_answers_whether_the_job_is_known_witness :
  let σ := (post_check_cancel "job-1"
              (post_check_job "job-1" [URL "example.com"] 5 empty_server).1).1 in
  serving σ
  ∧ post_check_cancel "job-0" σ = (σ, Json_ok false)
  ∧ (post_check_cancel "job-1" σ).2 = Json_ok true.
Proof.
  intros σ.
  assert (serving σ) as S.
  { exists [PostCheckJob "job-1" [URL "example.com"] 5; PostCheckCancel "job-1"].
    vm_compute; reflexivity. }
  split; [exact S|].
  destruct (cancel_answers_whether_the_job_is_known σ "job-0" S) as [H0 _].
  destruct (cancel_answers_whether_the_job_is_known σ "job-1" S) as [_ H1].
  split; [apply H0; vm_compute; reflexivity|].
  destruct (H1 0) as (c & _ & Hr & _); [vm_compute; reflexivity|exact Hr].
Defined.

(** ** The sitemap crawl: the claims *)

Lemma sitemap_batch_emitted l k b t u :
  l !! k = Some (Sitemap.Batch b t) → u ∈ b → u ∈ Sitemap.emitted l.
Proof.
  intros Hk Hu. unfold Sitemap.emitted. apply list_elem_of_bind.
  exists (Sitemap.Batch b t). split; [done|]. by eapply list_elem_of_lookup_2.
Qed.

Lemma sitemap_batches_disjoint l :
  NoDup (Sitemap.emitted l) →
  (∀ k b t, l !! k = Some (Sitemap.Batch b t) → NoDup b)
  ∧ (∀ k1 k2 b1 b2 t1 t2 u,
       l !! k1 = Some (Sitemap.Batch b1 t1) → l !! k2 = Some (Sitemap.Batch b2 t2) →
       u ∈ b1 → u ∈ b2 → k1 = k2).
Proof.
  induction l as [|e l IH]; intros N.
  - split; intros; by rewrite lookup_nil in *.
  - change (Sitemap.emitted (e :: l))
      with (match e with Sitemap.Batch urls _ => urls | _ => [] end ++ Sitemap.emitted l) in N.
    apply NoDup_app in N as (N1 & N2 & N3). destruct (IH N3) as [IH1 IH2]. split.
    + intros [|k] b t Hk; cbn in Hk; [by simplify_eq|by eapply IH1].
    + intros [|k1] [|k2] b1 b2 t1 t2 u H1 H2 U1 U2; cbn in H1, H2; simplify_eq.
      * done.
      * destruct (N2 u U1). by eapply sitemap_batch_emitted.
      * destruct (N2 u U2). by eapply sitemap_batch_emitted.
      * f_equal. by eapply IH2.
Qed.

(** C7. In every state of every crawl: no URL was passed twice to the fetch
    of a sitemap document; no page URL occurs twice in a batch, nor in two
    batches; and when [done] was sent, the queue is empty and the total that
    [done] carries is the number of distinct page URLs of all batches. *)
Theorem crawl_never_repeats new_URL s :
  Sitemap.reachable new_URL s →
  NoDup (Sitemap.fetches s)
  ∧ (∀ k b t, Sitemap.sent s !! k = Some (Sitemap.Batch b t) → NoDup b)
  ∧ (∀ k1 k2 b1 b2 t1 t2 u,
       Sitemap.sent s !! k1 = Some (Sitemap.Batch b1 t1) →
       Sitemap.sent s !! k2 = Some (Sitemap.Batch b2 t2) →
       u ∈ b1 → u ∈ b2 → k1 = k2)
  ∧ (∀ t, Sitemap.Done t ∈ Sitemap.sent s →
       Sitemap.queue s = []
       ∧ t = size (list_to_set (Sitemap.emitted (Sitemap.sent s)) : gset string)).
Proof.
  intros [I1 I2 I3 I4 I5 I6 I7]%sitemap_reachable_invariant.
  destruct (sitemap_batches_disjoint _ I3) as [B1 B2].
  split; [done|]. split; [done|]. split; [done|].
  intros t Ht. destruct (I7 t Ht) as (-> & Hq & _). split; [done|].
  by rewrite size_list_to_set.
Qed.

(** The root lists two sitemaps, one of them twice; the first has pages
    [p1], [p2] and the second [p2], [p3]. *)
Lemma crawl_never_repeats_witness :
  let ops := [served [] ["http://x.org/a.xml"; "http://x.org/b.xml"; "http://x.org/a.xml"];
              served ["p1"; "p2"] []; served ["p2"; "p3"] []] in
  let s := default (Sitemap.start toy_URL None 5)
             (Sitemap.run ops (Sitemap.start toy_URL (Some "http://x.org/sitemap.xml") 5)) in
  Sitemap.reachable toy_URL s
  ∧ Sitemap.sent s = [Sitemap.Batch ["p1"; "p2"] 2; Sitemap.Batch ["p3"] 3; Sitemap.Done 3]
  ∧ Sitemap.fetches s = ["http://x.org/sitemap.xml"; "http://x.org/a.xml"; "http://x.org/b.xml"]
  ∧ (NoDup (Sitemap.fetches s)
     ∧ (∀ k b t, Sitemap.sent s !! k = Some (Sitemap.Batch b t) → NoDup b)
     ∧ (∀ k1 k2 b1 b2 t1 t2 u,
          Sitemap.sent s !! k1 = Some (Sitemap.Batch b1 t1) →
          Sitemap.sent s !! k2 = Some (Sitemap.Batch b2 t2) →
          u ∈ b1 → u ∈ b2 → k1 = k2)
     ∧ (∀ t, Sitemap.Done t ∈ Sitemap.sent s →
          Sitemap.queue s = []
          ∧ t = size (list_to_set (Sitemap.emitted (Sitemap.sent s)) : gset string))).
Proof.
  intros ops s.
  assert (Sitemap.reachable toy_URL s) as R.
  { exists (Some "http://x.org/sitemap.xml"), 5, ops. vm_compute; reflexivity. }
  split; [exact R|]. split; [vm_compute; reflexivity|]. split; [vm_compute; reflexivity|].
  apply (crawl_never_repeats toy_URL s R).
Defined.

Lemma sitemap_returned_run ops s s' :
  Sitemap.pc s = Sitemap.Returned → Sitemap.run ops s = Some s' →
  Sitemap.sent s' = Sitemap.sent s ∧ Sitemap.fetches s' = Sitemap.fetches s
  ∧ Sitemap.queue s' = Sitemap.queue s
  ∧ Sitemap.visitedSitemaps s' = Sitemap.visitedSitemaps s
  ∧ Sitemap.ended s' = Sitemap.ended s ∧ Sitemap.pc s' = Sitemap.Returned
  ∧ Forall (λ o, o = Sitemap.Disconnect) ops.
Proof.
  revert s. induction ops as [|o ops IH]; intros s Hpc H; cbn in H.
  - simplify_eq. by repeat split.
  - destruct o as [io|]; cbn in H.
    + unfold Sitemap.respond in H. by rewrite Hpc in H.
    + destruct (IH (Sitemap.disconnect s) Hpc H) as (-> & -> & -> & -> & -> & -> & F).
      repeat split; try done. by constructor.
Qed.

Lemma sitemap_failed_count l msg :
  Forall (λ e, Sitemap.is_batch e = true) l →
  length (filter (λ e, Sitemap.is_failed e = true) (l ++ [Sitemap.Failed msg])) = 1
  ∧ ∀ t, Sitemap.Done t ∉ l ++ [Sitemap.Failed msg].
Proof.
  intros F. split.
  - rewrite filter_app, length_app.
    assert (filter (λ e, Sitemap.is_failed e = true) l = []) as ->.
    { induction F as [|e l He F IH]; [done|].
      rewrite filter_cons_False; [done|]. by destruct e. }
    done.
  - intros t [H|H%list_elem_of_singleton]%elem_of_app; [|done].
    by destruct (sitemap_emitted_batches _ F t).
Qed.

(** C8. When the fetch of a sitemap document throws (network error,
    timeout) or answers with a status that is not ok, the crawl sends one
    [failed] event, the only one of the stream, ends the response and
    returns: whatever follows, nothing more is sent, so no [done]; nothing
    more is taken from the queue or fetched; and the only thing that can
    still happen to the crawl is the closing of the request. *)
Theorem failed_fetch_aborts_crawl new_URL s u depth io ops s' :
  Sitemap.reachable new_URL s →
  Sitemap.pc s = Sitemap.Fetching u depth →
  (∃ e, io = Sitemap.FetchThrows e) ∨ (∃ st body, io = Sitemap.Response false st body) →
  Sitemap.run (Sitemap.Respond io :: ops) s = Some s' →
  (∃ msg, Sitemap.sent s' = Sitemap.sent s ++ [Sitemap.Failed msg])
  ∧ length (filter (λ e, Sitemap.is_failed e = true) (Sitemap.sent s')) = 1
  ∧ (∀ t, Sitemap.Done t ∉ Sitemap.sent s')
  ∧ Sitemap.fetches s' = Sitemap.fetches s
  ∧ Sitemap.queue s' = Sitemap.queue s
  ∧ Sitemap.visitedSitemaps s' = Sitemap.visitedSitemaps s
  ∧ Sitemap.ended s' = true
  ∧ Sitemap.pc s' = Sitemap.Returned
  ∧ Forall (λ o, o = Sitemap.Disconnect) ops.
Proof.
  intros R Hpc Hio Hrun.
  pose proof (sitemap_reachable_invariant _ _ R) as I.
  destruct (Sitemap.inv_running s I _ _ Hpc) as [Hb _].
  assert (∃ msg, Sitemap.run ops (Sitemap.fail msg s) = Some s') as [msg Hrun'].
  { cbn in Hrun. unfold Sitemap.respond in Hrun. rewrite Hpc in Hrun.
    destruct Hio as [[e ->]|(st & body & ->)]; by eexists. }
  destruct (sitemap_returned_run ops (Sitemap.fail msg s) s' eq_refl Hrun') as (Hs & Hf & Hq & Hv & He & Hp & F).
  cbn in Hs, Hf, Hq, Hv, He.
  destruct (sitemap_failed_count _ msg Hb) as [Hc Hd].
  rewrite Hs. split; [by exists msg|]. by repeat split.
Qed.

(** The root is served; the fetch of the nested sitemap answers 503; the
    request is closed afterwards. *)
Lemma failed_fetch_aborts_crawl_witness :
  let s := default (Sitemap.start toy_URL None 5)
             (Sitemap.run [served ["p1"] ["http://x.org/a.xml"; "http://x.org/b.xml"]]
                (Sitemap.start toy_URL (Some "http://x.org/sitemap.xml") 5)) in
  let io := Sitemap.Response false 503 (Sitemap.Xml {| Sitemap.url_locs := []; Sitemap.sitemap_locs := [] |}) in
  let s' := default s (Sitemap.run [Sitemap.Respond io; Sitemap.Disconnect] s) in
  Sitemap.reachable toy_URL s
  ∧ Sitemap.pc s = Sitemap.Fetching "http://x.org/a.xml" 1
  ∧ Sitemap.run [Sitemap.Respond io; Sitemap.Disconnect] s = Some s'
  ∧ Sitemap.sent s' = [Sitemap.Batch ["p1"] 1; Sitemap.Failed "sitemap fetch failed: 503"]
  ∧ ((∃ msg, Sitemap.sent s' = Sitemap.sent s ++ [Sitemap.Failed msg])
     ∧ length (filter (λ e, Sitemap.is_failed e = true) (Sitemap.sent s')) = 1
     ∧ (∀ t, Sitemap.Done t ∉ Sitemap.sent s')
     ∧ Sitemap.fetches s' = Sitemap.fetches s
     ∧ Sitemap.queue s' = Sitemap.queue s
     ∧ Sitemap.visitedSitemaps s' = Sitemap.visitedSitemaps s
     ∧ Sitemap.ended s' = true
     ∧ Sitemap.pc s' = Sitemap.Returned
     ∧ Forall (λ o, o = Sitemap.Disconnect) [Sitemap.Disconnect]).
Proof.
  intros s io s'.
  assert (Sitemap.reachable toy_URL s) as R.
  { exists (Some "http://x.org/sitemap.xml"), 5,
      [served ["p1"] ["http://x.org/a.xml"; "http://x.org/b.xml"]]. vm_compute; reflexivity. }
  split; [exact R|]. split; [vm_compute; reflexivity|]. split; [vm_compute; reflexivity|]. split; [vm_compute; reflexivity|].
  apply (failed_fetch_aborts_crawl toy_URL s "http://x.org/a.xml" 1 io [Sitemap.Disconnect] s' R).
  - vm_compute; reflexivity.
  - right. by eexists _, _.
  - vm_compute; reflexivity.
Defined.

(** C10. When the [url] parameter is empty after trimming, or the [URL]
    constructor throws on it, or the protocol it yields is neither [http:]
    nor [https:], the stream consists of one [failed] event and is ended;
    whatever follows, no batch and no [done] is sent and nothing is ever
    fetched. *)
Theorem invalid_root_fails_at_once new_URL query depth ops s :
  Js.trim (default "" query) = ""
  ∨ new_URL (Js.trim (default "" query)) = None
  ∨ (∃ parsed, new_URL (Js.trim (default "" query)) = Some parsed
       ∧ Sitemap.protocol parsed ≠ "http:" ∧ Sitemap.protocol parsed ≠ "https:") →
  Sitemap.run ops (Sitemap.start new_URL query depth) = Some s →
  (∃ msg, Sitemap.sent s = [Sitemap.Failed msg])
  ∧ Sitemap.ended s = true
  ∧ Sitemap.fetches s = []
  ∧ Sitemap.pc s = Sitemap.Returned.
Proof.
  intros H Hrun.
  assert (∃ msg blank, Sitemap.start new_URL query depth = Sitemap.fail msg blank
            ∧ Sitemap.sent blank = [] ∧ Sitemap.fetches blank = []) as (msg & b & Hst & Hs & Hf).
  { unfold Sitemap.start. case_bool_decide as He; [by eexists _, _|].
    destruct H as [H|[H|(parsed & H & Hp1 & Hp2)]]; [done| |]; rewrite H.
    - by eexists _, _.
    - unfold Sitemap.http_protocol.
      rewrite !bool_decide_eq_false_2 by done. by eexists _, _. }
  rewrite Hst in Hrun.
  destruct (sitemap_returned_run ops (Sitemap.fail msg b) s eq_refl Hrun) as (-> & -> & _ & _ & -> & -> & _).
  cbn. rewrite Hs, Hf. split; [by exists msg|]. done.
Qed.

(** A root with the protocol [ftp:]. *)
Lemma invalid_root_fails_at_once_witness :
  let query := Some "  ftp://x.org/sitemap.xml " in
  let s := default (Sitemap.start toy_URL None 5)
             (Sitemap.run [Sitemap.Disconnect] (Sitemap.start toy_URL query 5)) in
  (∃ parsed, toy_URL (Js.trim (default "" query)) = Some parsed
       ∧ Sitemap.protocol parsed ≠ "http:" ∧ Sitemap.protocol parsed ≠ "https:")
  ∧ Sitemap.run [Sitemap.Disconnect] (Sitemap.start toy_URL query 5) = Some s
  ∧ ((∃ msg, Sitemap.sent s = [Sitemap.Failed msg])
     ∧ Sitemap.ended s = true
     ∧ Sitemap.fetches s = []
     ∧ Sitemap.pc s = Sitemap.Returned).
Proof.
  intros query s.
  assert (∃ parsed, toy_URL (Js.trim (default "" query)) = Some parsed
       ∧ Sitemap.protocol parsed ≠ "http:" ∧ Sitemap.protocol parsed ≠ "https:") as H.
  { eexists. split; [vm_compute; reflexivity|]. split; discriminate. }
  split; [exact H|]. split; [vm_compute; reflexivity|].
  apply (invalid_root_fails_at_once toy_URL query 5 [Sitemap.Disconnect] s).
  - right. right. exact H.
  - vm_compute; reflexivity.
Defined.

(* ===================================================================== *)
(** * Further properties of the code *)
(* ===================================================================== *)

(** ** checkUrl and the normalization of a URL *)

(** X1. The fields of a result agree with one another on every path through
    [checkUrl]: the URL is the one passed in, the response time is always
    set, [missingH1] is the negation of [hasH1], [hasH1] and [multipleH1]
    say that [h1Count] exceeds 0 and 1, [h1] is set exactly with [hasH1],
    [h1Length] is the length of [h1], and [title] is never the empty
    string. *)
Theorem checkUrl_fields_agree u io :
  url (checkUrl u io) = u
  ∧ responseTimeMs (checkUrl u io) = Some (t_end io - t_start io)%Z
  ∧ missingH1 (checkUrl u io) = negb (hasH1 (checkUrl u io))
  ∧ hasH1 (checkUrl u io) = bool_decide (0 < h1Count (checkUrl u io))
  ∧ multipleH1 (checkUrl u io) = bool_decide (1 < h1Count (checkUrl u io))
  ∧ (h1 (checkUrl u io) = None ↔ hasH1 (checkUrl u io) = false)
  ∧ h1Length (checkUrl u io) = String.length (default "" (h1 (checkUrl u io)))
  ∧ title (checkUrl u io) ≠ Some "".
Proof.
  unfold checkUrl.
  destruct (fetched io) as [e|res]; cbn; [by repeat split|].
  destruct (negb _); cbn; [by repeat split|].
  destruct (res_body res) as [e|p]; cbn; [by repeat split|].
  destruct (h1_texts p) as [|t ts]; cbn.
  - repeat split; try done. by destruct (Js.trim (title_text p)).
  - repeat split; try done. by destruct (Js.trim (title_text p)).
Qed.

(** X2. A result carries no error exactly when the fetch returned a response
    whose content type includes [text/html] and whose body could be read;
    a result that carries an error has the analysis fields of a page without
    heading, title, description and canonical link; and the status is
    missing exactly when the fetch itself threw. *)
Theorem checkUrl_error_iff u io :
  (error (checkUrl u io) = None ↔
     ∃ res p, fetched io = FetchReturns res
       ∧ Js.includes "text/html" (default "" (Js.truthy (content_type res))) = true
       ∧ res_body res = BodyText p)
  ∧ (is_Some (error (checkUrl u io)) →
       hasH1 (checkUrl u io) = false ∧ h1Count (checkUrl u io) = 0
       ∧ missingH1 (checkUrl u io) = true ∧ h1 (checkUrl u io) = None
       ∧ title (checkUrl u io) = None ∧ metaDescription (checkUrl u io) = None
       ∧ canonical (checkUrl u io) = None)
  ∧ (status (checkUrl u io) = None ↔ ∃ e, fetched io = FetchThrows e).
Proof.
  unfold checkUrl.
  destruct (fetched io) as [e|res]; cbn.
  { split; [|split].
    - split; [done|]. by intros (? & ? & ? & _).
    - done.
    - split; [by eexists|done]. }
  destruct (Js.includes _ _) eqn:Hct; cbn.
  - destruct (res_body res) as [e|p] eqn:Hb; cbn.
    + split; [|split].
      * split; [done|]. intros (? & ? & [= <-] & _ & ?). congruence.
      * done.
      * split; [done|]. by intros [? ?].
    + split; [|split].
      * split; [|done]. intros _. by exists res, p.
      * by intros [? ?].
      * split; [done|]. by intros [? ?].
  - split; [|split].
    + split; [done|]. intros (? & ? & [= <-] & ? & _). congruence.
    + done.
    + split; [done|]. by intros [? ?].
Qed.

(** X3. The normalization of line 210 yields a URL with a scheme, leaves a URL
    with a scheme alone, and is idempotent. *)
Theorem normalize_idempotent s :
  has_scheme (normalize s) = true
  ∧ (has_scheme s = true → normalize s = s)
  ∧ normalize (normalize s) = normalize s.
Proof.
  assert (has_scheme (normalize s) = true) as H.
  { unfold normalize. destruct (has_scheme s) eqn:E; [done|].
    clear E. by destruct s. }
  split; [done|]. split.
  - intros E. unfold normalize. by rewrite E.
  - unfold normalize at 1. by rewrite H.
Qed.

(** ** The log, the slots and the connections *)

Lemma progress_numbers_app l1 l2 :
  progress_numbers (l1 ++ l2) = progress_numbers l1 ++ progress_numbers l2.
Proof. apply omap_app. Qed.

Lemma progress_indexes_app l1 l2 :
  progress_indexes (l1 ++ l2) = progress_indexes l1 ++ progress_indexes l2.
Proof. apply omap_app. Qed.

Lemma progress_indexes_elem idx l :
  idx ∈ progress_indexes l ↔ ∃ r p t, Progress idx r p t ∈ l.
Proof.
  unfold progress_indexes. rewrite list_elem_of_omap. split.
  - intros (e & He & Hi). destruct e as [|idx' r p t| |]; simplify_eq.
    by exists r, p, t.
  - intros (r & p & t & H). by exists (Progress idx r p t).
Qed.

(** Appending an event that is not a [progress] changes nothing. *)
Lemma log_matches_slots_other c c' e :
  is_progress e = false →
  events (job c') = events (job c) ++ [e] → same_slots (job c) (job c') →
  log_matches_slots c → log_matches_slots c'.
Proof.
  intros He Hev (Hr & Hp & Ht) [L1 L2 L3 L4]. split; rewrite ?Hev, ?Hr, ?Hp, ?Ht.
  - rewrite progress_numbers_app, L1. destruct e; try done; by rewrite app_nil_r.
  - intros idx r p t [H|H%list_elem_of_singleton]%elem_of_app; [by apply (L2 _ _ _ _ H)|].
    by subst e.
  - intros idx r H. destruct (L3 idx r H) as [p Hp']. exists p.
    apply elem_of_app. by left.
  - rewrite progress_indexes_app. destruct e; try done; by rewrite app_nil_r.
Qed.

Lemma log_matches_slots_frame c c' :
  events (job c') = events (job c) → same_slots (job c) (job c') →
  log_matches_slots c → log_matches_slots c'.
Proof.
  intros Hev (Hr & Hp & Ht) [L1 L2 L3 L4].
  split; rewrite ?Hev, ?Hr, ?Hp, ?Ht; done.
Qed.

Lemma log_matches_slots_new uuid us concurrency :
  log_matches_slots (new_cell uuid us concurrency).
Proof.
  split; cbn.
  - done.
  - intros idx r p t H. by apply list_elem_of_singleton in H.
  - intros idx r H. apply lookup_replicate in H as [? _]. done.
  - constructor.
Qed.

Lemma log_matches_slots_step o c c' :
  step o c = Some c' → slots c → log_matches_slots c → log_matches_slots c'.
Proof.
  intros H S L. destruct o; cbn in H.
  - step_inv H; by apply (log_matches_slots_frame c).
  - step_inv H; [by apply (log_matches_slots_frame c)|].
    match goal with H : workers _ !! _ = Some _ |- _ => rename H into Hw end.
    match goal with H : cancelled _ = false |- _ => rename H into Hc end.
    destruct (sl_awaiting c S _ _ _ Hw) as (_ & Hr & _).
    assert (idx < length (results (job c))) as Hlen by (by eapply lookup_lt_Some).
    destruct L as [L1 L2 L3 L4].
    unfold onResult. cbn. rewrite Hc. cbn.
    split; cbn -[seq]; rewrite ?bool_decide_eq_true_2 by done.
    + rewrite progress_numbers_app, L1, seq_S. done.
    + intros idx' r p t [H|H%list_elem_of_singleton]%elem_of_app.
      * destruct (L2 _ _ _ _ H) as [-> Hs]. split; [done|].
        rewrite list_lookup_insert_ne; [done|]. congruence.
      * simplify_eq. split; [done|]. by apply list_lookup_insert_eq.
    + intros idx' r. destruct (decide (idx' = idx)) as [->|Hne].
      * rewrite list_lookup_insert_eq by done. intros [= <-].
        eexists. apply elem_of_app. right. by apply list_elem_of_singleton.
      * rewrite list_lookup_insert_ne by done. intros H.
        destruct (L3 _ _ H) as [p Hp]. exists p. apply elem_of_app. by left.
    + rewrite progress_indexes_app. cbn. apply NoDup_app. split; [done|].
      split; [|apply NoDup_singleton].
      intros idx' Hi ->%list_elem_of_singleton.
      apply progress_indexes_elem in Hi as (r & p & t & Hi).
      destruct (L2 _ _ _ _ Hi) as [_ Hs]. congruence.
  - step_inv H; cbn.
    + unfold on_rejected. cbn. destruct (done (job c)) eqn:Hd; cbn.
      * by apply (log_matches_slots_frame c).
      * eapply (log_matches_slots_other c); [|cbn; reflexivity|done|done]; done.
    + unfold on_fulfilled. cbn. destruct (done (job c)) eqn:Hd; cbn.
      * by apply (log_matches_slots_frame c).
      * destruct (cancelled (job c)); cbn.
        -- eapply (log_matches_slots_other c); [|cbn; reflexivity|done|done]; done.
        -- eapply (log_matches_slots_other c); [|cbn; reflexivity|done|done]; done.
  - simplify_eq. apply (log_matches_slots_frame c); [|apply same_slots_attach|done].
    unfold attach. by destruct (done (job c)).
  - simplify_eq. unfold cancel. cbn. destruct (done (job c)) eqn:Hd; cbn.
    + by apply (log_matches_slots_frame c).
    + eapply (log_matches_slots_other c); [|cbn; reflexivity|done|done]; done.
  - step_inv H. by apply (log_matches_slots_frame c).
  - step_inv H. by apply (log_matches_slots_frame c).
  - step_inv H. by apply (log_matches_slots_frame c).
Qed.

Lemma log_matches_slots_run ops c c' :
  run ops c = Some c' → invariant c → log_matches_slots c → log_matches_slots c'.
Proof.
  revert c. induction ops as [|o ops IH]; intros c H I L; cbn in H.
  - by simplify_eq.
  - destruct (step o c) as [c1|] eqn:E; [|done].
    eapply IH; [done|by eapply invariant_step|].
    eapply log_matches_slots_step; [done|by destruct I|done].
Qed.

(** X4. The [progress] events of the log count up from 1 to [processed]; each
    of them carries the total of the job and the result that is stored in
    the slot of its index; every stored result has its [progress] event; and
    no index has two [progress] events. *)
Theorem progress_events_mirror_the_slots uuid us concurrency ops c :
  run ops (new_cell uuid us concurrency) = Some c →
  progress_numbers (events (job c)) = seq 1 (processed (job c))
  ∧ (∀ idx r p t, Progress idx r p t ∈ events (job c) →
       t = length us ∧ results (job c) !! idx = Some (Some r))
  ∧ (∀ idx r, results (job c) !! idx = Some (Some r) →
       ∃ p, Progress idx r p (length us) ∈ events (job c))
  ∧ NoDup (progress_indexes (events (job c))).
Proof.
  intros Hrun.
  pose proof (log_matches_slots_run _ _ _ Hrun (invariant_new _ _ _)
                (log_matches_slots_new _ _ _)) as [L1 L2 L3 L4].
  destruct (run_constants _ _ _ Hrun) as (_ & Ht & _). cbn in Ht.
  rewrite <- Ht. split; [done|]. split; [|split; [done|done]].
  intros idx r p t H. by apply (L2 _ _ _ _ H).
Qed.

(** Two workers on two URLs, the second URL checked first. *)
Lemma progress_events_mirror_the_slots_witness :
  let ops := [Resume 0; Resume 1; Checked 1 pdf_file; Checked 0 html_page] in
  let c := default two_urls (run ops two_urls) in
  run ops two_urls = Some c
  ∧ progress_indexes (events (job c)) = [1; 0]
  ∧ (progress_numbers (events (job c)) = seq 1 (processed (job c))
     ∧ (∀ idx r p t, Progress idx r p t ∈ events (job c) →
          t = 2 ∧ results (job c) !! idx = Some (Some r))
     ∧ (∀ idx r, results (job c) !! idx = Some (Some r) →
          ∃ p, Progress idx r p 2 ∈ events (job c))
     ∧ NoDup (progress_indexes (events (job c)))).
Proof.
  intros ops c. split; [vm_compute; reflexivity|]. split; [vm_compute; reflexivity|].
  apply (progress_events_mirror_the_slots "job-1"
           [URL "example.com"; URL "https://b.org/doc.pdf"] 2 ops).
  vm_compute; reflexivity.
Defined.

Lemma follow_push e (j : Job) cs :
  (∀ k, k ∈ clients j → ∃ cn, cs !! k = Some cn ∧ ended cn = false ∧ heard cn = events j) →
  (∀ k cn, cs !! k = Some cn → heard cn `prefix_of` events j) →
  ∀ k cn, (pushJobEvent e (j, cs)).2 !! k = Some cn →
    heard cn `prefix_of` events (pushJobEvent e (j, cs)).1.
Proof.
  intros Hcl Hpre k cn. unfold pushJobEvent. cbn.
  assert (events (if terminal e then set_clients ∅ (set_events (events j ++ [e]) j)
                  else set_events (events j ++ [e]) j) = events j ++ [e]) as ->
    by (by destruct (terminal e)).
  rewrite fan_out_lookup. destruct (cs !! k) as [cn0|] eqn:Hk; [|done]. cbn.
  intros [= <-]. case_bool_decide as Hin.
  - destruct (Hcl k Hin) as (cn1 & Hk1 & He & Hh). simplify_eq.
    assert (heard (sendSse (Sent e) cn0) = events j ++ [e]) as Hs
      by (by rewrite heard_sendSse, Hh).
    destruct (terminal e); [rewrite heard_end_response|]; by rewrite Hs.
  - apply prefix_app_r. by eapply Hpre.
Qed.

Lemma conns_follow_log_step o c c' :
  step o c = Some c' → lifecycle (job c, conns c) →
  conns_follow_log c → conns_follow_log c'.
Proof.
  intros H L F. pose proof (lc_clients _ L) as Hcl. cbn in Hcl.
  unfold conns_follow_log in *. destruct o; cbn in H.
  - by step_inv H.
  - step_inv H; [done|]. cbn. unfold onResult. cbn.
    match goal with H : cancelled _ = false |- _ => rewrite H end.
    by apply follow_push.
  - step_inv H; cbn.
    + unfold on_rejected. cbn. destruct (done (job c)); [done|]. cbn.
      by apply (follow_push (Failed _) (set_done (job c))).
    + unfold on_fulfilled. cbn. destruct (done (job c)); [done|].
      destruct (cancelled (job c)); cbn.
      * by apply (follow_push (Failed _) (set_done (job c))).
      * by apply (follow_push (Done _ _) (set_done (job c))).
  - simplify_eq. unfold attach. destruct (done (job c)); cbn.
    + intros k cn [Hk|[_ Hk]]%lookup_app_Some; [by eapply F|].
      apply list_lookup_singleton_Some in Hk as [_ <-].
      unfold heard. cbn. by rewrite heard_replay.
    + intros k cn [Hk|[_ Hk]]%lookup_app_Some; [by eapply F|].
      apply list_lookup_singleton_Some in Hk as [_ <-].
      unfold heard. cbn. by rewrite heard_replay.
  - simplify_eq. unfold cancel. cbn. destruct (done (job c)); cbn; [done|].
    by apply (follow_push (Failed _) (set_done (set_cancelled (job c)))).
  - step_inv H. cbn.
    intros k' cn [(-> & <- & _)|[_ Hk]]%list_lookup_insert_Some; [|by eapply F].
    match goal with H : conns c !! _ = Some ?x |- _ => apply (F _ _ H) end.
  - step_inv H. cbn.
    intros k' cn [(-> & <- & _)|[_ Hk]]%list_lookup_insert_Some; [|by eapply F].
    match goal with H : conns c !! _ = Some ?x |- _ =>
      specialize (F _ _ H); unfold sendSse; destruct (ended x); [done|] end.
    unfold heard in *. cbn. rewrite omap_app. cbn. by rewrite app_nil_r.
  - by step_inv H.
Qed.

(** The log and the responses only grow. *)
Lemma step_appends o c c' :
  step o c = Some c' →
  events (job c) `prefix_of` events (job c')
  ∧ ∀ k cn, conns c !! k = Some cn →
      ∃ cn', conns c' !! k = Some cn' ∧ written cn `prefix_of` written cn'.
Proof.
  assert (∀ e (j : Job) cs,
    events j `prefix_of` events (pushJobEvent e (j, cs)).1
    ∧ ∀ k cn, cs !! k = Some cn →
        ∃ cn', (pushJobEvent e (j, cs)).2 !! k = Some cn'
          ∧ written cn `prefix_of` written cn') as Hpush.
  { intros e j cs. unfold pushJobEvent. cbn. split.
    - destruct (terminal e); cbn; by apply prefix_app_r.
    - intros k cn Hk. rewrite fan_out_lookup, Hk. cbn. eexists. split; [done|].
      case_bool_decide; [|done]. unfold sendSse.
      destruct (ended cn), (terminal e); cbn; try done; by apply prefix_app_r. }
  intros H. destruct o; cbn in H.
  - step_inv H; split; try done; intros k cn Hk; by exists cn.
  - step_inv H; cbn.
    + split; [done|]. intros k cn Hk. by exists cn.
    + unfold onResult. cbn.
      match goal with H : cancelled _ = false |- _ => rewrite H end.
      exact (Hpush (Progress idx (checkUrl u io) (S (processed (job c))) (total (job c)))
               (store idx (checkUrl u io) (job c)) (conns c)).
  - step_inv H; cbn.
    + unfold on_rejected. cbn. destruct (done (job c)); cbn.
      * split; [done|]. intros k cn Hk. by exists cn.
      * exact (Hpush (Failed (Js.message e)) (set_done (job c)) (conns c)).
    + unfold on_fulfilled. cbn. destruct (done (job c)); cbn.
      * split; [done|]. intros k cn Hk. by exists cn.
      * destruct (cancelled (job c)); cbn.
        -- exact (Hpush (Failed "cancelled") (set_done (job c)) (conns c)).
        -- exact (Hpush (Done (processed (job c)) (total (job c))) (set_done (job c)) (conns c)).
  - simplify_eq. unfold attach. destruct (done (job c)); cbn.
    + split; [done|]. intros k cn Hk. exists cn. split; [by apply lookup_app_l_Some|done].
    + split; [done|]. intros k cn Hk. exists cn. split; [by apply lookup_app_l_Some|done].
  - simplify_eq. unfold cancel. cbn. destruct (done (job c)); cbn.
    + split; [done|]. intros k cn Hk. by exists cn.
    + exact (Hpush (Failed "cancelled") (set_done (set_cancelled (job c))) (conns c)).
  - unfold close in H. destruct (conns c !! k) as [cn0|] eqn:Hk0; [|done].
    simplify_eq. cbn. split; [done|]. intros k' cn Hk.
    destruct (decide (k' = k)) as [->|Hne].
    + assert (cn = cn0) as -> by congruence. eexists.
      split; [apply list_lookup_insert_eq; by eapply lookup_lt_Some|]. done.
    + exists cn. by rewrite list_lookup_insert_ne.
  - unfold beat in H. destruct (conns c !! k) as [cn0|] eqn:Hk0; [|done].
    destruct (heartbeat cn0); [|done]. simplify_eq. cbn.
    split; [done|]. intros k' cn Hk.
    destruct (decide (k' = k)) as [->|Hne].
    + assert (cn = cn0) as -> by congruence. eexists.
      split; [apply list_lookup_insert_eq; by eapply lookup_lt_Some|].
      unfold sendSse. destruct (ended cn0); cbn; [done|]. by apply prefix_app_r.
    + exists cn. by rewrite list_lookup_insert_ne.
  - step_inv H. cbn. split; [done|]. intros k cn Hk. by exists cn.
Qed.

Lemma run_appends ops c c' :
  run ops c = Some c' →
  events (job c) `prefix_of` events (job c')
  ∧ ∀ k cn, conns c !! k = Some cn →
      ∃ cn', conns c' !! k = Some cn' ∧ written cn `prefix_of` written cn'.
Proof.
  revert c. induction ops as [|o ops IH]; intros c H; cbn in H.
  - simplify_eq. split; [done|]. intros k cn Hk. by exists cn.
  - destruct (step o c) as [c1|] eqn:E; [|done].
    destruct (step_appends _ _ _ E) as [H1 H2]. destruct (IH _ H) as [H3 H4].
    split; [by etrans|]. intros k cn Hk.
    destruct (H2 _ _ Hk) as (cn1 & Hk1 & Hp1).
    destruct (H4 _ _ Hk1) as (cn2 & Hk2 & Hp2).
    exists cn2. split; [done|]. by etrans.
Qed.

(** X5. In every state of every job, what any connection has received, its
    heartbeats left out, is a prefix of the log of the job: attached or not,
    open or closed, no connection has seen an event out of order, twice, or
    with a gap. And the log and the responses are append-only: a later state
    has the earlier log as a prefix, keeps every connection, and has added
    to what was written to it at most at its end. *)
Theorem connections_follow_the_log uuid us concurrency ops c :
  run ops (new_cell uuid us concurrency) = Some c →
  (∀ k cn, conns c !! k = Some cn → heard cn `prefix_of` events (job c))
  ∧ (∀ ops' c', run ops' c = Some c' →
       events (job c) `prefix_of` events (job c')
       ∧ ∀ k cn, conns c !! k = Some cn →
           ∃ cn', conns c' !! k = Some cn' ∧ written cn `prefix_of` written cn').
Proof.
  intros Hrun. split; [|intros ops' c'; apply run_appends].
  assert (∀ ops c0, run ops c0 = Some c → lifecycle (job c0, conns c0) →
            conns_follow_log c0 → conns_follow_log c) as Hind.
  { clear. intros ops. induction ops as [|o ops IH]; intros c0 H L F; cbn in H.
    - by simplify_eq.
    - destruct (step o c0) as [c1|] eqn:E; [|done].
      eapply IH; [done|by eapply lifecycle_step|by eapply conns_follow_log_step]. }
  apply (Hind _ _ Hrun (lifecycle_new _ _ _)).
  intros k cn Hk. cbn in Hk. unfold fan_out in Hk. cbn in Hk. done.
Qed.

(** An observer attaches, a result arrives, the observer closes its
    request, the other result arrives and the job completes. *)
Lemma connections_follow_the_log_witness :
  let ops := [Attach; Resume 0; Resume 1; Checked 1 pdf_file; Close 0;
              Checked 0 html_page; Resume 0; Resume 1; Settle] in
  let c := default two_urls (run ops two_urls) in
  run ops two_urls = Some c
  ∧ length (events (job c)) = 4
  ∧ (heard <$> conns c) = [take 2 (events (job c))]
  ∧ ((∀ k cn, conns c !! k = Some cn → heard cn `prefix_of` events (job c))
     ∧ (∀ ops' c', run ops' c = Some c' →
          events (job c) `prefix_of` events (job c')
          ∧ ∀ k cn, conns c !! k = Some cn →
              ∃ cn', conns c' !! k = Some cn' ∧ written cn `prefix_of` written cn')).
Proof.
  intros ops c. split; [vm_compute; reflexivity|]. split; [vm_compute; reflexivity|].
  split; [vm_compute; reflexivity|].
  apply (connections_follow_the_log "job-1"
           [URL "example.com"; URL "https://b.org/doc.pdf"] 2 ops).
  vm_compute; reflexivity.
Defined.

(** ** The pool: bounds, cancellation, termination *)





Lemma step_cancelled o c c' :
  step o c = Some c' → cancelled (job c) = true → cancelled (job c') = true.
Proof.
  intros H Hc. destruct o; step_inv H; cbn; try done; try congruence.
  - unfold on_rejected, pushJobEvent. cbn. by destruct (done (job c)).
  - unfold on_fulfilled, pushJobEvent. cbn. destruct (done (job c)); [done|].
    by rewrite Hc.
  - unfold attach. by destruct (done (job c)).
  - unfold cancel, pushJobEvent. cbn. by destruct (done (job c)).
Qed.

(** X7. Once the cancellation flag is set, the cursor stands still and no worker
    starts a check: the only checks in flight are those that were in flight
    before. *)
Theorem cancellation_stops_claims ops c c' :
  cancelled (job c) = true →
  run ops c = Some c' →
  i (pool c') = i (pool c)
  ∧ ∀ w idx u, workers (pool c') !! w = Some (Awaiting idx u) →
      workers (pool c) !! w = Some (Awaiting idx u).
Proof.
  intros Hc Hrun. revert c Hc Hrun.
  induction ops as [|o ops IH]; intros c Hc H; cbn in H; [by simplify_eq|].
  destruct (step o c) as [c1|] eqn:E; [|done].
  destruct (IH c1 (step_cancelled _ _ _ E Hc) H) as [Hi Hw].
  assert (i (pool c1) = i (pool c)
          ∧ ∀ w idx u, workers (pool c1) !! w = Some (Awaiting idx u) →
              workers (pool c) !! w = Some (Awaiting idx u)) as [Hi1 Hw1].
  { clear IH H Hi Hw. destruct o; step_inv E; cbn; try done; try congruence.
    - split; [done|].
      intros w' idx u [(_ & ? & _)|[_ ?]]%list_lookup_insert_Some; done.
    - split; [done|].
      intros w' idx' u' [(_ & ? & _)|[_ ?]]%list_lookup_insert_Some; done.
    - unfold attach. by destruct (done (job c)).
    - unfold cancel. cbn. by destruct (done (job c)). }
  split; [congruence|]. intros w idx u Hw'. by apply Hw1, Hw.
Qed.

(** Cancelled while one check is in flight: the other worker claims
    nothing. *)
Lemma cancellation_stops_claims_witness :
  let c := cancel (default two_urls (run [Resume 0] two_urls)) in
  let c' := default two_urls (run [Resume 1; Checked 0 html_page; Settle] c) in
  cancelled (job c) = true
  ∧ run [Resume 1; Checked 0 html_page; Settle] c = Some c'
  ∧ i (pool c') = 1
  ∧ (i (pool c') = i (pool c)
     ∧ ∀ w idx u, workers (pool c') !! w = Some (Awaiting idx u) →
         workers (pool c) !! w = Some (Awaiting idx u)).
Proof.
  intros c c'. split; [vm_compute; reflexivity|]. split; [vm_compute; reflexivity|].
  split; [vm_compute; reflexivity|].
  apply (cancellation_stops_claims [Resume 1; Checked 0 html_page; Settle] c c');
    vm_compute; reflexivity.
Defined.

Lemma sum_list_insert {A} (f : A → nat) (l : list A) w x y :
  l !! w = Some x →
  sum_list (f <$> <[w := y]> l) + f x = sum_list (f <$> l) + f y.
Proof.
  revert w. induction l as [|z l IH]; intros [|w] H; simplify_eq/=; [lia|].
  specialize (IH _ H). lia.
Qed.

Lemma weight_insert (l : list Worker) w x y :
  l !! w = Some x →
  sum_list (weight <$> <[w := y]> l) + weight x = sum_list (weight <$> l) + weight y.
Proof. apply sum_list_insert. Qed.

(** Every operation of the pool uses up some of the effort that is left;
    the other operations leave it alone. *)
Lemma effort_step o c c' :
  step o c = Some c' →
  if pool_op o then effort c' < effort c else effort c' = effort c.
Proof.
  intros H. unfold effort. destruct o; cbn [pool_op]; step_inv H; cbn.
  all: try match goal with H : workers _ !! _ = Some ?x |- context [<[_ := ?y]> _] =>
         pose proof (weight_insert _ _ _ y H) as Hw; cbn in Hw end.
  all: try match goal with H : urls _ !! _ = Some _ |- _ =>
         cbn in H; apply lookup_lt_Some in H end.
  all: try match goal with H : settled _ = false |- _ => rewrite H end.
  all: try lia.
  - unfold attach. by destruct (done (job c)).
  - unfold cancel. cbn. by destruct (done (job c)).
Qed.

(** X8. From the creation of a job on, its pool performs at most
    [2 * urls.length + workers + 1] operations: one claim and one completion
    for each URL, one last run of the loop for each worker, and the reaction
    on the promise. So [runStreaming] ends when the fetches complete. *)
Theorem pool_operations_are_bounded uuid us concurrency ops c :
  run ops (new_cell uuid us concurrency) = Some c →
  length (filter (λ o, pool_op o = true) ops) + effort c
  ≤ 2 * length us + worker_count concurrency (length us) + 1.
Proof.
  assert (∀ ops c0, run ops c0 = Some c →
            length (filter (λ o, pool_op o = true) ops) + effort c ≤ effort c0) as H.
  { clear. intros ops. induction ops as [|o ops IH]; intros c0 H; cbn in H.
    - simplify_eq. cbn [filter list_filter length]. lia.
    - destruct (step o c0) as [c1|] eqn:E; [|done].
      specialize (IH _ H). pose proof (effort_step _ _ _ E) as Hs.
      destruct (pool_op o) eqn:Ho.
      + rewrite filter_cons_True by done. cbn [length]. lia.
      + rewrite filter_cons_False by (by rewrite Ho). lia. }
  intros Hrun. specialize (H _ _ Hrun).
  assert (effort (new_cell uuid us concurrency)
          = 2 * length us + worker_count concurrency (length us) + 1) as <-; [|done].
  unfold effort. cbn. rewrite Nat.sub_0_r, Nat.add_0_r. do 2 f_equal.
  generalize (worker_count concurrency (length us)). intros n.
  induction n as [|n IH]; cbn; [done|]. by rewrite IH.
Qed.

(** A complete run of two workers on two URLs: seven operations of the
    pool, an attachment and a heartbeat. *)
Lemma pool_operations_are_bounded_witness :
  let us := [URL "example.com"; URL "https://b.org/doc.pdf"] in
  let ops := [Attach; Resume 0; Resume 1; Checked 1 pdf_file; Beat 0;
              Checked 0 html_page; Resume 0; Resume 1; Settle] in
  let c := default two_urls (run ops (new_cell "job-1" us 2)) in
  run ops (new_cell "job-1" us 2) = Some c
  ∧ length (filter (λ o, pool_op o = true) ops) = 7
  ∧ effort c = 0
  ∧ length (filter (λ o, pool_op o = true) ops) + effort c
    ≤ 2 * length us + worker_count 2 (length us) + 1.
Proof.
  intros us ops c. split; [vm_compute; reflexivity|]. split; [vm_compute; reflexivity|].
  split; [vm_compute; reflexivity|].
  apply (pool_operations_are_bounded "job-1" us 2 ops). vm_compute; reflexivity.
Defined.

Lemma pool_settles_new uuid us concurrency : pool_settles (new_cell uuid us concurrency).
Proof.
  split; cbn; try done.
  intros w e H. apply lookup_replicate in H as [? _]. done.
Qed.

Lemma pool_settles_step o c c' :
  step o c = Some c' → pool_settles c → pool_settles c'.
Proof.
  intros H [P1 P2 P3].
  assert (∀ w st (r : option Js.Error),
            (is_Some (rejection (pool c)) → is_Some r) →
            (∀ e, st = Rejected e → is_Some r) →
            ∀ w' e, <[w := st]> (workers (pool c)) !! w' = Some (Rejected e) →
              is_Some r) as Hins.
  { intros w st r Hr Hst w' e [(_ & ? & _)|[_ ?]]%list_lookup_insert_Some.
    - by eapply Hst.
    - by eapply Hr, P1. }
  destruct o; cbn in H.
  - step_inv H; split; cbn; try done.
    all: eapply Hins; cbn; try done; by eexists.
  - step_inv H.
    + split; cbn; try done. by eapply Hins.
    + match goal with H : cancelled _ = false |- _ => rename H into Hc end.
      unfold onResult. cbn. rewrite Hc. split; cbn; try done. by eapply Hins.
  - step_inv H.
    all: unfold on_rejected, on_fulfilled; cbn.
    all: destruct (done (job c)) eqn:Hd; [|try destruct (cancelled (job c))]; split; cbn.
    all: repeat match goal with Heq : ?x = _ |- context [?x] => rewrite Heq end.
    all: first [done | by split | by eapply P1].
  - simplify_eq. unfold attach. destruct (done (job c)) eqn:Hd; split; cbn; try done.
    all: rewrite ?Hd; first [done | by split].
  - simplify_eq. unfold cancel. cbn. destruct (done (job c)) eqn:Hd; split; cbn; try done.
    all: rewrite ?Hd; first [done | by split].
  - step_inv H. by split.
  - step_inv H. by split.
  - step_inv H. split; cbn; try done.
    match goal with H : cleanupTimer _ = Pending |- _ => rename H into Ht end.
    split; [done|]. intros Hd. apply P3 in Hd. congruence.
Qed.

Lemma pool_settles_run ops c c' :
  run ops c = Some c' → pool_settles c → pool_settles c'.
Proof.
  revert c. induction ops as [|o ops IH]; intros c H P; cbn in H.
  - by simplify_eq.
  - destruct (step o c) as [c1|] eqn:E; [|done].
    eapply IH; [done|]. by eapply pool_settles_step.
Qed.





(** ** The registry: creation, lookup, cancellation, eviction *)

Lemma cancel_cancel c : cancel (cancel c) = cancel c.
Proof.
  unfold cancel. cbn. destruct (done (job c)) eqn:Hd; cbn; [by rewrite Hd|].
  unfold pushJobEvent. cbn. done.
Qed.

(** X10. A cancellation that is repeated changes nothing and gets the answer of
    the first one. *)
Theorem cancel_twice_is_cancel_once jobId σ :
  post_check_cancel jobId (post_check_cancel jobId σ).1
  = ((post_check_cancel jobId σ).1, (post_check_cancel jobId σ).2).
Proof.
  unfold post_check_cancel at 2 3 4.
  destruct (jobs_get jobId σ) as [[a c]|] eqn:E; cbn.
  - apply jobs_get_Some in E as [Hj Hc].
    assert (jobs_get jobId (put a (cancel c) σ) = Some (a, cancel c)) as E'.
    { apply jobs_get_Some. split; [done|]. cbn.
      apply list_lookup_insert_eq. by eapply lookup_lt_Some. }
    unfold post_check_cancel. rewrite E'. f_equal.
    unfold put. cbn. by rewrite list_insert_insert_eq, cancel_cancel.
  - unfold post_check_cancel. by rewrite E.
Qed.

Lemma handle_continue a o σ σ' :
  handle (Continue a o) σ = Some σ' →
  ∃ c c', heap σ !! a = Some c ∧ step o c = Some c'
    ∧ σ' = {| heap := <[a := c']> (heap σ); jobs := after o c (jobs σ) |}.
Proof.
  intros H. cbn in H.
  destruct o; try done; destruct (heap σ !! a) as [c|]; cbn in H; try done;
    match type of H with
    | context [resume ?w c] => destruct (resume w c) as [c'|] eqn:E
    | context [checked ?w ?io c] => destruct (checked w io c) as [c'|] eqn:E
    | context [settle_pool c] => destruct (settle_pool c) as [c'|] eqn:E
    | context [close ?k c] => destruct (close k c) as [c'|] eqn:E
    | context [beat ?k c] => destruct (beat k c) as [c'|] eqn:E
    | context [expire c] => destruct (expire c) as [c'|] eqn:E
    end; cbn in H; simplify_eq; by eexists _, _.
Qed.

(** The cell of a job object evolves by the operations of a cell. *)
Lemma handle_cell inp σ σ' a c :
  handle inp σ = Some σ' → heap σ !! a = Some c →
  ∃ ops c', heap σ' !! a = Some c' ∧ run ops c = Some c'.
Proof.
  intros H Hc.
  assert (∀ a' c1 c1' o, heap σ !! a' = Some c1 → step o c1 = Some c1' →
            ∃ ops c', <[a' := c1']> (heap σ) !! a = Some c' ∧ run ops c = Some c') as Hput.
  { intros a' c1 c1' o H1 Hs. destruct (decide (a' = a)) as [->|Hne].
    - simplify_eq. exists [o], c1'. split.
      + apply list_lookup_insert_eq. by eapply lookup_lt_Some.
      + cbn. by rewrite Hs.
    - exists [], c. by rewrite list_lookup_insert_ne. }
  destruct inp as [uuid us n|q|jobId|a' o].
  - cbn in H. simplify_eq. exists [], c. split; [|done]. unfold post_check_job.
    destruct us; [done|]. cbn. by apply lookup_app_l_Some.
  - cbn in H. simplify_eq. unfold get_check_events.
    destruct (jobs_get (Js.trim q) σ) as [[a' c1]|] eqn:E; [|by exists [], c].
    apply jobs_get_Some in E as [_ H1]. by apply (Hput a' c1 _ Attach).
  - cbn in H. simplify_eq. unfold post_check_cancel.
    destruct (jobs_get jobId σ) as [[a' c1]|] eqn:E; [|by exists [], c].
    apply jobs_get_Some in E as [_ H1]. by apply (Hput a' c1 _ Cancel).
  - apply handle_continue in H as (c1 & c1' & H1 & Hs & ->). cbn.
    by eapply Hput.
Qed.

Lemma serve_cell inputs σ σ' a c :
  serve inputs σ = Some σ' → heap σ !! a = Some c →
  ∃ ops c', heap σ' !! a = Some c' ∧ run ops c = Some c'.
Proof.
  revert σ c. induction inputs as [|inp inputs IH]; intros σ c H Hc; cbn in H.
  - simplify_eq. by exists [], c.
  - destruct (handle inp σ) as [σ1|] eqn:E; [|done].
    destruct (handle_cell _ _ _ _ _ E Hc) as (ops1 & c1 & Hc1 & Hr1).
    destruct (IH _ _ H Hc1) as (ops2 & c2 & Hc2 & Hr2).
    exists (ops1 ++ ops2), c2. split; [done|]. by rewrite run_app, Hr1.
Qed.

(** The cleanup timer of a job fires only once. *)
Lemma fired_forever ops c c' :
  run ops c = Some c' → pool_settles c → cleanupTimer (job c) = Fired →
  cleanupTimer (job c') = Fired.
Proof.
  revert c. induction ops as [|o ops IH]; intros c H P Ht; cbn in H; [by simplify_eq|].
  destruct (step o c) as [c1|] eqn:E; [|done].
  apply (IH c1 H (pool_settles_step _ _ _ E P)).
  assert (done (job c) = true) as Hd.
  { destruct (done (job c)) eqn:Hd; [done|]. apply (ps_timer c P) in Hd. congruence. }
  clear IH H. destruct o; step_inv E; cbn; try done; try congruence.
  - unfold onResult. cbn. match goal with H : cancelled _ = false |- _ => by rewrite H end.
  - unfold on_rejected. cbn. by rewrite Hd.
  - unfold on_fulfilled. cbn. by rewrite Hd.
  - unfold attach. by rewrite Hd.
  - unfold cancel. cbn. by rewrite Hd.
Qed.

(** X11. When the cleanup timer of a job object fires, the job is terminal; its
    id is deleted from the registry, so that a cancellation with this id
    answers [{ok: false}] and a subscription to its events answers 404, both
    without changing anything; and the timer of this object never fires
    again. *)
Theorem evicted_job_is_terminal_and_unknown σ a σ' :
  serving σ →
  handle (Continue a Expire) σ = Some σ' →
  ∃ c, heap σ !! a = Some c
    ∧ done (job c) = true
    ∧ jobs σ' = delete (id (job c)) (jobs σ)
    ∧ post_check_cancel (id (job c)) σ' = (σ', Json_ok false)
    ∧ (∀ q, Js.trim q = id (job c) →
         get_check_events q σ' = (σ', Json_error 404 "job not found"))
    ∧ ∀ inputs σ'', serve inputs σ' = Some σ'' → handle (Continue a Expire) σ'' = None.
Proof.
  intros S H. pose proof (registry_ok_serving _ S) as [R1 R2].
  cbn in H. destruct (heap σ !! a) as [c|] eqn:Hc; [|done]. cbn in H.
  destruct (expire c) as [c'|] eqn:He; [|done]. cbn in H. simplify_eq.
  exists c. split; [done|].
  assert (reachable c) as (uuid & us & n & ops & Hrun) by (by eapply R2).
  pose proof (pool_settles_run _ _ _ Hrun (pool_settles_new _ _ _)) as P.
  assert (cleanupTimer (job c) = Pending) as Ht.
  { unfold expire in He. by destruct (cleanupTimer (job c)). }
  assert (done (job c) = true) as Hd.
  { destruct (done (job c)) eqn:Hd; [done|]. apply (ps_timer c P) in Hd. congruence. }
  split; [done|]. split; [done|].
  assert (∀ x, jobs_get (id (job c))
                 {| heap := x; jobs := delete (id (job c)) (jobs σ) |} = None) as Hg.
  { intros x. unfold jobs_get. cbn. by rewrite lookup_delete_eq. }
  split; [|split].
  - unfold post_check_cancel. by rewrite Hg.
  - intros q Hq. unfold get_check_events. by rewrite Hq, Hg.
  - intros inputs σ'' Hs.
    destruct (serve_cell inputs _ σ'' a c' Hs) as (ops' & c'' & Hc'' & Hr'').
    { cbn. apply list_lookup_insert_eq. by eapply lookup_lt_Some. }
    assert (cleanupTimer (job c'') = Fired) as Hf.
    { eapply fired_forever; [done|by eapply (pool_settles_step Expire c)|].
      unfold expire in He. rewrite Ht in He. by simplify_eq. }
    cbn. rewrite Hc''. cbn. unfold expire. by rewrite Hf.
Qed.

(** A job is created, cancelled and evicted. *)
Lemma evicted_job_is_terminal_and_unknown_witness :
  let σ := (post_check_cancel "job-1"
              (post_check_job "job-1" [URL "example.com"] 5 empty_server).1).1 in
  let σ' := default σ (handle (Continue 0 Expire) σ) in
  serving σ
  ∧ handle (Continue 0 Expire) σ = Some σ'
  ∧ jobs σ' = ∅
  ∧ ∃ c, heap σ !! 0 = Some c
      ∧ done (job c) = true
      ∧ jobs σ' = delete (id (job c)) (jobs σ)
      ∧ post_check_cancel (id (job c)) σ' = (σ', Json_ok false)
      ∧ (∀ q, Js.trim q = id (job c) →
           get_check_events q σ' = (σ', Json_error 404 "job not found"))
      ∧ ∀ inputs σ'', serve inputs σ' = Some σ'' → handle (Continue 0 Expire) σ'' = None.
Proof.
  intros σ σ'.
  assert (serving σ) as S.
  { exists [PostCheckJob "job-1" [URL "example.com"] 5; PostCheckCancel "job-1"].
    vm_compute; reflexivity. }
  split; [exact S|]. split; [vm_compute; reflexivity|]. split; [vm_compute; reflexivity|].
  apply (evicted_job_is_terminal_and_unknown σ 0 σ' S). vm_compute; reflexivity.
Defined.

Lemma ids_handle inp σ σ' :
  handle inp σ = Some σ' → registry_ok σ →
  (∀ jobId a c, jobs_get jobId σ = Some (a, c) → id (job c) = jobId) →
  ∀ jobId a c, jobs_get jobId σ' = Some (a, c) → id (job c) = jobId.
Proof.
  intros H [R1 R2] I jobId a c Hg. apply jobs_get_Some in Hg as [Hj Hc].
  assert (∀ a' c1 c1' x, heap σ !! a' = Some c1 → id (job c1') = id (job c1) →
            jobs σ !! jobId = Some a → <[a' := c1']> (heap σ) !! a = Some x →
            id (job x) = jobId) as Hput.
  { intros a' c1 c1' x H1 Hid Hj' [(-> & <- & _)|[_ Hx]]%list_lookup_insert_Some.
    - rewrite Hid. apply (I jobId a c1). by apply jobs_get_Some.
    - apply (I jobId a x). by apply jobs_get_Some. }
  destruct inp as [uuid us n|q|jobId'|a' o].
  - cbn in H. simplify_eq. unfold post_check_job in Hj, Hc.
    destruct us as [|u us]; [apply (I jobId a c); by apply jobs_get_Some|].
    cbn in Hj, Hc. apply lookup_insert_Some in Hj as [[-> <-]|[Hne Hj]].
    + rewrite list_lookup_middle in Hc by done. by simplify_eq.
    + rewrite lookup_app_l in Hc by (by eapply R1).
      apply (I jobId a c). by apply jobs_get_Some.
  - cbn in H. simplify_eq. unfold get_check_events in Hj, Hc.
    destruct (jobs_get (Js.trim q) σ) as [[a' c1]|] eqn:E;
      [|apply (I jobId a c); by apply jobs_get_Some].
    apply jobs_get_Some in E as [_ H1]. apply (Hput a' c1 (attach c1) c); try done.
    by destruct (step_constants Attach c1 (attach c1) eq_refl) as (_ & _ & ?).
  - cbn in H. simplify_eq. unfold post_check_cancel in Hj, Hc.
    destruct (jobs_get jobId' σ) as [[a' c1]|] eqn:E;
      [|apply (I jobId a c); by apply jobs_get_Some].
    apply jobs_get_Some in E as [_ H1]. apply (Hput a' c1 (cancel c1) c); try done.
    by destruct (step_constants Cancel c1 (cancel c1) eq_refl) as (_ & _ & ?).
  - apply handle_continue in H as (c1 & c1' & H1 & Hs & ->). cbn in Hj, Hc.
    apply (Hput a' c1 c1' c); try done.
    + by destruct (step_constants _ _ _ Hs) as (_ & _ & ?).
    + destruct o; cbn in Hj; try done. by apply lookup_delete_Some in Hj as [_ ?].
Qed.

Lemma ids_serving σ jobId a c :
  serving σ → jobs_get jobId σ = Some (a, c) → id (job c) = jobId.
Proof.
  intros [inputs H]. revert jobId a c.
  assert (∀ jobId a c, jobs_get jobId empty_server = Some (a, c) → id (job c) = jobId) as I
    by done.
  assert (registry_ok empty_server) as R.
  { apply registry_ok_serving. by exists []. }
  revert H I R. generalize empty_server.
  induction inputs as [|inp inputs IH]; intros σ0 H I R; cbn in H; [by simplify_eq|].
  destruct (handle inp σ0) as [σ1|] eqn:E; [|done].
  eapply IH; [done| |by eapply registry_ok_handle]. by eapply ids_handle.
Qed.

(** X12. A request to create a job with an empty list is answered 400 and
    changes nothing. A request with a list that is not empty is answered
    with the id and the total; the id then looks up the new job, whose log
    is the [start] event; every other id looks up what it did before; and no
    job object is lost. Whatever an id looks up is a job with that id. *)
Theorem check_job_registers_the_job σ uuid us concurrency :
  serving σ →
  (us = [] →
     post_check_job uuid us concurrency σ
     = (σ, Json_error 400 "urls must be a non-empty array"))
  ∧ (us ≠ [] →
       (post_check_job uuid us concurrency σ).2 = Json_job uuid (length us)
       ∧ jobs_get uuid (post_check_job uuid us concurrency σ).1
         = Some (length (heap σ), new_cell uuid us concurrency)
       ∧ events (job (new_cell uuid us concurrency)) = [Start (length us)]
       ∧ (∀ jobId, jobId ≠ uuid →
            jobs_get jobId (post_check_job uuid us concurrency σ).1 = jobs_get jobId σ)
       ∧ (∀ a c, heap σ !! a = Some c →
            heap (post_check_job uuid us concurrency σ).1 !! a = Some c))
  ∧ (∀ jobId a c, jobs_get jobId σ = Some (a, c) → id (job c) = jobId).
Proof.
  intros S. pose proof (registry_ok_serving _ S) as [R1 R2].
  split; [by intros ->|]. split; [|intros jobId a c; by apply ids_serving].
  intros Hne. unfold post_check_job. destruct us as [|u us]; [done|]. cbn.
  split; [done|]. split; [|split; [done|split]].
  - unfold jobs_get. cbn. rewrite lookup_insert_eq. cbn.
    by rewrite list_lookup_middle.
  - intros jobId Hj. unfold jobs_get. cbn. rewrite lookup_insert_ne by done.
    destruct (jobs σ !! jobId) as [a|] eqn:Ha; cbn; [|done].
    by rewrite lookup_app_l by (by eapply R1).
  - intros a c Hc. by apply lookup_app_l_Some.
Qed.

(** A second job is created beside a first one. *)
Lemma check_job_registers_the_job_witness :
  let σ := (post_check_job "job-1" [URL "example.com"] 5 empty_server).1 in
  let σ' := (post_check_job "job-2" [URL "a.org"; URL "b.org"] 1 σ).1 in
  serving σ
  ∧ (post_check_job "job-2" [URL "a.org"; URL "b.org"] 1 σ).2 = Json_job "job-2" 2
  ∧ jobs_get "job-2" σ' = Some (1, new_cell "job-2" [URL "a.org"; URL "b.org"] 1)
  ∧ jobs_get "job-1" σ' = jobs_get "job-1" σ.
Proof.
  intros σ σ'.
  assert (serving σ) as S.
  { exists [PostCheckJob "job-1" [URL "example.com"] 5]. vm_compute; reflexivity. }
  split; [exact S|].
  destruct (check_job_registers_the_job σ "job-2" [URL "a.org"; URL "b.org"] 1 S)
    as (_ & H & _).
  destruct H as (H1 & H2 & _ & H4 & _); [discriminate|].
  split; [exact H1|]. split; [exact H2|]. apply H4. discriminate.
Defined.

(** ** The sitemap crawl: depth, batches, closing, shape of the stream *)






(** What the loop head may change of the stream and of the fetches. *)
Lemma sitemap_loop_effect q s :
  (Sitemap.sent (Sitemap.loop q s) = Sitemap.sent s
   ∧ Sitemap.ended (Sitemap.loop q s) = Sitemap.ended s
   ∧ (Sitemap.closed s = true ∨ ∃ u d, Sitemap.pc (Sitemap.loop q s) = Sitemap.Fetching u d)
   ∨ Sitemap.sent (Sitemap.loop q s) = Sitemap.sent s ++ [Sitemap.Done (Sitemap.total s)]
     ∧ Sitemap.ended (Sitemap.loop q s) = true
     ∧ Sitemap.closed s = false
     ∧ Sitemap.fetches (Sitemap.loop q s) = Sitemap.fetches s)
  ∧ Sitemap.closed (Sitemap.loop q s) = Sitemap.closed s
  ∧ (Sitemap.closed s = true →
       Sitemap.pc (Sitemap.loop q s) = Sitemap.Returned
       ∧ Sitemap.fetches (Sitemap.loop q s) = Sitemap.fetches s)
  ∧ (Sitemap.pc (Sitemap.loop q s) = Sitemap.Returned ∨
     ∃ u d, Sitemap.pc (Sitemap.loop q s) = Sitemap.Fetching u d
            ∧ Sitemap.sent (Sitemap.loop q s) = Sitemap.sent s).
Proof.
  destruct (Sitemap.closed s) eqn:Hc.
  { rewrite sitemap_loop_closed by done. cbn. rewrite Hc.
    split; [left; by eauto|]. split; [done|]. split; [done|]. by left. }
  induction q as [|[u d] q IH].
  - rewrite sitemap_loop_done by done. cbn. rewrite Hc.
    split; [by right|]. split; [done|]. split; [done|]. by left.
  - destruct (decide (u ∈ Sitemap.visitedSitemaps s)).
    + by rewrite sitemap_loop_visited.
    + rewrite sitemap_loop_fetch by done. cbn. rewrite Hc.
      split; [left; split; [done|]; split; [done|]; right; by eexists _, _|].
      split; [done|]. split; [done|]. right. eexists _, _. by split.
Qed.

Lemma sitemap_chunks_bounds rounds n (l : list string) :
  0 < n → Forall (λ b, 1 ≤ length b ∧ length b ≤ n) (Sitemap.chunks rounds n l).
Proof.
  intros Hn. revert l. induction rounds as [|r IH]; intros l; [constructor|].
  destruct l as [|x l]; [constructor|].
  change (Sitemap.chunks (S r) n (x :: l))
    with (take n (x :: l) :: Sitemap.chunks r n (drop n (x :: l))).
  constructor; [|apply IH]. rewrite length_take. cbn. lia.
Qed.

Lemma sitemap_emit_lookup batches t0 k e :
  (Sitemap.emit batches t0).1 !! k = Some e →
  ∃ b, batches !! k = Some b
    ∧ e = Sitemap.Batch b (t0 + length (concat (take (S k) batches))).
Proof.
  revert t0 k. induction batches as [|b rest IH]; intros t0 k H; [done|].
  destruct k as [|k]; cbn in H.
  - simplify_eq. exists b. split; [done|]. cbn. by rewrite app_nil_r.
  - destruct (IH _ _ H) as (b' & Hb & ->). exists b'. split; [done|].
    f_equal. cbn [take concat]. rewrite length_app. lia.
Qed.

Lemma sitemap_emitted_take_emit j batches t0 :
  Sitemap.emitted (take j (Sitemap.emit batches t0).1) = concat (take j batches).
Proof.
  revert t0 j. induction batches as [|b rest IH]; intros t0 [|j]; cbn; try done.
  unfold Sitemap.emitted in *. cbn. by rewrite IH.
Qed.

Lemma batches_counted_emit l batches :
  batches_counted l →
  Forall (λ b, 1 ≤ length b ∧ length b ≤ Sitemap.chunkSize) batches →
  batches_counted (l ++ (Sitemap.emit batches (length (Sitemap.emitted l))).1).
Proof.
  intros Hl Hb k b t [Hk|[Hge Hk]]%lookup_app_Some.
  - destruct (Hl _ _ _ Hk) as (? & ? & ->). split; [done|]. split; [done|].
    rewrite take_app_le; [done|]. apply lookup_lt_Some in Hk. lia.
  - destruct (sitemap_emit_lookup _ _ _ _ Hk) as (b' & Hb' & [= <- ->]).
    rewrite Forall_forall in Hb.
    destruct (Hb b) as [? ?]; [by eapply list_elem_of_lookup_2|].
    split; [done|]. split; [done|].
    replace (S k) with (length l + S (k - length l)) by lia.
    rewrite take_app_add, sitemap_emitted_app, length_app, sitemap_emitted_take_emit.
    done.
Qed.

Lemma batches_counted_snoc l e :
  Sitemap.is_batch e = false → batches_counted l → batches_counted (l ++ [e]).
Proof.
  intros He Hl k b t [Hk|[Hge Hk]]%lookup_app_Some.
  - destruct (Hl _ _ _ Hk) as (? & ? & ->). split; [done|]. split; [done|].
    rewrite take_app_le; [done|]. apply lookup_lt_Some in Hk. lia.
  - apply list_lookup_singleton_Some in Hk as [_ ->]. done.
Qed.

Lemma batches_counted_step o s s' :
  Sitemap.step o s = Some s' → Sitemap.invariant s →
  batches_counted (Sitemap.sent s) → batches_counted (Sitemap.sent s').
Proof.
  intros H I B. destruct o as [io|]; cbn in H; [|by simplify_eq].
  unfold Sitemap.respond in H. destruct (Sitemap.pc s) as [u depth|] eqn:Hpc; [|done].
  destruct io as [e|[] st [e|e|d]]; simplify_eq; try by apply batches_counted_snoc.
  - unfold Sitemap.fail_unless_closed. destruct (Sitemap.closed s); [done|].
    by apply batches_counted_snoc.
  - unfold Sitemap.digest. cbn.
    set (new := Sitemap.fresh _ _). set (q := if bool_decide _ then _ else _).
    match goal with |- context [Sitemap.loop q ?x] => set (s1 := x) end.
    assert (batches_counted (Sitemap.sent s1)) as B1.
    { subst s1. cbn. rewrite (Sitemap.inv_total s I).
      apply batches_counted_emit; [done|].
      apply sitemap_chunks_bounds. unfold Sitemap.chunkSize. lia. }
    destruct (sitemap_loop_effect q s1) as ([(-> & _)|(-> & _)] & _); [done|].
    by apply batches_counted_snoc.
Qed.

(** X14. Every batch of every crawl has at least one and at most 200 URLs, and
    the total it carries is the number of page URLs of all batches up to and
    including itself. *)
Theorem batches_are_bounded_and_counted new_URL s :
  Sitemap.reachable new_URL s →
  ∀ k b t, Sitemap.sent s !! k = Some (Sitemap.Batch b t) →
    1 ≤ length b ∧ length b ≤ 200
    ∧ t = length (Sitemap.emitted (take (S k) (Sitemap.sent s))).
Proof.
  intros (query & depth & ops & Hrun).
  assert (batches_counted []) as Hnil.
  { intros k ?? Hk. by rewrite lookup_nil in Hk. }
  assert (batches_counted (Sitemap.sent (Sitemap.start new_URL query depth))) as B.
  { unfold Sitemap.start. case_bool_decide; [by apply (batches_counted_snoc [])|].
    destruct (new_URL _) as [parsed|]; [|by apply (batches_counted_snoc [])].
    destruct (Sitemap.http_protocol _); [|by apply (batches_counted_snoc [])].
    match goal with |- context [Sitemap.loop ?q ?x] =>
      destruct (sitemap_loop_effect q x) as ([(-> & _)|(-> & _)] & _) end.
    - exact Hnil.
    - by apply (batches_counted_snoc []). }
  pose proof (sitemap_start_invariant new_URL query depth) as I.
  revert Hrun I B. generalize (Sitemap.start new_URL query depth).
  induction ops as [|o ops IH]; intros s0 H I B; cbn in H; [by simplify_eq|].
  destruct (Sitemap.step o s0) as [s1|] eqn:E; [|done].
  eapply IH; [done|by eapply sitemap_step_invariant|by eapply batches_counted_step].
Qed.

(** A sitemap with 450 pages is sent in batches of 200, 200 and 50. *)
Lemma batches_are_bounded_and_counted_witness :
  let pages := (λ n, pretty n) <$> seq 0 450 in
  let s := default (Sitemap.start toy_URL None 5)
             (Sitemap.run [served pages []]
                (Sitemap.start toy_URL (Some "http://x.org/sitemap.xml") 5)) in
  Sitemap.reachable toy_URL s
  ∧ (length <$> (Sitemap.sent s ≫= λ e, match e with Sitemap.Batch b _ => [b] | _ => [] end))
    = [200; 200; 50]
  ∧ ∀ k b t, Sitemap.sent s !! k = Some (Sitemap.Batch b t) →
      1 ≤ length b ∧ length b ≤ 200
      ∧ t = length (Sitemap.emitted (take (S k) (Sitemap.sent s))).
Proof.
  intros pages s.
  assert (Sitemap.reachable toy_URL s) as R.
  { exists (Some "http://x.org/sitemap.xml"), 5, [served pages []]. vm_compute; reflexivity. }
  split; [exact R|]. split; [vm_compute; reflexivity|].
  apply (batches_are_bounded_and_counted toy_URL s R).
Defined.

Lemma sitemap_respond_closed io s s' :
  Sitemap.respond io s = Some s' → Sitemap.closed s = true →
  Sitemap.pc s' = Sitemap.Returned ∧ Sitemap.closed s' = true
  ∧ Sitemap.fetches s' = Sitemap.fetches s
  ∧ ∀ t, Sitemap.Done t ∈ Sitemap.sent s' → Sitemap.Done t ∈ Sitemap.sent s.
Proof.
  intros H Hc. unfold Sitemap.respond in H.
  destruct (Sitemap.pc s) as [u depth|]; [|done].
  assert (∀ msg t, Sitemap.Done t ∈ Sitemap.sent (Sitemap.fail msg s) →
            Sitemap.Done t ∈ Sitemap.sent s) as Hf.
  { intros msg t [?|?%list_elem_of_singleton]%elem_of_app; done. }
  destruct io as [e|[] st [e|e|d]]; simplify_eq; try (by repeat split; try apply Hf).
  - unfold Sitemap.fail_unless_closed. rewrite Hc. by repeat split.
  - unfold Sitemap.digest. cbn.
    match goal with |- context [Sitemap.loop ?q ?x] =>
      destruct (sitemap_loop_effect q x) as (Hs & Hcl & Hret & _) end.
    destruct (Hret Hc) as [-> ->]. rewrite Hcl. cbn.
    split; [done|]. split; [done|]. split; [done|].
    destruct Hs as [(-> & _)|(_ & _ & ? & _)]; [|cbn in *; congruence]. cbn.
    intros t [?|Ht]%elem_of_app; [done|].
    match type of Ht with _ ∈ (Sitemap.emit ?b ?n).1 =>
      destruct (sitemap_emit_spec b n) as (_ & _ & F) end.
    by destruct (sitemap_emitted_batches _ F t).
Qed.

(** X15. Once the request is closed, no further sitemap document is fetched and
    no [done] is sent: at most the fetch that was pending completes, and the
    handler returns. *)
Theorem closed_request_stops_the_crawl ops s s' :
  Sitemap.closed s = true →
  Sitemap.run ops s = Some s' →
  Sitemap.fetches s' = Sitemap.fetches s
  ∧ (∀ t, Sitemap.Done t ∈ Sitemap.sent s' → Sitemap.Done t ∈ Sitemap.sent s)
  ∧ length (filter (λ o, is_respond o = true) ops) ≤ 1
  ∧ (0 < length (filter (λ o, is_respond o = true) ops) →
       Sitemap.pc s' = Sitemap.Returned).
Proof.
  intros Hc Hrun. revert s Hc Hrun.
  induction ops as [|o ops IH]; intros s Hc H; cbn in H.
  - simplify_eq. cbn. repeat split; try done; lia.
  - destruct (Sitemap.step o s) as [s1|] eqn:E; [|done].
    destruct o as [io|]; cbn in E.
    + destruct (sitemap_respond_closed _ _ _ E Hc) as (Hpc & Hc1 & Hf & Hd).
      destruct (sitemap_returned_run _ _ _ Hpc H) as (Hs & Hf' & _ & _ & _ & Hpc' & F).
      assert (filter (λ o, is_respond o = true) ops = []) as Hnil.
      { clear -F. induction F as [|o ops -> F IH]; [done|].
        by rewrite filter_cons_False. }
      rewrite filter_cons_True by done. rewrite Hnil. cbn.
      split; [congruence|]. split; [rewrite Hs; exact Hd|]. split; [lia|done].
    + simplify_eq. rewrite filter_cons_False by done.
      by apply (IH (Sitemap.disconnect s)).
Qed.

(** The request closes while the second sitemap is being fetched; its
    pages are still written, and the crawl stops there. *)
Lemma closed_request_stops_the_crawl_witness :
  let s := Sitemap.disconnect (default (Sitemap.start toy_URL None 5)
             (Sitemap.run [served [] ["http://x.org/a.xml"; "http://x.org/b.xml"]]
                (Sitemap.start toy_URL (Some "http://x.org/sitemap.xml") 5))) in
  let s' := default s (Sitemap.run [served ["p1"] []] s) in
  Sitemap.closed s = true
  ∧ Sitemap.run [served ["p1"] []] s = Some s'
  ∧ Sitemap.queue s' = [("http://x.org/b.xml", 1)]
  ∧ Sitemap.sent s' = [Sitemap.Batch ["p1"] 1]
  ∧ (Sitemap.fetches s' = Sitemap.fetches s
     ∧ (∀ t, Sitemap.Done t ∈ Sitemap.sent s' → Sitemap.Done t ∈ Sitemap.sent s)
     ∧ length (filter (λ o, is_respond o = true) [served ["p1"] []]) ≤ 1
     ∧ (0 < length (filter (λ o, is_respond o = true) [served ["p1"] []]) →
          Sitemap.pc s' = Sitemap.Returned)).
Proof.
  intros s s'. split; [vm_compute; reflexivity|]. split; [vm_compute; reflexivity|].
  split; [vm_compute; reflexivity|]. split; [vm_compute; reflexivity|].
  apply (closed_request_stops_the_crawl [served ["p1"] []] s s'); vm_compute; reflexivity.
Defined.

Lemma stream_shape_fail msg s :
  Forall (λ e, Sitemap.is_batch e = true) (Sitemap.sent s) →
  stream_shape (Sitemap.fail msg s).
Proof.
  intros F. split; cbn; try done. intros _. split; [done|].
  exists (Sitemap.sent s), (Sitemap.Failed msg). split; [done|]. split; [done|]. by right.
Qed.

Lemma stream_shape_loop q s :
  Forall (λ e, Sitemap.is_batch e = true) (Sitemap.sent s) →
  Sitemap.ended s = false →
  stream_shape (Sitemap.loop q s).
Proof.
  intros F He. destruct (Sitemap.closed s) eqn:Hc.
  { rewrite sitemap_loop_closed by done. split; cbn; try done. congruence. }
  induction q as [|[u d] q IH].
  - rewrite sitemap_loop_done by done. split; cbn; try done. intros _. split; [done|].
    exists (Sitemap.sent s), (Sitemap.Done (Sitemap.total s)).
    split; [done|]. split; [done|]. by left.
  - destruct (decide (u ∈ Sitemap.visitedSitemaps s)).
    + by rewrite sitemap_loop_visited.
    + rewrite sitemap_loop_fetch by done. split; cbn; try done. congruence.
Qed.

Lemma stream_shape_step o s s' :
  Sitemap.step o s = Some s' → Sitemap.invariant s → stream_shape s → stream_shape s'.
Proof.
  intros H I [S1 S2 S3]. destruct o as [io|]; cbn in H; [|simplify_eq; by split].
  unfold Sitemap.respond in H. destruct (Sitemap.pc s) as [u depth|] eqn:Hpc; [|done].
  destruct (Sitemap.inv_running s I _ _ Hpc) as [Hb He].
  destruct io as [e|[] st [e|e|d]]; simplify_eq; try by apply stream_shape_fail.
  - unfold Sitemap.fail_unless_closed. destruct (Sitemap.closed s) eqn:Hc.
    + split; cbn; try done. congruence.
    + by apply stream_shape_fail.
  - unfold Sitemap.digest. cbn. apply stream_shape_loop; cbn; [|done].
    apply Forall_app. split; [done|].
    match goal with |- context [Sitemap.emit ?b ?n] =>
      by destruct (sitemap_emit_spec b n) as (_ & _ & F) end.
Qed.

(** X16. In every state of every crawl the stream consists of batches, followed
    by exactly one [done] or [failed] when the response was ended, which
    happens only as the handler returns; as long as the response is not
    ended only batches were sent; and the handler returns without ending the
    response only when the request is closed. *)
Theorem stream_is_batches_then_one_terminal new_URL s :
  Sitemap.reachable new_URL s →
  (Sitemap.ended s = false →
     Forall (λ e, Sitemap.is_batch e = true) (Sitemap.sent s))
  ∧ (Sitemap.ended s = true →
       Sitemap.pc s = Sitemap.Returned
       ∧ ∃ l e, Sitemap.sent s = l ++ [e]
           ∧ Forall (λ e, Sitemap.is_batch e = true) l
           ∧ (Sitemap.is_done e = true ∨ Sitemap.is_failed e = true))
  ∧ (Sitemap.pc s = Sitemap.Returned → Sitemap.ended s = false →
       Sitemap.closed s = true).
Proof.
  intros (query & depth & ops & Hrun).
  assert (stream_shape (Sitemap.start new_URL query depth)) as S.
  { unfold Sitemap.start. case_bool_decide; [by apply stream_shape_fail|].
    destruct (new_URL _) as [parsed|]; [|by apply stream_shape_fail].
    destruct (Sitemap.http_protocol _); [|by apply stream_shape_fail].
    by apply stream_shape_loop. }
  pose proof (sitemap_start_invariant new_URL query depth) as I.
  assert (stream_shape s) as [S1 S2 S3]; [|done].
  revert Hrun I S. generalize (Sitemap.start new_URL query depth).
  induction ops as [|o ops IH]; intros s0 H I S; cbn in H; [by simplify_eq|].
  destruct (Sitemap.step o s0) as [s1|] eqn:E; [|done].
  eapply IH; [done|by eapply sitemap_step_invariant|by eapply stream_shape_step].
Qed.

(** A crawl that ends with [done]. *)
Lemma stream_is_batches_then_one_terminal_witness :
  let ops := [served ["p1"; "p2"] ["http://x.org/a.xml"]; served ["p2"; "p3"] []] in
  let s := default (Sitemap.start toy_URL None 5)
             (Sitemap.run ops (Sitemap.start toy_URL (Some "http://x.org/sitemap.xml") 5)) in
  Sitemap.reachable toy_URL s
  ∧ Sitemap.sent s = [Sitemap.Batch ["p1"; "p2"] 2; Sitemap.Batch ["p3"] 3; Sitemap.Done 3]
  ∧ ((Sitemap.ended s = false →
        Forall (λ e, Sitemap.is_batch e = true) (Sitemap.sent s))
     ∧ (Sitemap.ended s = true →
          Sitemap.pc s = Sitemap.Returned
          ∧ ∃ l e, Sitemap.sent s = l ++ [e]
              ∧ Forall (λ e, Sitemap.is_batch e = true) l
              ∧ (Sitemap.is_done e = true ∨ Sitemap.is_failed e = true))
     ∧ (Sitemap.pc s = Sitemap.Returned → Sitemap.ended s = false →
          Sitemap.closed s = true)).
Proof.
  intros ops s.
  assert (Sitemap.reachable toy_URL s) as R.
  { exists (Some "http://x.org/sitemap.xml"), 5, ops. vm_compute; reflexivity. }
  split; [exact R|]. split; [vm_compute; reflexivity|].
  apply (stream_is_batches_then_one_terminal toy_URL s R).
Defined.

(** ** run and [/api/check] *)










(** ** check-h1.js *)

Lemma sapp_cons c (a b : string) : String c a +:+ b = String c (a +:+ b).
Proof. done. Qed.

Lemma sapp_nil_l (a : string) : "" +:+ a = a.
Proof. done. Qed.

Lemma sapp_assoc (a b c : string) : (a +:+ b) +:+ c = a +:+ (b +:+ c).
Proof. induction a as [|x a IH]; [done|]. rewrite !sapp_cons. by f_equal. Qed.

Lemma sapp_nil_r (a : string) : a +:+ "" = a.
Proof. induction a as [|x a IH]; [done|]. rewrite sapp_cons. by f_equal. Qed.



Lemma includes_char_cons c d r :
  Js.includes (String c "") (String d r) = Ascii.eqb d c || Js.includes (String c "") r.
Proof.
  cbn. destruct (ascii_dec c d) as [->|Hne].
  - rewrite Ascii.eqb_refl. by destruct r.
  - destruct (Ascii.eqb_spec d c) as [->|_]; done.
Qed.

Lemma includes_char_nil c : Js.includes (String c "") "" = false.
Proof. done. Qed.

Lemma includes_char_app c a b :
  Js.includes (String c "") (a +:+ b)
  = Js.includes (String c "") a || Js.includes (String c "") b.
Proof.
  induction a as [|x a IH].
  - done.
  - rewrite sapp_cons, !includes_char_cons, IH. by rewrite orb_assoc.
Qed.

Lemma cli_join_one sep x : Cli.join sep [x] = x.
Proof. done. Qed.

Lemma cli_join_more sep x y l :
  Cli.join sep (x :: y :: l) = x +:+ sep +:+ Cli.join sep (y :: l).
Proof. done. Qed.

Lemma cli_read_plain t f r s :
  Js.includes (String Cli.comma "") t = false →
  Js.includes (String Cli.newline "") t = false →
  Js.includes (String Cli.quote "") t = false →
  Cli.read Cli.Plain f r (t +:+ s) = Cli.read Cli.Plain (f +:+ t) r s.
Proof.
  revert f. induction t as [|c t IH]; intros f H1 H2 H3.
  - by rewrite sapp_nil_r.
  - rewrite includes_char_cons in H1, H2, H3.
    apply orb_false_iff in H1 as [E1 H1], H2 as [E2 H2], H3 as [E3 H3].
    rewrite ?sapp_assoc, ?sapp_cons, ?sapp_nil_l. cbn [Cli.read]. rewrite E1, E2, E3, (IH _ H1 H2 H3).
    unfold Cli.snoc. by rewrite ?sapp_assoc, ?sapp_cons, ?sapp_nil_l.
Qed.

Lemma cli_read_quoted t f r s :
  Cli.read Cli.Quoted f r
    (Cli.replace_all Cli.quote (String Cli.quote (String Cli.quote "")) t
       +:+ String Cli.quote s)
  = Cli.read Cli.Closing (f +:+ t) r s.
Proof.
  revert f. induction t as [|c t IH]; intros f.
  - cbn [Cli.replace_all]. rewrite ?sapp_assoc, ?sapp_cons, ?sapp_nil_l. cbn [Cli.read]. rewrite Ascii.eqb_refl.
    by rewrite sapp_nil_r.
  - cbn [Cli.replace_all]. destruct (Ascii.eqb_spec c Cli.quote) as [->|Hne].
    + rewrite ?sapp_assoc, ?sapp_cons, ?sapp_nil_l. cbn [Cli.read]. rewrite Ascii.eqb_refl.
      change (Ascii.eqb Cli.quote Cli.comma) with false.
      change (Ascii.eqb Cli.quote Cli.newline) with false.
      cbn match. rewrite IH. unfold Cli.snoc. by rewrite ?sapp_assoc, ?sapp_cons, ?sapp_nil_l.
    + rewrite ?sapp_assoc, ?sapp_cons, ?sapp_nil_l. cbn [Cli.read].
      apply Ascii.eqb_neq in Hne. rewrite Hne, IH. unfold Cli.snoc. by rewrite ?sapp_assoc, ?sapp_cons, ?sapp_nil_l.
Qed.

(** What follows a field: the end of the text, a comma or a line feed. *)
Lemma cli_read_closing f r s :
  match s with
  | EmptyString => True
  | String c _ => c = Cli.comma ∨ c = Cli.newline
  end →
  Cli.read Cli.Closing f r s = Cli.read Cli.Plain f r s.
Proof. destruct s as [|c s]; [done|]. by intros [-> | ->]. Qed.

Lemma cli_read_field v r s :
  v ≠ Cli.Null →
  match s with
  | EmptyString => True
  | String c _ => c = Cli.comma ∨ c = Cli.newline
  end →
  Cli.read Cli.Plain "" r (Cli.csvEscape v +:+ s) = Cli.read Cli.Plain (Cli.to_String v) r s.
Proof.
  intros Hv Hs.
  assert (Cli.csvEscape v =
          if Js.includes (String Cli.comma "") (Cli.to_String v)
             || Js.includes (String Cli.newline "") (Cli.to_String v)
             || Js.includes (String Cli.quote "") (Cli.to_String v)
          then String Cli.quote "" +:+
               Cli.replace_all Cli.quote (String Cli.quote (String Cli.quote ""))
                 (Cli.to_String v) +:+ String Cli.quote ""
          else Cli.to_String v) as -> by (by destruct v).
  generalize (Cli.to_String v). intros t.
  destruct (Js.includes (String Cli.comma "") t) eqn:E1;
    [|destruct (Js.includes (String Cli.newline "") t) eqn:E2;
      [|destruct (Js.includes (String Cli.quote "") t) eqn:E3]]; cbn [orb].
  4: by rewrite cli_read_plain.
  all: rewrite ?sapp_assoc, ?sapp_cons, ?sapp_nil_l; cbn [Cli.read];
    change (Ascii.eqb Cli.quote Cli.comma) with false;
    change (Ascii.eqb Cli.quote Cli.newline) with false;
    rewrite Ascii.eqb_refl; cbn match;
    by rewrite cli_read_quoted, cli_read_closing.
Qed.

Lemma cli_read_close f r s :
  s = "" ∨ (∃ s', s = String Cli.newline s') →
  Cli.read Cli.Plain f r s = Cli.close (r ++ [f]) s.
Proof. by intros [->|[s' ->]]. Qed.

Lemma cli_read_line fs v r s :
  Forall (λ v, v ≠ Cli.Null) (v :: fs) →
  s = "" ∨ (∃ s', s = String Cli.newline s') →
  Cli.read Cli.Plain "" r (Cli.join "," (map Cli.csvEscape (v :: fs)) +:+ s)
  = Cli.close (r ++ map Cli.to_String (v :: fs)) s.
Proof.
  revert v r. induction fs as [|w fs IH]; intros v r Hv Hs.
  - rewrite !map_cons, cli_join_one, cli_read_field.
    + by apply cli_read_close.
    + by inversion Hv.
    + destruct Hs as [->|[s' ->]]; [done|by right].
  - inversion Hv as [|? ? Hv1 Hv2]; subst.
    rewrite (map_cons Cli.csvEscape v), (map_cons Cli.csvEscape w), cli_join_more.
    rewrite <- (map_cons Cli.csvEscape w).
    rewrite !sapp_assoc. rewrite cli_read_field; [|done|by left].
    rewrite ?sapp_assoc, ?sapp_cons, ?sapp_nil_l. cbn [Cli.read]. change (Ascii.eqb "," Cli.comma) with true. cbn match.
    rewrite (IH w _ Hv2 Hs). rewrite (map_cons Cli.to_String v). by rewrite <- app_assoc.
Qed.

Lemma cli_read_lines rows row0 :
  Forall (λ row, row ≠ [] ∧ Forall (λ v, v ≠ Cli.Null) row) (row0 :: rows) →
  Cli.read Cli.Plain "" []
     (Cli.join (String Cli.newline "")
        (map (λ row, Cli.join "," (map Cli.csvEscape row)) (row0 :: rows)))
  = map (map Cli.to_String) (row0 :: rows).
Proof.
  revert row0. induction rows as [|row1 rows IH]; intros row0 H.
  - inversion H as [|? ? [Hne Hv] _]; subst. destruct row0 as [|v fs]; [done|].
    change (map (λ row, Cli.join "," (map Cli.csvEscape row)) [v :: fs])
      with [Cli.join "," (map Cli.csvEscape (v :: fs))].
    rewrite cli_join_one.
    rewrite <- (sapp_nil_r (Cli.join _ _)), cli_read_line; [done|done|by left].
  - inversion H as [|? ? [Hne Hv] H']; subst. destruct row0 as [|v fs]; [done|].
    change (Cli.join (String Cli.newline "") (map _ ((v :: fs) :: row1 :: rows)))
      with (Cli.join "," (map Cli.csvEscape (v :: fs)) +:+ String Cli.newline "" +:+
            Cli.join (String Cli.newline "")
              (map (λ row, Cli.join "," (map Cli.csvEscape row)) (row1 :: rows))).
    rewrite cli_read_line; [|done|by right; eexists].
    rewrite ?sapp_assoc, ?sapp_cons, ?sapp_nil_l. cbn [Cli.close]. rewrite (IH row1 H'). by rewrite (map_cons _ (v :: fs)).
Qed.

Lemma cli_read_report results filterFn :
  Cli.read Cli.Plain "" [] (Cli.writeCsvReportFiltered results filterFn)
  = Cli.header :: map Cli.cells (Cli.kept filterFn results).
Proof.
  unfold Cli.writeCsvReportFiltered.
  change (Cli.join "," Cli.header)
    with ((λ row, Cli.join "," (map Cli.csvEscape row)) (map Cli.Str Cli.header)).
  rewrite <- (map_map Cli.row (λ row, Cli.join "," (map Cli.csvEscape row))).
  rewrite <- (map_cons (λ row, Cli.join "," (map Cli.csvEscape row))).
  rewrite cli_read_lines.
  - rewrite (map_cons (map Cli.to_String)), (map_map Cli.row). reflexivity.
  - constructor.
    + split; [done|]. by repeat constructor.
    + apply Forall_forall. intros row [r [-> _]]%list_elem_of_fmap.
      split; [done|]. unfold Cli.row. repeat constructor; try done. by destruct (Cli.status r) as [[|]|].
Qed.

(** X18. A reader of comma-separated values that ends a quoted field at the
    first quote that is not doubled reads a report back as the header
    followed by one row for each result that passed the filter, every cell
    being the text of its value: commas, line feeds and quotes inside a
    heading or an error message do not shift or split the columns. *)
Theorem csv_report_reads_back results filterFn :
  Cli.read Cli.Plain "" [] (Cli.writeCsvReportFiltered results filterFn)
  = Cli.header :: map Cli.cells (Cli.kept filterFn results).
Proof.
  rewrite cli_read_report. reflexivity.
Qed.

(** X19. Two reports with the same text have the same rows: the text of a report
    determines the cells of every result it lists. *)
Theorem csv_report_is_unambiguous results1 results2 filter1 filter2 :
  Cli.writeCsvReportFiltered results1 filter1 = Cli.writeCsvReportFiltered results2 filter2 →
  map Cli.cells (Cli.kept filter1 results1) = map Cli.cells (Cli.kept filter2 results2).
Proof.
  intros H. apply (f_equal (Cli.read Cli.Plain "" [])) in H.
  rewrite !cli_read_report in H. by injection H.
Qed.

(** Two results, one of them failed with a message that holds a comma and
    quotes: the export of the failures of both is the report of the failed
    one alone. *)
Lemma csv_report_is_unambiguous_witness :
  let bad := {| Cli.url := "http://a.example/x,y"; Cli.status := Some 500; Cli.ok := false;
                Cli.hasH1 := false; Cli.h1 := None;
                Cli.error := Some ("no " +:+ String Cli.quote ("h1" +:+ String Cli.quote ", at all")) |} in
  let good := {| Cli.url := "http://b.example/"; Cli.status := Some 200; Cli.ok := true;
                 Cli.hasH1 := true; Cli.h1 := Some "Welcome"; Cli.error := None |} in
  Cli.writeCsvReportFiltered [good; bad] (Some Cli.failed) = Cli.writeCsvReportFiltered [bad] None
  ∧ map Cli.cells (Cli.kept (Some Cli.failed) [good; bad]) = map Cli.cells (Cli.kept None [bad]).
Proof.
  intros bad good. split; [vm_compute; reflexivity|].
  apply (csv_report_is_unambiguous [good; bad] [bad] (Some Cli.failed) None).
  vm_compute; reflexivity.
Defined.

Lemma cli_replace_all_app c rep a b :
  Cli.replace_all c rep (a +:+ b) = Cli.replace_all c rep a +:+ Cli.replace_all c rep b.
Proof.
  induction a as [|x a IH]; [done|].
  rewrite sapp_cons. cbn [Cli.replace_all]. by rewrite IH, sapp_assoc.
Qed.

Lemma cli_escapeHtml_cons c s :
  Cli.escapeHtml (String c s) = Cli.entity c +:+ Cli.escapeHtml s.
Proof.
  unfold Cli.escapeHtml, Cli.entity. cbn [Cli.replace_all].
  rewrite !cli_replace_all_app.
  destruct (Ascii.eqb_spec c "&") as [->|H1]; [done|].
  cbn [Cli.replace_all]. rewrite !cli_replace_all_app.
  destruct (Ascii.eqb_spec c "<") as [->|H2]; [done|].
  cbn [Cli.replace_all]. 
  destruct (Ascii.eqb_spec c ">") as [->|H3]; done.
Qed.

Lemma cli_entity_clean c :
  Js.includes "<" (Cli.entity c) = false ∧ Js.includes ">" (Cli.entity c) = false.
Proof.
  unfold Cli.entity.
  destruct (Ascii.eqb_spec c "&") as [->|H1]; [done|].
  destruct (Ascii.eqb_spec c "<") as [->|H2]; [done|].
  destruct (Ascii.eqb_spec c ">") as [->|H3]; [done|].
  rewrite !includes_char_cons, !includes_char_nil.
  apply Ascii.eqb_neq in H2, H3. by rewrite H2, H3.
Qed.

(** X20. The text that [escapeHtml] returns holds no [<] and no [>]: a heading
    or an error message cannot open or close a tag of the report. *)
Theorem escapeHtml_leaves_no_tag s :
  Js.includes "<" (Cli.escapeHtml s) = false ∧ Js.includes ">" (Cli.escapeHtml s) = false.
Proof.
  induction s as [|c s [IH1 IH2]]; [done|].
  rewrite cli_escapeHtml_cons, !includes_char_app, IH1, IH2.
  by destruct (cli_entity_clean c) as [-> ->].
Qed.

Lemma cli_entity_inj c d s t :
  Cli.entity c +:+ s = Cli.entity d +:+ t → c = d ∧ s = t.
Proof.
  unfold Cli.entity.
  destruct (Ascii.eqb_spec c "&") as [->|C1];
    [|destruct (Ascii.eqb_spec c "<") as [->|C2];
      [|destruct (Ascii.eqb_spec c ">") as [->|C3]]];
  (destruct (Ascii.eqb_spec d "&") as [->|D1];
    [|destruct (Ascii.eqb_spec d "<") as [->|D2];
      [|destruct (Ascii.eqb_spec d ">") as [->|D3]]]);
  rewrite ?sapp_cons, ?sapp_nil_l; intros H; by simplify_eq.
Qed.

(** X21. [escapeHtml] loses nothing: two texts with the same escaped form are
    the same text. *)
Theorem escapeHtml_is_injective s t :
  Cli.escapeHtml s = Cli.escapeHtml t → s = t.
Proof.
  revert t. induction s as [|c s IH]; intros [|d t] H.
  - done.
  - rewrite cli_escapeHtml_cons in H. unfold Cli.entity in H.
    destruct (Ascii.eqb d "&"), (Ascii.eqb d "<"), (Ascii.eqb d ">"); done.
  - rewrite cli_escapeHtml_cons in H. unfold Cli.entity in H.
    destruct (Ascii.eqb c "&"), (Ascii.eqb c "<"), (Ascii.eqb c ">"); done.
  - rewrite !cli_escapeHtml_cons in H. apply cli_entity_inj in H as [-> H].
    by rewrite (IH t H).
Qed.

Lemma escapeHtml_is_injective_witness :
  Cli.escapeHtml "a < b && c" = Cli.escapeHtml "a < b && c" ∧ "a < b && c" = "a < b && c".
Proof.
  split; [vm_compute; reflexivity|].
  apply (escapeHtml_is_injective "a < b && c" "a < b && c"). vm_compute; reflexivity.
Defined.

(** ** readUrlsFromFile *)



















